(** * DistributedBucketSampler (src/data_utils.py): a shallow embedding

    The length-bucketed, replica-sharded batch sampler of the toolkit,
    translated function by function from [data_utils.py]:

    - [_bisect]           the recursive binary search over the boundaries,
    - [_create_buckets]   classification, pruning of empty buckets (which
                          mutates the caller's boundary list) and the
                          padded sample counts,
    - [__init__]          construction over a store of list objects, after
                          the base-class constructor's check of the rank,
    - [__iter__]          one epoch's plan and build for one rank,
    - [__len__].

    Python exceptions are values of [result]; Python integers that may be
    negative (indices handed to [_bisect], the sentinel -1, sample
    lengths, the epoch) are [Z]; counts and list positions produced by
    [range] and [len] are [nat].  [batch_size], [num_replicas] and [rank]
    are counts, so they are [nat] as well: zero is modelled (a zero
    [batch_size] makes the divisions raise, a zero [num_replicas] is
    refused by the base class), negative values are not.  The
    pseudo-random generator of torch is a parameter of the development
    ([Section Epoch]). *)

From Equations Require Import Equations.
From stdpp Require Import base list gmap strings.
From Stdlib Require Import ZArith Lia Ascii DecimalString.

Local Open Scope Z_scope.

(** ** Exceptions and the error monad *)

Inductive exn : Type :=
| ZeroDivisionError
| IndexError
| ValueError
| AssertionError.

Inductive result (A : Type) : Type :=
| Ok (a : A)
| Raise (e : exn).

Arguments Ok {A} a.
Arguments Raise {A} e.

Definition bind {A B : Type} (m : result A) (k : A → result B) : result B :=
  match m with
  | Ok a => k a
  | Raise e => Raise e
  end.

Notation "x <- m ;; k" := (bind m (fun x => k))
  (at level 100, m at next level, right associativity, only parsing).

Definition is_ok {A : Type} (m : result A) : bool :=
  match m with Ok _ => true | Raise _ => false end.

(** [[f(x) for x in l]] where [f] may raise. *)
Fixpoint mapM {A B : Type} (f : A → result B) (l : list A) : result (list B) :=
  match l with
  | [] => Ok []
  | a :: l' => b <- f a ;; bs <- mapM f l' ;; Ok (b :: bs)
  end.

(** ** Python list operations *)

(** Index normalisation of [l[i]]: a negative index counts from the end;
    [None] stands for an index out of range. *)
Definition norm_index (n : nat) (i : Z) : option nat :=
  let j := if i <? 0 then i + Z.of_nat n else i in
  if (j <? 0) || (Z.of_nat n <=? j) then None else Some (Z.to_nat j).

(** [l[i]] for an integer [i]. *)
Definition getitem {A : Type} (l : list A) (i : Z) : result A :=
  match norm_index (length l) i with
  | Some j => match l !! j with Some a => Ok a | None => Raise IndexError end
  | None => Raise IndexError
  end.

(** [l[i]] for a position [i] that comes from [range] or [randperm]. *)
Definition getpos {A : Type} (l : list A) (i : nat) : result A :=
  match l !! i with
  | Some a => Ok a
  | None => Raise IndexError
  end.

(** [l.pop(i)] for a position [i >= 0], keeping only the new list. *)
Definition pop {A : Type} (l : list A) (i : nat) : result (list A) :=
  if (i <? length l)%nat then Ok (delete i l) else Raise IndexError.

(** [l * n]. *)
Definition repeat_list {A : Type} (l : list A) (n : nat) : list A :=
  concat (replicate n l).

(** [l[a:b]] for [0 <= a <= b]. *)
Definition slice {A : Type} (l : list A) (a b : nat) : list A :=
  take (b - a) (drop a l).

(** The elements of [l] at positions [skip], [skip + k + 1],
    [skip + 2 (k + 1)], ... *)
Fixpoint strided {A : Type} (k skip : nat) (l : list A) : list A :=
  match l with
  | [] => []
  | a :: l' =>
    match skip with
    | O => a :: strided k k l'
    | S s => strided k s l'
    end
  end.

(** [l[start::step]] for [start >= 0]; Python refuses a zero step. *)
Definition slice_step {A : Type} (l : list A) (start step : nat) : result (list A) :=
  match step with
  | O => Raise ValueError
  | S k => Ok (strided k start l)
  end.

(** [a % b] and [a // b] on counts. *)
Definition py_mod (a b : nat) : result nat :=
  if (b =? 0)%nat then Raise ZeroDivisionError else Ok (a mod b)%nat.

Definition py_div (a b : nat) : result nat :=
  if (b =? 0)%nat then Raise ZeroDivisionError else Ok (a / b)%nat.

(** [range(hi, 0, -1)]: [hi, hi - 1, ..., 1]. *)
Definition range_down (hi : nat) : list nat := rev (seq 1 hi).

(** ** [_bisect] *)

(** [_bisect(x, lo, hi)] over the current boundary list.  The chained
    comparison [boundaries[mid] < x <= boundaries[mid + 1]] reads
    [boundaries[mid + 1]] only when its first half holds.  The recursion
    is justified by the width [hi - lo], which shrinks at both calls. *)
Equations? _bisect (boundaries : list Z) (x lo hi : Z) : result Z
  by wf (Z.to_nat (hi - lo)) lt :=
_bisect boundaries x lo hi with Z_lt_dec lo hi := {
  | left Hlt =>
    let mid := (hi + lo) / 2 in
    match getitem boundaries mid with
    | Raise e => Raise e
    | Ok bm =>
      if bm <? x then
        match getitem boundaries (mid + 1) with
        | Raise e => Raise e
        | Ok bm1 =>
          if x <=? bm1 then Ok mid
          else if x <=? bm then _bisect boundaries x lo ((hi + lo) / 2)
          else _bisect boundaries x ((hi + lo) / 2 + 1) hi
        end
      else if x <=? bm then _bisect boundaries x lo ((hi + lo) / 2)
      else _bisect boundaries x ((hi + lo) / 2 + 1) hi
    end
  | right _ => Ok (-1) }.
Proof.
  all: assert (lo <= (hi + lo) / 2 < hi)
    by (split; [apply Z.div_le_lower_bound | apply Z.div_lt_upper_bound]; lia);
    lia.
Qed.

(** The default [hi = len(self.boundaries) - 1]. *)
Definition bisect_default (boundaries : list Z) (x : Z) : result Z :=
  _bisect boundaries x 0 (Z.of_nat (length boundaries) - 1).

(** ** [_create_buckets] *)

(** [buckets[idx_bucket].append(i)]. *)
Definition append_at (buckets : list (list nat)) (idx : Z) (i : nat)
  : result (list (list nat)) :=
  match norm_index (length buckets) idx with
  | Some j => Ok (alter (λ b, b ++ [i]) j buckets)
  | None => Raise IndexError
  end.

(** The classification loop [for i in range(len(self.lengths))], entered
    at sample index [i] with the lengths from [i] on still to visit. *)
Fixpoint classify (boundaries : list Z) (lengths : list Z) (i : nat)
    (buckets : list (list nat)) : result (list (list nat)) :=
  match lengths with
  | [] => Ok buckets
  | len :: rest =>
    idx_bucket <- bisect_default boundaries len ;;
    if idx_bucket =? -1 then classify boundaries rest (S i) buckets
    else
      buckets' <- append_at buckets idx_bucket i ;;
      classify boundaries rest (S i) buckets'
  end.

(** The pruning loop [for i in range(len(buckets) - 1, 0, -1)]: the range
    is fixed when the loop starts; both lists are mutated in place.  The
    boundary list is the caller's object, so its state is returned also
    when an exception leaves the loop. *)
Fixpoint prune (positions : list nat) (buckets : list (list nat))
    (boundaries : list Z) : result (list (list nat)) * list Z :=
  match positions with
  | [] => (Ok buckets, boundaries)
  | i :: rest =>
    match getpos buckets i with
    | Raise e => (Raise e, boundaries)
    | Ok bucket =>
      if (length bucket =? 0)%nat then
        match pop buckets i with
        | Raise e => (Raise e, boundaries)
        | Ok buckets' =>
          match pop boundaries (i + 1) with
          | Raise e => (Raise e, boundaries)
          | Ok boundaries' => prune rest buckets' boundaries'
          end
        end
      else prune rest buckets boundaries
    end
  end.

(** The loop that computes [num_samples_per_bucket]. *)
Fixpoint pad_counts (num_replicas batch_size : nat) (buckets : list (list nat))
  : result (list nat) :=
  match buckets with
  | [] => Ok []
  | bucket :: rest =>
    let len_bucket := length bucket in
    let total_batch_size := (num_replicas * batch_size)%nat in
    m <- py_mod len_bucket total_batch_size ;;
    rem <- py_mod (total_batch_size - m) total_batch_size ;;
    counts <- pad_counts num_replicas batch_size rest ;;
    Ok ((len_bucket + rem)%nat :: counts)
  end.

(** [_create_buckets]: the result of the call and the boundary list as
    the call leaves it.  [range(len(self.boundaries) - 1)] is empty when
    the list is empty, as the truncated subtraction has it. *)
Definition _create_buckets (boundaries : list Z) (lengths : list Z)
    (num_replicas batch_size : nat)
  : result (list (list nat) * list nat) * list Z :=
  let buckets := replicate (length boundaries - 1)%nat [] in
  match classify boundaries lengths 0 buckets with
  | Raise e => (Raise e, boundaries)
  | Ok buckets =>
    match prune (range_down (length buckets - 1)) buckets boundaries with
    | (Raise e, boundaries') => (Raise e, boundaries')
    | (Ok buckets', boundaries') =>
      (counts <- pad_counts num_replicas batch_size buckets' ;;
       Ok (buckets', counts), boundaries')
    end
  end.

(** ** The sampler object and the store *)

(** List objects live in a store; [self.boundaries] is a reference into
    it, shared with the caller.  Every reference a program holds is live,
    so the default of [deref] is never met on an allocated location. *)
Abbreviation loc := positive.
Abbreviation heap := (gmap positive (list Z)).

Definition deref (h : heap) (l : loc) : list Z := default [] (h !! l).

Record Sampler : Type := mkSampler {
  lengths : list Z;
  batch_size : nat;
  boundaries : loc;
  num_replicas : nat;
  rank : nat;
  shuffle : bool;
  epoch : Z;
  buckets : list (list nat);
  num_samples_per_bucket : list nat;
  total_size : nat;
  num_samples : nat;
  batches : list (list nat)
}.

(** [sum(self.num_samples_per_bucket)]. *)
Definition sum_counts (l : list nat) : nat := foldr Nat.add 0%nat l.

(** [DistributedSampler.__init__(dataset, num_replicas, rank, shuffle)]
    of torch, the base class, for given [num_replicas] and [rank]: it
    raises [ValueError] when [rank >= num_replicas or rank < 0] (so for
    every rank when [num_replicas] is 0), and otherwise stores
    [num_replicas], [rank], [shuffle] and [epoch = 0].  Ranks are
    natural numbers here. *)
Definition base_init (num_replicas rank : nat) : result unit :=
  if (num_replicas <=? rank)%nat then Raise ValueError else Ok tt.

(** [DistributedBucketSampler(dataset, batch_size, boundaries,
    num_replicas, rank, shuffle)] with [dataset.lengths = lengths].  The
    base-class constructor runs first, before the boundary list is
    touched; [self.batches] does not exist before the first [__iter__]
    and is modelled empty. *)
Definition __init__ (h : heap) (lengths : list Z) (batch_size : nat)
    (boundaries : loc) (num_replicas rank : nat) (shuffle : bool)
  : result Sampler * heap :=
  match base_init num_replicas rank with
  | Raise e => (Raise e, h)
  | Ok _ =>
    match _create_buckets (deref h boundaries) lengths num_replicas batch_size with
    | (Raise e, bs') => (Raise e, <[boundaries := bs']> h)
    | (Ok (buckets, counts), bs') =>
      let total_size := sum_counts counts in
      match py_div total_size num_replicas with
      | Raise e => (Raise e, <[boundaries := bs']> h)
      | Ok num_samples =>
        (Ok (mkSampler lengths batch_size boundaries num_replicas rank shuffle 0
               buckets counts total_size num_samples []),
         <[boundaries := bs']> h)
      end
    end
  end.

(** [set_epoch] of the base class. *)
Definition set_epoch (e : Z) (s : Sampler) : Sampler :=
  mkSampler (lengths s) (batch_size s) (boundaries s) (num_replicas s) (rank s)
    (shuffle s) e (buckets s) (num_samples_per_bucket s) (total_size s)
    (num_samples s) (batches s).

Definition set_batches (b : list (list nat)) (s : Sampler) : Sampler :=
  mkSampler (lengths s) (batch_size s) (boundaries s) (num_replicas s) (rank s)
    (shuffle s) (epoch s) (buckets s) (num_samples_per_bucket s) (total_size s)
    (num_samples s) b.

(** [__len__]. *)
Definition __len__ (s : Sampler) : result nat :=
  py_div (num_samples s) (batch_size s).

(** ** [__iter__] *)

Section Epoch.

(** [torch.Generator]: its state, [manual_seed] and [randperm], which
    returns the drawn list and the advanced state.  [manual_seed] is
    taken total: torch refuses a seed outside 64 bits ([seed_accepted]
    below), and such epochs are outside this model. *)
Variable Generator : Type.
Variable manual_seed : Z → Generator.
Variable randperm : nat → Generator → list nat * Generator.

(** [indices] when [self.shuffle]: one draw per bucket, in bucket order. *)
Fixpoint shuffled_indices (g : Generator) (buckets : list (list nat))
  : list (list nat) * Generator :=
  match buckets with
  | [] => ([], g)
  | bucket :: rest =>
    let '(p, g') := randperm (length bucket) g in
    let '(ps, g'') := shuffled_indices g' rest in
    (p :: ps, g'')
  end.

(** [indices] otherwise: [list(range(len(bucket)))] per bucket. *)
Definition range_indices (buckets : list (list nat)) : list (list nat) :=
  (λ bucket, seq 0 (length bucket)) <$> buckets.

(** [ids_bucket + ids_bucket * (rem // len_bucket)
     + ids_bucket[:(rem % len_bucket)]] with
    [rem = num_samples_bucket - len_bucket]. *)
Definition pad_ids (ids_bucket : list nat) (len_bucket num_samples_bucket : nat)
  : list nat :=
  let rem := Z.of_nat num_samples_bucket - Z.of_nat len_bucket in
  ids_bucket
    ++ repeat_list ids_bucket (Z.to_nat (rem / Z.of_nat len_bucket))
    ++ take (Z.to_nat (rem mod Z.of_nat len_bucket)) ids_bucket.

(** One batch: [[bucket[idx] for idx in ids_bucket[j * B:(j + 1) * B]]]. *)
Definition make_batch (bucket ids_bucket : list nat) (batch_size j : nat)
  : result (list nat) :=
  mapM (getpos bucket)
       (slice ids_bucket (j * batch_size) ((j + 1) * batch_size)).

(** The body of the bucket loop for a non-empty bucket: pad, subsample,
    batch. *)
Definition bucket_batches (num_replicas rank batch_size : nat)
    (bucket ids_bucket : list nat) (num_samples_bucket : nat)
  : result (list (list nat)) :=
  let ids_bucket := pad_ids ids_bucket (length bucket) num_samples_bucket in
  ids_bucket <- slice_step ids_bucket rank num_replicas ;;
  n <- py_div (length ids_bucket) batch_size ;;
  mapM (make_batch bucket ids_bucket batch_size) (seq 0 n).

(** The loop [for i in range(len(self.buckets))] over the positions
    still to visit, with the batches collected so far. *)
Fixpoint build (s : Sampler) (indices : list (list nat)) (positions : list nat)
    (batches : list (list nat)) : result (list (list nat)) :=
  match positions with
  | [] => Ok batches
  | i :: rest =>
    bucket <- getpos (buckets s) i ;;
    if (length bucket =? 0)%nat then build s indices rest batches
    else
      ids_bucket <- getpos indices i ;;
      num_samples_bucket <- getpos (num_samples_per_bucket s) i ;;
      new <- bucket_batches (num_replicas s) (rank s) (batch_size s)
               bucket ids_bucket num_samples_bucket ;;
      build s indices rest (batches ++ new)
  end.

(** The body of [__iter__] up to the assignment of [self.batches]: the
    generator is created and seeded from [self.epoch], the positions are
    drawn, the buckets are batched and the batch order is shuffled. *)
Definition epoch_batches (s : Sampler) : result (list (list nat)) :=
  let g := manual_seed (epoch s) in
  let '(indices, g) :=
    if shuffle s then shuffled_indices g (buckets s)
    else (range_indices (buckets s), g) in
  batches <- build s indices (seq 0 (length (buckets s))) [] ;;
  if shuffle s then
    let batch_ids := (randperm (length batches) g).1 in
    mapM (getpos batches) batch_ids
  else Ok batches.

(** [__iter__]: the batches handed to the caller (or the exception) and
    the sampler afterwards; [self.batches] is assigned before the
    assertion is evaluated. *)
Definition __iter__ (s : Sampler) : result (list (list nat)) * Sampler :=
  match epoch_batches s with
  | Raise e => (Raise e, s)
  | Ok batches =>
    let s' := set_batches batches s in
    if (length (batches) * batch_size s' =? num_samples s')%nat
    then (Ok batches, s')
    else (Raise AssertionError, s')
  end.

(** The position lists [__iter__] uses at the epoch of [s]. *)
Definition drawn_indices (s : Sampler) : list (list nat) :=
  if shuffle s then (shuffled_indices (manual_seed (epoch s)) (buckets s)).1
  else range_indices (buckets s).

(** The batches rank [r] is handed for epoch [e] by a sampler built
    from the given arguments, [[]] when an exception is raised. *)
Definition rank_batches (h : heap) (lengths : list Z) (batch_size : nat)
    (boundaries : loc) (num_replicas : nat) (shuffle : bool) (e : Z)
    (r : nat) : list (list nat) :=
  match __init__ h lengths batch_size boundaries num_replicas r shuffle with
  | (Ok s, _) =>
    match (__iter__ (set_epoch e s)).1 with
    | Ok batches => batches
    | Raise _ => []
    end
  | (Raise _, _) => []
  end.

End Epoch.

(** ** A concrete generator

    A small linear congruential generator standing in for torch's; the
    draw rotates [0 .. n-1] by the current state. *)
Definition lcg_seed (e : Z) : Z := e mod 2 ^ 32.

Definition lcg_next (g : Z) : Z := (1664525 * g + 1013904223) mod 2 ^ 32.

Definition lcg_randperm (n : nat) (g : Z) : list nat * Z :=
  (rotate (Z.to_nat (g mod Z.of_nat (S n))) (seq 0 n), lcg_next g).

(** ** The data sets: built-ins and the world outside

    [TextAudioLoader] and [TextAudioSpeakerLoader] read files.  Their
    exceptions are those of the sampler and [OSError]; the file system is
    a state [World] that only [torch.save] changes. *)

Inductive io_exn : Type :=
| Py (e : exn)
| OSError.

Inductive io_result (A : Type) : Type :=
| IoOk (a : A)
| IoRaise (e : io_exn).

Arguments IoOk {A} a.
Arguments IoRaise {A} e.

Definition io_bind {A B : Type} (m : io_result A) (k : A → io_result B)
  : io_result B :=
  match m with
  | IoOk a => k a
  | IoRaise e => IoRaise e
  end.

Notation "x <~ m ;; k" := (io_bind m (fun x => k))
  (at level 100, m at next level, right associativity, only parsing).

(** [a // b] on integers. *)
Definition py_floordiv (a b : Z) : io_result Z :=
  if b =? 0 then IoRaise (Py ZeroDivisionError) else IoOk (a / b).

(** [row[i]] for a row of fields. *)
Definition field (row : list string) (i : nat) : io_result string :=
  match row !! i with
  | Some f => IoOk f
  | None => IoRaise (Py IndexError)
  end.

(** [str(n)] for an integer. *)
Definition str_of_int (n : Z) : string := NilZero.string_of_int (Z.to_int n).

(** [s.replace(old, new)]: the occurrences of [old] are replaced from the
    left, without overlap; [skip] counts the characters of a replaced
    occurrence still to pass over.  An empty [old] matches before every
    character and at the end. *)
Fixpoint replace_from (old new : string) (skip : nat) (s : string) : string :=
  match s with
  | EmptyString => EmptyString
  | String c s' =>
    match skip with
    | S k => replace_from old new k s'
    | O =>
      if String.prefix old s
      then new +:+ replace_from old new (String.length old - 1) s'
      else String c (replace_from old new 0 s')
    end
  end.

Fixpoint intersperse_string (new : string) (s : string) : string :=
  match s with
  | EmptyString => new
  | String c s' => new +:+ String c (intersperse_string new s')
  end.

Definition str_replace (s old new : string) : string :=
  match old with
  | EmptyString => intersperse_string new s
  | _ => replace_from old new 0 s
  end.

(** [template.format(a, b, ...)] for the templates of this file, whose
    replacement fields are all [{}]: fields take the arguments in order,
    and a field without an argument raises [IndexError]; doubled braces
    are literal braces, a single brace is a [ValueError].  Arguments are
    given as they print. *)
Fixpoint format (template : string) (args : list string) : result string :=
  match template with
  | EmptyString => Ok EmptyString
  | String c rest =>
    if Ascii.eqb c "{"%char then
      match rest with
      | String c' rest' =>
        if Ascii.eqb c' "}"%char then
          match args with
          | [] => Raise IndexError
          | a :: args' => r <- format rest' args' ;; Ok (a +:+ r)
          end
        else if Ascii.eqb c' "{"%char then
          r <- format rest' args ;; Ok (String "{"%char r)
        else Raise ValueError
      | EmptyString => Raise ValueError
      end
    else if Ascii.eqb c "}"%char then
      match rest with
      | String c' rest' =>
        if Ascii.eqb c' "}"%char then r <- format rest' args ;; Ok (String "}"%char r)
        else Raise ValueError
      | EmptyString => Raise ValueError
      end
    else r <- format rest args ;; Ok (String c r)
  end.

(** ** [TextAudioLoader] and [TextAudioSpeakerLoader]

    The loaders are modelled from the state their constructors reach
    before [_filter]: the rows of the file list, already shuffled, and
    the hyper-parameters they keep.  What they call outside this file is
    a parameter: [os.path.getsize], [os.path.exists], [torch.load],
    [torch.save], [numpy.load], the tensor operations, [int], and
    [load_wav_to_torch] and [spectrogram_torch] of the toolkit's other
    files.  Reading leaves the world as it is; [torch.save] returns the
    world it leaves and the exception, if any. *)

Section Loaders.

Variable World : Type.
Variable Tensor : Type.
Variable Scalar : Type.

Variable getsize : string → World → io_result Z.
Variable path_exists : string → World → bool.
Variable torch_load : string → World → io_result Tensor.
Variable torch_save : Tensor → string → World → option io_exn * World.
Variable load_wav_to_torch : string → bool → World → io_result (Tensor * Z).
Variable spectrogram_torch :
  Tensor → Z → Z → Z → Z → bool → io_result Tensor.
Variable tensor_div : Tensor → Scalar → Tensor.
Variable unsqueeze : Tensor → Z → Tensor.
Variable squeeze : Tensor → Z → Tensor.

(** The hyper-parameters [get_audio] and [_filter] read. *)
Record HParams : Type := mkHParams {
  max_wav_value : Scalar;
  sampling_rate : Z;
  filter_length : Z;
  hop_length : Z;
  win_length : Z
}.

(** The part of [get_audio] after the sampling rate is accepted: it is
    the same text in both classes. *)
Definition load_or_make_spec (hp : HParams) (filename : string)
    (audio : Tensor) (w : World) : io_result (Tensor * Tensor) * World :=
  let audio_norm := tensor_div audio (max_wav_value hp) in
  let audio_norm := unsqueeze audio_norm 0 in
  let spec_filename := str_replace filename ".wav" ".spec.pt" in
  if path_exists spec_filename w then
    match torch_load spec_filename w with
    | IoRaise e => (IoRaise e, w)
    | IoOk spec => (IoOk (spec, audio_norm), w)
    end
  else
    match spectrogram_torch audio_norm (filter_length hp) (sampling_rate hp)
            (hop_length hp) (win_length hp) false with
    | IoRaise e => (IoRaise e, w)
    | IoOk spec =>
      let spec := squeeze spec 0 in
      match torch_save spec spec_filename w with
      | (Some e, w') => (IoRaise e, w')
      | (None, w') => (IoOk (spec, audio_norm), w')
      end
    end.

(** [raise ValueError(template.format(args))]: the message is built
    first. *)
Definition raise_value_error {A : Type} (template : string) (args : list string)
  : io_result A :=
  match format template args with
  | Ok _ => IoRaise (Py ValueError)
  | Raise e => IoRaise (Py e)
  end.

(** The loop of [_filter], with the unpacking of a row left to the class. *)
Fixpoint filter_loop (audiopath_of : list string → io_result string)
    (hp : HParams) (rows : list (list string)) (w : World) (lengths : list Z)
  : io_result (list Z) :=
  match rows with
  | [] => IoOk lengths
  | row :: rest =>
    audiopath <~ audiopath_of row ;;
    size <~ getsize audiopath w ;;
    n <~ py_floordiv size (2 * hop_length hp) ;;
    filter_loop audiopath_of hp rest w (lengths ++ [n])
  end.

End Loaders.

Module TextAudioLoader.
Section Methods.

Variable World : Type.
Variable Tensor : Type.
Variable Scalar : Type.
Variable Array : Type.

Variable getsize : string → World → io_result Z.
Variable path_exists : string → World → bool.
Variable torch_load : string → World → io_result Tensor.
Variable torch_save : Tensor → string → World → option io_exn * World.
Variable load_wav_to_torch : string → bool → World → io_result (Tensor * Z).
Variable spectrogram_torch :
  Tensor → Z → Z → Z → Z → bool → io_result Tensor.
Variable tensor_div : Tensor → Scalar → Tensor.
Variable unsqueeze : Tensor → Z → Tensor.
Variable squeeze : Tensor → Z → Tensor.
Variable np_load : string → World → io_result Array.
Variable FloatTensor : Array → io_result Tensor.

(** The loader after its constructor has read and shuffled the rows. *)
Record t : Type := mk {
  audiopaths_and_text : list (list string);
  hparams : HParams Scalar;
  lengths : list Z
}.

(** [for audiopath, text, pitch in self.audiopaths_and_text]: a row of
    any other number of fields cannot be unpacked. *)
Definition unpack (row : list string) : io_result string :=
  match row with
  | [audiopath; text; pitch] => IoOk audiopath
  | _ => IoRaise (Py ValueError)
  end.

(** [_filter]: the loader with [self.lengths] set. *)
Definition _filter (self : t) (w : World) : io_result t :=
  lengths <~ filter_loop World Scalar getsize unpack (hparams self)
               (audiopaths_and_text self) w [] ;;
  IoOk (mk (audiopaths_and_text self) (hparams self) lengths).

Definition get_pitch (pitch : string) (w : World) : io_result Tensor :=
  torch_load pitch w.

(** [get_audio]: the message of the [ValueError] has three fields and is
    given two arguments. *)
Definition get_audio (self : t) (filename : string) (w : World)
  : io_result (Tensor * Tensor) * World :=
  match load_wav_to_torch filename false w with
  | IoRaise e => (IoRaise e, w)
  | IoOk (audio, sampling_rate') =>
    if negb (sampling_rate' =? sampling_rate Scalar (hparams self)) then
      (raise_value_error "{} {} SR doesn't match target {} SR"
         [str_of_int sampling_rate';
          str_of_int (sampling_rate Scalar (hparams self))], w)
    else
      load_or_make_spec World Tensor Scalar path_exists torch_load torch_save
        spectrogram_torch tensor_div unsqueeze squeeze
        (hparams self) filename audio w
  end.

Definition get_text (text : string) (w : World) : io_result Tensor :=
  soft <~ np_load text w ;;
  FloatTensor soft.

(** [get_audio_text_pair]: the three fields are read first. *)
Definition get_audio_text_pair (self : t) (audiopath_and_text : list string)
    (w : World) : io_result (Tensor * Tensor * Tensor * Tensor) * World :=
  match field audiopath_and_text 0, field audiopath_and_text 1,
        field audiopath_and_text 2 with
  | IoOk audiopath, IoOk text, IoOk pitch =>
    match get_text text w with
    | IoRaise e => (IoRaise e, w)
    | IoOk text =>
      match get_audio self audiopath w with
      | (IoRaise e, w') => (IoRaise e, w')
      | (IoOk (spec, wav), w') =>
        match get_pitch pitch w' with
        | IoRaise e => (IoRaise e, w')
        | IoOk pitch => (IoOk (text, spec, wav, pitch), w')
        end
      end
    end
  | IoRaise e, _, _ => (IoRaise e, w)
  | _, IoRaise e, _ => (IoRaise e, w)
  | _, _, IoRaise e => (IoRaise e, w)
  end.

(** [__getitem__] for an index [index >= 0]. *)
Definition __getitem__ (self : t) (index : nat) (w : World)
  : io_result (Tensor * Tensor * Tensor * Tensor) * World :=
  match audiopaths_and_text self !! index with
  | None => (IoRaise (Py IndexError), w)
  | Some row => get_audio_text_pair self row w
  end.

Definition __len__ (self : t) : nat := length (audiopaths_and_text self).

End Methods.
End TextAudioLoader.

Module TextAudioSpeakerLoader.
Section Methods.

Variable World : Type.
Variable Tensor : Type.
Variable Scalar : Type.

Variable getsize : string → World → io_result Z.
Variable path_exists : string → World → bool.
Variable torch_load : string → World → io_result Tensor.
Variable torch_save : Tensor → string → World → option io_exn * World.
Variable load_wav_to_torch : string → bool → World → io_result (Tensor * Z).
Variable spectrogram_torch :
  Tensor → Z → Z → Z → Z → bool → io_result Tensor.
Variable tensor_div : Tensor → Scalar → Tensor.
Variable unsqueeze : Tensor → Z → Tensor.
Variable squeeze : Tensor → Z → Tensor.
Variable int_of_str : string → io_result Z.
Variable LongTensor : list Z → Tensor.

(** The loader after its constructor has read and shuffled the rows. *)
Record t : Type := mk {
  audiopaths_sid_text : list (list string);
  hparams : HParams Scalar;
  lengths : list Z
}.

(** [for audiopath, sid, text, pitch, _ in self.audiopaths_sid_text]: a
    row of any other number of fields cannot be unpacked. *)
Definition unpack (row : list string) : io_result string :=
  match row with
  | [audiopath; sid; text; pitch; _] => IoOk audiopath
  | _ => IoRaise (Py ValueError)
  end.

(** [_filter]: the loader with [self.lengths] set. *)
Definition _filter (self : t) (w : World) : io_result t :=
  lengths <~ filter_loop World Scalar getsize unpack (hparams self)
               (audiopaths_sid_text self) w [] ;;
  IoOk (mk (audiopaths_sid_text self) (hparams self) lengths).

(** [get_audio]: here the message is given its three arguments. *)
Definition get_audio (self : t) (filename : string) (w : World)
  : io_result (Tensor * Tensor) * World :=
  match load_wav_to_torch filename false w with
  | IoRaise e => (IoRaise e, w)
  | IoOk (audio, sampling_rate') =>
    if negb (sampling_rate' =? sampling_rate Scalar (hparams self)) then
      (raise_value_error "{} {} SR doesn't match target {} SR"
         [filename; str_of_int sampling_rate';
          str_of_int (sampling_rate Scalar (hparams self))], w)
    else
      load_or_make_spec World Tensor Scalar path_exists torch_load torch_save
        spectrogram_torch tensor_div unsqueeze squeeze
        (hparams self) filename audio w
  end.

Definition get_text (text : string) (w : World) : io_result Tensor :=
  torch_load text w.

Definition get_pitch (pitch : string) (w : World) : io_result Tensor :=
  torch_load pitch w.

Definition get_sid (sid : string) : io_result Tensor :=
  n <~ int_of_str sid ;;
  IoOk (LongTensor [n]).

(** [get_audio_text_speaker_pair]: the four fields are read first. *)
Definition get_audio_text_speaker_pair (self : t)
    (audiopath_sid_text : list string) (w : World)
  : io_result (Tensor * Tensor * Tensor * Tensor * Tensor) * World :=
  match field audiopath_sid_text 0, field audiopath_sid_text 1,
        field audiopath_sid_text 2, field audiopath_sid_text 3 with
  | IoOk audiopath, IoOk sid, IoOk text, IoOk pitch =>
    match get_text text w with
    | IoRaise e => (IoRaise e, w)
    | IoOk text =>
      match get_audio self audiopath w with
      | (IoRaise e, w') => (IoRaise e, w')
      | (IoOk (spec, wav), w') =>
        match get_sid sid with
        | IoRaise e => (IoRaise e, w')
        | IoOk sid =>
          match get_pitch pitch w' with
          | IoRaise e => (IoRaise e, w')
          | IoOk pitch => (IoOk (text, spec, wav, pitch, sid), w')
          end
        end
      end
    end
  | IoRaise e, _, _, _ => (IoRaise e, w)
  | _, IoRaise e, _, _ => (IoRaise e, w)
  | _, _, IoRaise e, _ => (IoRaise e, w)
  | _, _, _, IoRaise e => (IoRaise e, w)
  end.

(** [__getitem__] for an index [index >= 0]. *)
Definition __getitem__ (self : t) (index : nat) (w : World)
  : io_result (Tensor * Tensor * Tensor * Tensor * Tensor) * World :=
  match audiopaths_sid_text self !! index with
  | None => (IoRaise (Py IndexError), w)
  | Some row => get_audio_text_speaker_pair self row w
  end.

Definition __len__ (self : t) : nat := length (audiopaths_sid_text self).

End Methods.
End TextAudioSpeakerLoader.

(** ** A small world

    Files are either audio (samples and a sampling rate) or stored
    tensors; a tensor is a list of integers and the tensor operations are
    stand-ins. *)
Inductive file : Type :=
| AudioFile (samples : list Z) (rate : Z)
| TensorFile (t : list Z).

Definition toy_getsize (p : string) (w : gmap string file) : io_result Z :=
  match w !! p with
  | Some (AudioFile samples _) => IoOk (2 * Z.of_nat (length samples))
  | Some (TensorFile t) => IoOk (Z.of_nat (length t))
  | None => IoRaise OSError
  end.

Definition toy_exists (p : string) (w : gmap string file) : bool :=
  bool_decide (is_Some (w !! p)).

Definition toy_load (p : string) (w : gmap string file) : io_result (list Z) :=
  match w !! p with
  | Some (TensorFile t) => IoOk t
  | _ => IoRaise OSError
  end.

Definition toy_save (t : list Z) (p : string) (w : gmap string file)
  : option io_exn * gmap string file :=
  (None, <[p := TensorFile t]> w).

Definition toy_load_wav (p : string) (normalize : bool) (w : gmap string file)
  : io_result (list Z * Z) :=
  match w !! p with
  | Some (AudioFile samples rate) => IoOk (samples, rate)
  | _ => IoRaise OSError
  end.

Definition toy_spectrogram (audio : list Z) (n_fft rate hop win : Z)
    (center : bool) : io_result (list Z) :=
  IoOk (take (Z.to_nat (Z.of_nat (length audio) / hop)) audio).

Definition toy_div (t : list Z) (x : Z) : list Z := (λ a, a / x) <$> t.

Definition toy_reshape (t : list Z) (dim : Z) : list Z := t.

Definition toy_int (s : string) : io_result Z :=
  IoOk (Z.of_nat (String.length s)).

Definition toy_long (l : list Z) : list Z := l.

(** ** Specification vocabulary *)

(** [boundaries[i] < x <= boundaries[i + 1]]. *)
Definition in_interval (boundaries : list Z) (i : nat) (x : Z) : Prop :=
  ∃ a b, boundaries !! i = Some a ∧ boundaries !! S i = Some b ∧ a < x ≤ b.

(** [b0 < b1 < ... < bk], as a test. *)
Fixpoint strictly_increasing (l : list Z) : bool :=
  match l with
  | a :: l' =>
    match l' with
    | b :: _ => (a <? b) && strictly_increasing l'
    | [] => true
    end
  | [] => true
  end.

(** A bucket with at least one sample. *)
Definition nonempty (b : list nat) : Prop := b ≠ [].

(** [len_bucket + (T - len_bucket % T) % T]. *)
Definition pad_count (T n : nat) : nat := (n + (T - n mod T) mod T)%nat.

(** What [_create_buckets] leaves behind, for boundaries [bs] and sample
    lengths [ls]: the classified buckets [buckets0], the pruned buckets
    [buckets'] and the pruned boundary list [bs']. *)
Record created (bs : list Z) (ls : list Z)
    (buckets0 buckets' : list (list nat)) (bs' : list Z) : Prop := {
  created_classify :
    classify bs ls 0 (replicate (length bs - 1)%nat []) = Ok buckets0;
  created_length0 : length buckets0 = (length bs - 1)%nat;
  created_member : ∀ j b, buckets0 !! j = Some b →
    ∀ n, n ∈ b ↔ ∃ len, ls !! n = Some len ∧
                        bisect_default bs len = Ok (Z.of_nat j);
  created_prune :
    prune (range_down (length buckets0 - 1)) buckets0 bs = (Ok buckets', bs');
  created_length : length bs ≠ 0%nat → length bs' = S (length buckets');
  created_nil : length bs = 0%nat → buckets' = [] ∧ bs' = [];
  created_sub : sublist buckets' buckets0;
  created_sub_bs : sublist bs' bs;
  created_nonempty : Forall nonempty (drop 1 buckets');
  created_first : take 1 buckets' = take 1 buckets0;
  created_first_bs : take 2 bs' = take 2 bs
}.

(** The invariant of a sampler's counts: what [__init__] establishes and
    [set_epoch] and [__iter__] keep. *)
Record consistent (s : Sampler) : Prop := {
  consistent_counts :
    num_samples_per_bucket s =
      (λ b, pad_count (num_replicas s * batch_size s) (length b)) <$> buckets s;
  consistent_total : total_size s = sum_counts (num_samples_per_bucket s);
  consistent_num_samples : num_samples s = (total_size s / num_replicas s)%nat;
  consistent_replicas : num_replicas s ≠ 0%nat;
  consistent_batch : batch_size s ≠ 0%nat ∨ buckets s = []
}.

(** A sampler as [__init__] builds it from its arguments, at any epoch. *)
Record constructed (ls : list Z) (B : nat) (l : loc) (R rk : nat) (sh : bool)
    (buckets' : list (list nat)) (s : Sampler) : Prop := {
  constructed_lengths : lengths s = ls;
  constructed_batch_size : batch_size s = B;
  constructed_boundaries : boundaries s = l;
  constructed_num_replicas : num_replicas s = R;
  constructed_rank : rank s = rk;
  constructed_shuffle : shuffle s = sh;
  constructed_buckets : buckets s = buckets';
  constructed_consistent : consistent s
}.

(** [bucket[idx]] for a position known to be in range. *)
Definition pick (bucket : list nat) (idx : nat) : nat :=
  default 0%nat (bucket !! idx).

(** Rank [rank]'s part of a padded position list: every [R]-th entry
    from offset [rank]. *)
Definition shard (R rank : nat) (padded : list nat) : list nat :=
  strided (R - 1) rank padded.

(** The positions of a padded list of [n] entries that rank [rank] takes. *)
Definition shard_positions (R rank n : nat) : list nat :=
  strided (R - 1) rank (seq 0 n).

(** Consecutive chunks of [B] entries. *)
Definition chunks (B : nat) (l : list nat) : list (list nat) :=
  (λ j, slice l (j * B) ((j + 1) * B)) <$> seq 0 (length l / B).

(** The padded position list of a bucket with drawn positions [p]. *)
Definition padded_ids (R B : nat) (bucket p : list nat) : list nat :=
  pad_ids p (length bucket) (pad_count (R * B) (length bucket)).

(** The batches a rank takes from one bucket, and from all buckets in
    bucket order. *)
Definition plan_bucket (R rank B : nat) (bucket p : list nat) : list (list nat) :=
  (λ c : list nat, pick bucket <$> c)
    <$> chunks B (shard R rank (padded_ids R B bucket p)).

Definition plan (R rank B : nat) (buckets indices : list (list nat))
  : list (list nat) :=
  concat (zip_with (plan_bucket R rank B) buckets indices).

(** Each bucket's drawn positions are a permutation of its positions. *)
Definition valid_indices (buckets indices : list (list nat)) : Prop :=
  Forall2 (λ b p, p ≡ₚ seq 0 (length b)) buckets indices.

(** Every sample of the data set sits in bucket [i] exactly when its
    length lies in interval [i] of [bs]. *)
Definition placed_by_interval (ls : list Z) (buckets : list (list nat))
    (bs : list Z) : Prop :=
  ∀ n len, ls !! n = Some len →
    ∀ i, (∃ b, buckets !! i = Some b ∧ n ∈ b) ↔ in_interval bs i len.

(** The entries of a bucket grow from left to right. *)
Definition increasing (b : list nat) : Prop :=
  ∀ i j x y, (i < j)%nat → b !! i = Some x → b !! j = Some y → (x < y)%nat.

(** How often [k] occurs in [l]. *)
(** The seeds [torch.Generator.manual_seed] accepts: outside
    [-0x8000_0000_0000_0000, 0xffff_ffff_ffff_ffff] it raises. *)
Definition seed_accepted (seed : Z) : bool :=
  (- 2 ^ 63 <=? seed) && (seed <=? 2 ^ 64 - 1).

Definition occurrences (k : nat) (l : list nat) : nat :=
  length (filter (λ y, y = k) l).

(** [pat in s]. *)
Definition occurs (pat s : string) : Prop := ∃ a b, s = a +:+ pat +:+ b.

(** * Properties *)

(** ** The boundary intervals *)


Lemma strictly_increasing_cons a l :
  strictly_increasing (a :: l) = true →
  strictly_increasing l = true ∧ ∀ j b, l !! j = Some b → a < b.
Proof.
  revert a. induction l as [|b l IH]; intros a H.
  - split; [done | intros j c Hj; by rewrite lookup_nil in Hj].
  - cbn [strictly_increasing] in H. apply andb_prop in H as [Hab Hl].
    apply Z.ltb_lt in Hab. split; [exact Hl |].
    intros [|j] c Hj; simpl in Hj.
    + inversion Hj; subst; lia.
    + destruct (IH b Hl) as [_ Hb]. specialize (Hb j c Hj). lia.
Qed.

Lemma strictly_increasing_lookup l i j a b :
  strictly_increasing l = true → (i < j)%nat →
  l !! i = Some a → l !! j = Some b → a < b.
Proof.
  revert i j. induction l as [|c l IH]; intros i j Hs Hij Hi Hj.
  - by rewrite lookup_nil in Hi.
  - destruct (strictly_increasing_cons _ _ Hs) as [Hl Hc].
    destruct j as [|j]; [lia |]. simpl in Hj.
    destruct i as [|i]; simpl in Hi.
    + inversion Hi; subst. eauto.
    + eapply (IH i j); eauto. lia.
Qed.

Lemma strictly_increasing_le l i j a b :
  strictly_increasing l = true → (i ≤ j)%nat →
  l !! i = Some a → l !! j = Some b → a ≤ b.
Proof.
  intros Hs Hij Hi Hj. destruct (decide (i = j)) as [->|Hne].
  - rewrite Hi in Hj. inversion Hj. lia.
  - assert (a < b); [| lia].
    apply (strictly_increasing_lookup l i j a b); auto. lia.
Qed.

Lemma strictly_increasing_delete l i :
  strictly_increasing l = true → strictly_increasing (delete i l) = true.
Proof.
  revert i. induction l as [|a l IH]; intros i Hs; [done |].
  destruct (strictly_increasing_cons _ _ Hs) as [Hl Ha].
  destruct i as [|i]; [exact Hl |].
  change (delete (S i) (a :: l)) with (a :: delete i l).
  specialize (IH i Hl).
  destruct (delete i l) as [|b l'] eqn:Hd; [done |].
  cbn [strictly_increasing]. cbn [strictly_increasing] in IH.
  apply andb_true_intro. split; [| exact IH].
  apply Z.ltb_lt.
  assert (Hin : b ∈ delete i l) by (rewrite Hd; left).
  apply list_elem_of_lookup in Hin as [j Hj].
  assert (Hsub : delete i l ⊆ l) by apply sublist_subseteq, sublist_delete.
  assert (Hbl : b ∈ l) by (apply Hsub, list_elem_of_lookup; eauto).
  apply list_elem_of_lookup in Hbl as [j' Hj']. eauto.
Qed.

(** An interval holds at most one bucket position. *)
Lemma in_interval_unique bs i j x :
  strictly_increasing bs = true →
  in_interval bs i x → in_interval bs j x → i = j.
Proof.
  intros Hs (a & b & Ha & Hb & Hx) (c & d & Hc & Hd & Hy).
  destruct (lt_eq_lt_dec i j) as [[Hlt | ->] | Hlt]; [| done |]; exfalso.
  - assert (b ≤ c) by (eapply (strictly_increasing_le bs (S i) j); eauto; lia). lia.
  - assert (d ≤ a) by (eapply (strictly_increasing_le bs (S j) i); eauto; lia). lia.
Qed.

(** ** Indexing *)

Lemma norm_index_nonneg n i :
  0 ≤ i < Z.of_nat n → norm_index n i = Some (Z.to_nat i).
Proof.
  intros H. unfold norm_index.
  destruct (Z.ltb_spec i 0); [lia |].
  destruct (Z.ltb_spec i 0); [lia |].
  destruct (Z.leb_spec (Z.of_nat n) i); [lia | done].
Qed.

Lemma getitem_nonneg {A} (l : list A) i :
  0 ≤ i < Z.of_nat (length l) →
  ∃ a, l !! Z.to_nat i = Some a ∧ getitem l i = Ok a.
Proof.
  intros H. unfold getitem. rewrite norm_index_nonneg by done.
  destruct (lookup_lt_is_Some_2 l (Z.to_nat i)) as [a Ha]; [lia |].
  exists a. by rewrite Ha.
Qed.

(** ** [_bisect] *)

Lemma bisect_unfold bs x lo hi :
  _bisect bs x lo hi =
  if Z_lt_dec lo hi then
    let mid := (hi + lo) / 2 in
    bm <- getitem bs mid ;;
    if bm <? x then
      bm1 <- getitem bs (mid + 1) ;;
      if x <=? bm1 then Ok mid
      else if x <=? bm then _bisect bs x lo mid
      else _bisect bs x (mid + 1) hi
    else if x <=? bm then _bisect bs x lo mid
    else _bisect bs x (mid + 1) hi
  else Ok (-1).
Proof.
  rewrite _bisect_equation_1. by destruct (Z_lt_dec lo hi).
Qed.

Lemma bisect_mid lo hi : lo < hi → lo ≤ (hi + lo) / 2 < hi.
Proof.
  intros H. split; [apply Z.div_le_lower_bound | apply Z.div_lt_upper_bound]; lia.
Qed.

(** Within the bounds of the list the search raises nothing; an answer
    other than -1 is a position of the searched window whose interval
    holds [x]. *)
Lemma bisect_sound bs x (n : nat) : ∀ lo hi,
  Z.to_nat (hi - lo) = n →
  0 ≤ lo → lo ≤ hi → hi ≤ Z.of_nat (length bs) - 1 →
  ∃ r, _bisect bs x lo hi = Ok r ∧
       (r = -1 ∨ (lo ≤ r < hi ∧ in_interval bs (Z.to_nat r) x)).
Proof.
  induction (lt_wf n) as [n _ IH]. intros lo hi Hn Hlo Hle Hhi.
  rewrite bisect_unfold. destruct (Z_lt_dec lo hi) as [Hlt|]; [| eauto].
  pose proof (bisect_mid lo hi Hlt) as Hmid. cbv zeta.
  set (mid := (hi + lo) / 2) in *.
  destruct (getitem_nonneg bs mid) as (bm & Hbm & ->); [lia |].
  destruct (getitem_nonneg bs (mid + 1)) as (bm1 & Hbm1 & ->); [lia |].
  assert (HL : ∃ r, _bisect bs x lo mid = Ok r ∧
             (r = -1 ∨ (lo ≤ r < hi ∧ in_interval bs (Z.to_nat r) x))).
  { destruct (IH (Z.to_nat (mid - lo)) ltac:(lia) lo mid) as (r & Hr & Hc);
      [lia .. |]. exists r. split; [done |]. destruct Hc as [|[? ?]]; [by left |].
    right. split; [lia | done]. }
  assert (HR : ∃ r, _bisect bs x (mid + 1) hi = Ok r ∧
             (r = -1 ∨ (lo ≤ r < hi ∧ in_interval bs (Z.to_nat r) x))).
  { destruct (IH (Z.to_nat (hi - (mid + 1))) ltac:(lia) (mid + 1) hi)
      as (r & Hr & Hc); [lia .. |].
    exists r. split; [done |]. destruct Hc as [|[? ?]]; [by left |].
    right. split; [lia | done]. }
  simpl. destruct (Z.ltb_spec bm x) as [Hlt1|Hge1]; simpl.
  - destruct (Z.leb_spec x bm1) as [Hle1|Hgt1].
    + exists mid. split; [done |]. right. split; [lia |].
      exists bm, bm1. replace (S (Z.to_nat mid)) with (Z.to_nat (mid + 1)) by lia.
      repeat split; auto.
    + destruct (Z.leb_spec x bm); [exact HL | exact HR].
  - destruct (Z.leb_spec x bm); [exact HL | exact HR].
Qed.

(** Over strictly increasing boundaries the answer -1 means that no
    interval of the searched window holds [x]. *)
Lemma bisect_complete bs x (n : nat) : ∀ lo hi,
  Z.to_nat (hi - lo) = n →
  strictly_increasing bs = true →
  0 ≤ lo → lo ≤ hi → hi ≤ Z.of_nat (length bs) - 1 →
  _bisect bs x lo hi = Ok (-1) →
  ∀ i, lo ≤ Z.of_nat i < hi → ¬ in_interval bs i x.
Proof.
  induction (lt_wf n) as [n _ IH]. intros lo hi Hn Hs Hlo Hle Hhi.
  rewrite bisect_unfold. destruct (Z_lt_dec lo hi) as [Hlt|]; [| intros; lia].
  pose proof (bisect_mid lo hi Hlt) as Hmid. cbv zeta.
  set (mid := (hi + lo) / 2) in *.
  destruct (getitem_nonneg bs mid) as (bm & Hbm & ->); [lia |].
  destruct (getitem_nonneg bs (mid + 1)) as (bm1 & Hbm1 & ->); [lia |].
  replace (Z.to_nat (mid + 1)) with (S (Z.to_nat mid)) in Hbm1 by lia.
  assert (HL : x ≤ bm → _bisect bs x lo mid = Ok (-1) →
               ∀ i, lo ≤ Z.of_nat i < hi → ¬ in_interval bs i x).
  { intros Hx Hb i Hi (a & b & Ha & Hb' & Hab).
    destruct (Z_lt_dec (Z.of_nat i) mid) as [Him|Him].
    - assert (Hw : (Z.to_nat (mid - lo) < n)%nat) by lia.
      apply (λ H1 H2 H3 H4, IH _ Hw lo mid eq_refl Hs H1 H2 H3 Hb i H4);
        try lia.
      exists a, b; eauto.
    - assert (bm ≤ a)
        by (eapply (strictly_increasing_le bs (Z.to_nat mid) i); eauto; lia).
      lia. }
  assert (HR : bm1 < x → _bisect bs x (mid + 1) hi = Ok (-1) →
               ∀ i, lo ≤ Z.of_nat i < hi → ¬ in_interval bs i x).
  { intros Hx Hb i Hi (a & b & Ha & Hb' & Hab).
    destruct (Z_lt_dec mid (Z.of_nat i)) as [Him|Him].
    - assert (Hw : (Z.to_nat (hi - (mid + 1)) < n)%nat) by lia.
      apply (λ H1 H2 H3 H4, IH _ Hw (mid + 1) hi eq_refl Hs H1 H2 H3 Hb i H4);
        try lia.
      exists a, b; eauto.
    - assert (b ≤ bm1)
        by (eapply (strictly_increasing_le bs (S i) (S (Z.to_nat mid)));
            eauto; lia).
      lia. }
  assert (bm < bm1)
    by (eapply (strictly_increasing_lookup bs (Z.to_nat mid) (S (Z.to_nat mid)));
        eauto).
  simpl. destruct (Z.ltb_spec bm x) as [Hlt1|Hge1]; simpl.
  - destruct (Z.leb_spec x bm1) as [Hle1|Hgt1].
    + intros Heq. inversion Heq. lia.
    + destruct (Z.leb_spec x bm); [lia | by apply HR].
  - destruct (Z.leb_spec x bm); [by apply HL | lia].
Qed.

Lemma bisect_default_ok bs x :
  ∃ r, bisect_default bs x = Ok r ∧
       (r = -1 ∨ (0 ≤ r < Z.of_nat (length bs) - 1 ∧ in_interval bs (Z.to_nat r) x)).
Proof.
  unfold bisect_default. destruct bs as [|b bs].
  - rewrite bisect_unfold. simpl. eauto.
  - apply (bisect_sound (b :: bs) x _ 0 _ eq_refl); simpl length; lia.
Qed.

(** Over strictly increasing boundaries [_bisect(x)] names the interval
    of [x], and answers -1 exactly when there is none. *)
Lemma bisect_default_interval bs x i :
  strictly_increasing bs = true →
  bisect_default bs x = Ok (Z.of_nat i) ↔ in_interval bs i x.
Proof.
  intros Hs. destruct (bisect_default_ok bs x) as (r & Hr & Hc). split.
  - intros Hi. rewrite Hi in Hr. inversion Hr; subst r.
    destruct Hc as [|[_ Hin]]; [lia |]. by rewrite Nat2Z.id in Hin.
  - intros Hin. destruct Hc as [->|[Hrange Hin']].
    + exfalso. assert (Hlen : (S i < length bs)%nat).
      { destruct Hin as (a & b & _ & Hb & _). by apply lookup_lt_Some in Hb. }
      unfold bisect_default in Hr.
      apply (bisect_complete bs x _ 0 _ eq_refl Hs) with (i := i) in Hr;
        [done | lia ..].
    + rewrite Hr. f_equal.
      rewrite <- (in_interval_unique bs _ _ x Hs Hin' Hin). lia.
Qed.

(** ** Classification *)

Lemma append_at_ok buckets r i :
  0 ≤ r < Z.of_nat (length buckets) →
  append_at buckets r i = Ok (alter (λ b, b ++ [i]) (Z.to_nat r) buckets).
Proof. intros H. unfold append_at. by rewrite norm_index_nonneg. Qed.

(** The classification loop raises nothing, keeps the number of buckets,
    and appends to bucket [j] exactly the visited samples for which
    [_bisect] answers [j]. *)
Lemma classify_spec bs : ∀ rest i buckets,
  length buckets = (length bs - 1)%nat →
  ∃ buckets', classify bs rest i buckets = Ok buckets' ∧
    length buckets' = length buckets ∧
    ∀ j b', buckets' !! j = Some b' →
      ∃ b, buckets !! j = Some b ∧
        ∀ n, n ∈ b' ↔
          n ∈ b ∨ ∃ k len, n = (i + k)%nat ∧ rest !! k = Some len ∧
                           bisect_default bs len = Ok (Z.of_nat j).
Proof.
  induction rest as [|len rest IH]; intros i buckets Hlen.
  - exists buckets. split; [done |]. split; [done |]. intros j b' Hb'. exists b'.
    split; [done |]. intros n. split; [by left |].
    intros [H | (k & l & _ & Hk & _)]; [done | by rewrite lookup_nil in Hk].
  - cbn [classify]. destruct (bisect_default_ok bs len) as (r & Hr & Hc).
    rewrite Hr. cbn [bind]. destruct (Z.eqb_spec r (-1)) as [->|Hne].
    + destruct (IH (S i) buckets Hlen) as (buckets' & Hcl & Hl & Hspec).
      exists buckets'. split; [done |]. split; [done |]. intros j b' Hb'.
      destruct (Hspec j b' Hb') as (b & Hb & Hmem). exists b. split; [done |].
      intros n. rewrite Hmem. split.
      * intros [H | (k & l & -> & Hk & Hbis)]; [by left |].
        right. exists (S k), l. split_and!; [lia | done ..].
      * intros [H | (k & l & -> & Hk & Hbis)]; [by left |].
        destruct k as [|k]; simpl in Hk.
        -- inversion Hk; subst l. rewrite Hr in Hbis. inversion Hbis. lia.
        -- right. exists k, l. split_and!; [lia | done ..].
    + destruct Hc as [-> | [Hrange Hin]]; [done |].
      rewrite append_at_ok by lia. cbn [bind].
      set (buckets1 := alter (λ b, b ++ [i]) (Z.to_nat r) buckets).
      assert (Hlen1 : length buckets1 = (length bs - 1)%nat)
        by (unfold buckets1; rewrite length_alter; done).
      destruct (IH (S i) buckets1 Hlen1) as (buckets' & Hcl & Hl & Hspec).
      exists buckets'. split; [done |]. split; [lia |].
      intros j b' Hb'. destruct (Hspec j b' Hb') as (b1 & Hb1 & Hmem).
      unfold buckets1 in Hb1. destruct (decide (Z.to_nat r = j)) as [Hj|Hj].
      * subst j. rewrite list_lookup_alter_eq in Hb1.
        destruct (buckets !! Z.to_nat r) as [b|] eqn:Hb; [| done].
        simpl in Hb1. inversion Hb1; subst b1. exists b. split; [done |].
        intros n. rewrite Hmem, elem_of_app, list_elem_of_singleton. split.
        -- intros [[H | ->] | (k & l & -> & Hk & Hbis)]; [by left | |].
           ++ right. exists 0%nat, len. split_and!; [lia | done |].
              rewrite Hr. f_equal. lia.
           ++ right. exists (S k), l. split_and!; [lia | done ..].
        -- intros [H | (k & l & -> & Hk & Hbis)]; [by left; left |].
           destruct k as [|k]; simpl in Hk.
           ++ left; right. lia.
           ++ right. exists k, l. split_and!; [lia | done ..].
      * rewrite list_lookup_alter_ne in Hb1 by done.
        exists b1. split; [done |]. intros n. rewrite Hmem. split.
        -- intros [H | (k & l & -> & Hk & Hbis)]; [by left |].
           right. exists (S k), l. split_and!; [lia | done ..].
        -- intros [H | (k & l & -> & Hk & Hbis)]; [by left |].
           destruct k as [|k]; simpl in Hk.
           ++ inversion Hk; subst l. rewrite Hr in Hbis. inversion Hbis. lia.
           ++ right. exists k, l. split_and!; [lia | done ..].
Qed.

(** ** Pruning *)

Lemma range_down_S m : range_down (S m) = S m :: range_down m.
Proof. unfold range_down. by rewrite seq_S, rev_app_distr. Qed.

Lemma drop_delete_here {A} (l : list A) i : drop i (delete i l) = drop (S i) l.
Proof.
  revert i. induction l as [|a l IH]; intros [|i]; simpl; done.
Qed.

Lemma take_delete_above {A} (l : list A) i k :
  (k ≤ i)%nat → take k (delete i l) = take k l.
Proof.
  revert i k. induction l as [|a l IH]; intros [|i] [|k] H; simpl; try done; try lia.
  f_equal. apply IH. lia.
Qed.

(** The pruning loop over [m, m - 1, ..., 1] raises nothing when the
    boundary list is one longer than the bucket list; it keeps the lists
    in step, only deletes, leaves bucket 0 and the first two boundaries
    alone, and leaves no empty bucket at a position from 1 on. *)
Lemma prune_spec : ∀ m buckets bs,
  (m < length buckets)%nat →
  length bs = S (length buckets) →
  Forall nonempty (drop (S m) buckets) →
  ∃ buckets' bs',
    prune (range_down m) buckets bs = (Ok buckets', bs') ∧
    length bs' = S (length buckets') ∧
    sublist buckets' buckets ∧ sublist bs' bs ∧
    Forall nonempty (drop 1 buckets') ∧
    take 1 buckets' = take 1 buckets ∧ take 2 bs' = take 2 bs.
Proof.
  induction m as [|m IH]; intros buckets bs Hm Hlen Hne.
  - exists buckets, bs. by split_and!.
  - rewrite range_down_S. cbn [prune]. unfold getpos.
    destruct (lookup_lt_is_Some_2 buckets (S m) Hm) as [bucket Hb]. rewrite Hb.
    destruct (Nat.eqb_spec (length bucket) 0) as [Hemp|Hnemp].
    + unfold pop.
      destruct (Nat.ltb_spec (S m) (length buckets)) as [_|]; [| lia].
      destruct (Nat.ltb_spec (S m + 1) (length bs)) as [_|]; [| lia].
      assert (Hl1 : length (delete (S m) buckets) = (length buckets - 1)%nat)
        by (rewrite length_delete; eauto).
      assert (Hl2 : length (delete (S m + 1)%nat bs) = (length bs - 1)%nat).
      { destruct (lookup_lt_is_Some_2 bs (S m + 1)) as [c Hc]; [lia |].
        rewrite length_delete; eauto. }
      destruct (IH (delete (S m) buckets) (delete (S m + 1)%nat bs))
        as (buckets' & bs' & Hp & Hl & Hsb & Hsbs & Hf & Ht1 & Ht2).
      { lia. }
      { lia. }
      { by rewrite drop_delete_here. }
      exists buckets', bs'. split_and!; try done.
      * etrans; [exact Hsb | apply sublist_delete].
      * etrans; [exact Hsbs | apply sublist_delete].
      * rewrite Ht1. apply take_delete_above. lia.
      * rewrite Ht2. apply take_delete_above. lia.
    + destruct (IH buckets bs)
        as (buckets' & bs' & Hp & Hl & Hsb & Hsbs & Hf & Ht1 & Ht2);
        [lia | done | |].
      { rewrite (drop_S _ _ _ Hb). constructor; [| done].
        intros ->. by apply Hnemp. }
      exists buckets', bs'. by split_and!.
Qed.

(** ** Padded counts *)

Lemma pad_counts_spec R B buckets :
  (R * B ≠ 0)%nat →
  pad_counts R B buckets = Ok ((λ b, pad_count (R * B) (length b)) <$> buckets).
Proof.
  intros HT. induction buckets as [|b buckets IH]; [done |].
  rewrite fmap_cons. cbn [pad_counts]. unfold py_mod.
  destruct (Nat.eqb_spec (R * B) 0); [done |]. cbn [bind]. by rewrite IH.
Qed.

Lemma pad_counts_zero R B buckets :
  (R * B = 0)%nat → buckets ≠ [] →
  pad_counts R B buckets = Raise ZeroDivisionError.
Proof.
  intros HT Hne. destruct buckets as [|b buckets]; [done |].
  cbn [pad_counts]. unfold py_mod. by rewrite HT.
Qed.

Lemma pad_count_multiple T n : (T ≠ 0)%nat → (pad_count T n mod T = 0)%nat.
Proof.
  intros HT. unfold pad_count.
  pose proof (Nat.mod_upper_bound n T HT) as Hlt.
  pose proof (Nat.div_mod_eq n T) as Hdm.
  destruct (decide (n mod T = 0)%nat) as [Hz|Hnz].
  - rewrite Hz, Nat.sub_0_r, Nat.Div0.mod_same, Nat.add_0_r. exact Hz.
  - rewrite (Nat.mod_small (T - n mod T) T) by lia.
    replace (n + (T - n mod T))%nat with ((n / T + 1) * T)%nat by nia.
    apply Nat.Div0.mod_mul.
Qed.

Lemma pad_count_0 T : pad_count T 0 = 0%nat.
Proof.
  unfold pad_count. rewrite Nat.Div0.mod_0_l, Nat.sub_0_r.
  by rewrite Nat.Div0.mod_same.
Qed.

Lemma pad_count_ge T n : (n ≤ pad_count T n)%nat.
Proof. unfold pad_count. lia. Qed.

(** ** [_create_buckets] and [__init__] *)

Lemma create_buckets_spec bs ls R B :
  ∃ buckets0 buckets' bs',
    created bs ls buckets0 buckets' bs' ∧
    _create_buckets bs ls R B =
      (counts <- pad_counts R B buckets' ;; Ok (buckets', counts), bs').
Proof.
  destruct (classify_spec bs ls 0 (replicate (length bs - 1)%nat []))
    as (buckets0 & Hcl & Hl0 & Hmem); [by rewrite length_replicate |].
  rewrite length_replicate in Hl0.
  assert (Hmember : ∀ j b, buckets0 !! j = Some b →
    ∀ n, n ∈ b ↔ ∃ len, ls !! n = Some len ∧
                        bisect_default bs len = Ok (Z.of_nat j)).
  { intros j b Hb n. destruct (Hmem j b Hb) as (b0 & Hb0 & Hiff).
    apply lookup_replicate in Hb0 as [-> _]. rewrite Hiff. split.
    - intros [H | (k & len & -> & Hk & Hbis)]; [by apply elem_of_nil in H |].
      eauto.
    - intros (len & Hn & Hbis). right. exists n, len. by split_and!. }
  assert (Hprune : ∃ buckets' bs',
    prune (range_down (length buckets0 - 1)) buckets0 bs = (Ok buckets', bs') ∧
    (length bs ≠ 0%nat → length bs' = S (length buckets')) ∧
    (length bs = 0%nat → buckets' = [] ∧ bs' = []) ∧
    sublist buckets' buckets0 ∧ sublist bs' bs ∧
    Forall nonempty (drop 1 buckets') ∧
    take 1 buckets' = take 1 buckets0 ∧ take 2 bs' = take 2 bs).
  { destruct (decide (length buckets0 = 0)%nat) as [Hz|Hnz].
    - apply nil_length_inv in Hz. subst buckets0.
      exists [], bs. simpl. split_and!; try done.
      + simpl in Hl0. lia.
      + intros H. by apply nil_length_inv in H.
    - destruct (prune_spec (length buckets0 - 1) buckets0 bs)
        as (buckets' & bs' & Hp & Hl & Hsb & Hsbs & Hf & Ht1 & Ht2).
      + lia.
      + lia.
      + replace (S (length buckets0 - 1)) with (length buckets0) by lia.
        rewrite drop_ge by done. constructor.
      + exists buckets', bs'. split_and!; try done. lia. }
  destruct Hprune as (buckets' & bs' & Hp & Hl & Hnil & Hsb & Hsbs & Hf & Ht1 & Ht2).
  exists buckets0, buckets', bs'. split; [by constructor |].
  unfold _create_buckets. rewrite Hcl. by rewrite Hp.
Qed.

Lemma init_inv h ls B l R rk sh s h' :
  __init__ h ls B l R rk sh = (Ok s, h') →
  ∃ buckets0 buckets' bs',
    created (deref h l) ls buckets0 buckets' bs' ∧
    constructed ls B l R rk sh buckets' s ∧
    h' = <[l := bs']> h.
Proof.
  unfold __init__. destruct (base_init R rk) as [[]|]; [| done].
  destruct (create_buckets_spec (deref h l) ls R B)
    as (buckets0 & buckets' & bs' & Hcr & ->).
  destruct (decide (R * B = 0)%nat) as [HT|HT].
  - destruct (decide (buckets' = [])) as [->|Hb].
    + cbn [pad_counts bind sum_counts foldr]. unfold py_div.
      destruct (Nat.eqb_spec R 0) as [HR|HR]; [done |].
      intros Heq. inversion Heq; subst. exists buckets0, [], bs'.
      split_and!; try done. do 2 (constructor; try done). by right.
    + rewrite pad_counts_zero by done. done.
  - rewrite pad_counts_spec by done. cbn [bind]. unfold py_div.
    destruct (Nat.eqb_spec R 0) as [HR|HR]; [done |].
    intros Heq. inversion Heq; subst. exists buckets0, buckets', bs'.
    split_and!; try done. do 2 (constructor; try done). simpl. left. lia.
Qed.

Lemma base_init_ok R rk : (rk < R)%nat → base_init R rk = Ok tt.
Proof.
  intros H. unfold base_init. by destruct (Nat.leb_spec R rk); [lia |].
Qed.

Lemma base_init_raise R rk :
  (R ≤ rk)%nat → base_init R rk = Raise ValueError.
Proof.
  intros H. unfold base_init. by destruct (Nat.leb_spec R rk); [| lia].
Qed.

Lemma init_rank h ls B l R rk sh s h' :
  __init__ h ls B l R rk sh = (Ok s, h') → (rk < R)%nat.
Proof.
  unfold __init__, base_init. by destruct (Nat.leb_spec R rk).
Qed.

(** With [rank < num_replicas] and [batch_size >= 1] construction raises
    nothing, whatever the boundaries and the sample lengths are. *)
Lemma init_ok h ls B l R rk sh :
  (rk < R)%nat → (B ≠ 0)%nat → ∃ s h', __init__ h ls B l R rk sh = (Ok s, h').
Proof.
  intros Hrk HB. assert (HT : (R * B ≠ 0)%nat) by nia.
  unfold __init__. rewrite base_init_ok by done.
  destruct (create_buckets_spec (deref h l) ls R B)
    as (buckets0 & buckets' & bs' & Hcr & ->).
  rewrite pad_counts_spec by done. cbn [bind]. unfold py_div.
  destruct (Nat.eqb_spec R 0) as [HR|HR]; [lia |]. eauto.
Qed.

(** ** Lists: strides, tiles, chunks *)

Lemma strided_lookup {A} (l : list A) k : ∀ r j,
  strided k r l !! j = l !! (r + j * S k)%nat.
Proof.
  induction l as [|a l IH]; intros r j; [by rewrite !lookup_nil |].
  destruct r as [|r]; cbn [strided].
  - destruct j as [|j]; [done |].
    cbn [lookup list_lookup]. rewrite IH.
    replace (0 + S j * S k)%nat with (S (k + j * S k)) by lia. done.
  - rewrite IH. done.
Qed.

Lemma length_by_lookup {A} (l : list A) m :
  (∀ j, is_Some (l !! j) ↔ (j < m)%nat) → length l = m.
Proof.
  intros H. destruct (lt_eq_lt_dec (length l) m) as [[Hlt|Heq]|Hgt]; [| done |].
  - apply H, lookup_lt_is_Some in Hlt. lia.
  - apply lookup_lt_is_Some, H in Hgt. lia.
Qed.

Lemma strided_length {A} (l : list A) k r m :
  length l = (m * S k)%nat → (r ≤ k)%nat → length (strided k r l) = m.
Proof.
  intros Hl Hr. apply length_by_lookup. intros j.
  rewrite strided_lookup, lookup_lt_is_Some, Hl. nia.
Qed.

Lemma strided_fmap {A B} (f : A → B) (l : list A) k : ∀ r,
  strided k r (f <$> l) = f <$> strided k r l.
Proof.
  induction l as [|a l IH]; intros r; [done |].
  rewrite fmap_cons. destruct r as [|r]; cbn [strided].
  - by rewrite fmap_cons, IH.
  - apply IH.
Qed.

Lemma strided_elem_of {A} (l : list A) k r a :
  a ∈ strided k r l → a ∈ l.
Proof.
  intros H. apply list_elem_of_lookup in H as [j Hj].
  rewrite strided_lookup in Hj. apply list_elem_of_lookup. eauto.
Qed.

(** The strides at offsets [0 .. k] together hold every entry once. *)
Lemma strided_partition {A} (l : list A) k :
  concat ((λ r, strided k r l) <$> seq 0 (S k)) ≡ₚ l.
Proof.
  induction l as [|a l IH].
  - induction (seq 0 (S k)) as [|r rs IHr]; [done |].
    rewrite fmap_cons. simpl. exact IHr.
  - rewrite <- cons_seq, fmap_cons. cbn [concat strided].
    rewrite <- fmap_S_seq, <- list_fmap_compose.
    rewrite seq_S, fmap_app, concat_app in IH. simpl in IH.
    rewrite app_nil_r in IH.
    simpl. constructor. etrans; [| exact IH].
    apply Permutation_app_comm.
Qed.

Lemma repeat_list_length {A} (l : list A) n :
  length (repeat_list l n) = (n * length l)%nat.
Proof.
  unfold repeat_list. induction n as [|n IH]; [done |].
  simpl. rewrite length_app, IH. done.
Qed.

Lemma tile_lookup {A} (p : list A) m : ∀ k q,
  length p ≠ 0%nat → (m ≤ length p)%nat → (q < k * length p + m)%nat →
  (repeat_list p k ++ take m p) !! q = p !! (q mod length p)%nat.
Proof.
  induction k as [|k IH]; intros q HL Hm Hq.
  - simpl. simpl in Hq. rewrite lookup_take_lt by done.
    by rewrite Nat.mod_small by lia.
  - unfold repeat_list. simpl. fold (repeat_list p k). rewrite <- app_assoc.
    destruct (decide (q < length p)%nat) as [Hlt|Hge].
    + rewrite lookup_app_l by done. by rewrite Nat.mod_small.
    + rewrite lookup_app_r by lia. rewrite IH by (try done; lia).
      f_equal. replace q with ((q - length p) + 1 * length p)%nat at 2 by lia.
      by rewrite Nat.Div0.mod_add.
Qed.

(** The padded list has [nsb] entries and tiles [p] from its start. *)
Lemma pad_ids_spec (p : list nat) L nsb :
  length p = L → L ≠ 0%nat → (L ≤ nsb)%nat →
  length (pad_ids p L nsb) = nsb ∧
  ∀ q, (q < nsb)%nat → pad_ids p L nsb !! q = p !! (q mod L)%nat.
Proof.
  intros Hp HL Hle. unfold pad_ids.
  replace (Z.of_nat nsb - Z.of_nat L) with (Z.of_nat (nsb - L)) by lia.
  rewrite <- Nat2Z.inj_div, <- Nat2Z.inj_mod, !Nat2Z.id.
  pose proof (Nat.div_mod_eq (nsb - L) L) as Hdm.
  pose proof (Nat.mod_upper_bound (nsb - L) L HL) as Hlt.
  assert (Heq : p ++ repeat_list p ((nsb - L) / L) ++ take ((nsb - L) mod L) p
          = repeat_list p (S ((nsb - L) / L)) ++ take ((nsb - L) mod L) p).
  { unfold repeat_list. simpl. by rewrite <- app_assoc. }
  rewrite Heq. split.
  - rewrite length_app, repeat_list_length, length_take_le by lia. nia.
  - intros q Hq. subst L. apply tile_lookup; [done | lia | nia].
Qed.

Lemma slice_length {A} (l : list A) a b :
  (a ≤ b)%nat → (b ≤ length l)%nat → length (slice l a b) = (b - a)%nat.
Proof.
  intros Hab Hb. unfold slice. rewrite length_take_le; [done |].
  rewrite length_drop. lia.
Qed.

Lemma chunks_concat_take (l : list nat) B : ∀ n,
  concat ((λ j, slice l (j * B) ((j + 1) * B)) <$> seq 0 n) = take (n * B) l.
Proof.
  induction n as [|n IH]; [done |].
  rewrite seq_S, fmap_app, concat_app, IH. simpl. rewrite app_nil_r.
  unfold slice. replace ((n + 1) * B - n * B)%nat with B by lia.
  rewrite take_take_drop. f_equal. lia.
Qed.

Lemma chunks_concat (l : list nat) B m :
  length l = (m * B)%nat → B ≠ 0%nat → concat (chunks B l) = l.
Proof.
  intros Hl HB. unfold chunks. rewrite chunks_concat_take.
  rewrite Hl, Nat.div_mul by done. apply take_ge. lia.
Qed.

Lemma chunks_length (l : list nat) B m :
  length l = (m * B)%nat → B ≠ 0%nat → length (chunks B l) = m.
Proof.
  intros Hl HB. unfold chunks.
  by rewrite length_fmap, length_seq, Hl, Nat.div_mul.
Qed.

Lemma chunks_elem_length (l : list nat) B c :
  c ∈ chunks B l → length c = B.
Proof.
  unfold chunks. intros H. apply list_elem_of_fmap in H as (j & -> & Hj).
  apply elem_of_seq in Hj. destruct (decide (B = 0)%nat) as [->|HB].
  - unfold slice. rewrite !Nat.mul_0_r. done.
  - rewrite slice_length; [lia | lia |].
    pose proof (Nat.Div0.mul_div_le (length l) B). nia.
Qed.

Lemma chunks_elem_sub (l : list nat) B c n :
  c ∈ chunks B l → n ∈ c → n ∈ l.
Proof.
  unfold chunks. intros H Hn. apply list_elem_of_fmap in H as (j & -> & Hj).
  unfold slice in Hn. by apply subseteq_take, subseteq_drop in Hn.
Qed.

Lemma elem_of_concat {A} (x : A) (ls : list (list A)) :
  x ∈ concat ls ↔ ∃ l, l ∈ ls ∧ x ∈ l.
Proof.
  induction ls as [|a ls IH]; simpl.
  - split; [intros H; by apply elem_of_nil in H |].
    intros (l & H & _). by apply elem_of_nil in H.
  - rewrite elem_of_app, IH. split.
    + intros [H | (l & Hl & Hx)].
      * exists a. split; [left | done].
      * exists l. split; [by right | done].
    + intros (l & Hl & Hx). apply elem_of_cons in Hl as [->|Hl]; [by left |].
      right. eauto.
Qed.

(** ** Rearranging concatenations *)

Lemma concat_perm {A} (l1 l2 : list (list A)) :
  l1 ≡ₚ l2 → concat l1 ≡ₚ concat l2.
Proof.
  induction 1 as [|x l1 l2 _ IH|x y l|l1 l2 l3 _ IH1 _ IH2]; simpl.
  - done.
  - by rewrite IH.
  - rewrite !app_assoc. by rewrite (Permutation_app_comm y x).
  - by etrans.
Qed.

Lemma concat_fmap_perm {A C} (f g : C → list A) (rs : list C) :
  (∀ r, r ∈ rs → f r ≡ₚ g r) → concat (f <$> rs) ≡ₚ concat (g <$> rs).
Proof.
  induction rs as [|r rs IH]; intros H; [done |].
  rewrite !fmap_cons. simpl. rewrite (H r) by left.
  rewrite IH; [done |]. intros r' Hr'. apply H. by right.
Qed.

Lemma concat_fmap_app {A C} (f g : C → list A) (rs : list C) :
  concat ((λ r, f r ++ g r) <$> rs) ≡ₚ concat (f <$> rs) ++ concat (g <$> rs).
Proof.
  induction rs as [|r rs IH]; [done |].
  rewrite !fmap_cons. simpl. rewrite IH.
  rewrite <- !app_assoc. apply Permutation_app_head.
  rewrite !app_assoc. apply Permutation_app_tail, Permutation_app_comm.
Qed.

Lemma concat_fmap_nil {A C} (rs : list C) :
  concat ((λ _, [] : list A) <$> rs) = [].
Proof. induction rs as [|r rs IH]; [done |]. by rewrite fmap_cons. Qed.

(** Collecting per rank and then per bucket, or per bucket and then per
    rank, gives the same entries. *)
Lemma concat_zip_swap {A C} (f : C → list nat → list nat → list A)
    (rs : list C) : ∀ bs ps,
  concat ((λ r, concat (zip_with (f r) bs ps)) <$> rs)
  ≡ₚ concat (zip_with (λ b p, concat ((λ r, f r b p) <$> rs)) bs ps).
Proof.
  induction bs as [|b bs IH]; intros ps.
  - simpl. by rewrite concat_fmap_nil.
  - destruct ps as [|p ps].
    + simpl. by rewrite concat_fmap_nil.
    + simpl. rewrite <- IH.
      apply (concat_fmap_app (λ r, f r b p)
               (λ r, concat (zip_with (f r) bs ps))).
Qed.

Lemma concat_zip_perm {A} (F G : list nat → list nat → list A) : ∀ bs ps,
  (∀ b p, F b p ≡ₚ G b p) →
  concat (zip_with F bs ps) ≡ₚ concat (zip_with G bs ps).
Proof.
  induction bs as [|b bs IH]; intros ps H; [done |].
  destruct ps as [|p ps]; [done |]. simpl. by rewrite (H b p), IH.
Qed.

Lemma concat_length_uniform {A} (ls : list (list A)) n :
  (∀ l, l ∈ ls → length l = n) → length (concat ls) = (length ls * n)%nat.
Proof.
  induction ls as [|l ls IH]; intros H; [done |].
  simpl. rewrite length_app, (H l) by left.
  rewrite IH; [done |]. intros l' Hl'. apply H. by right.
Qed.

(** ** The positions of a shard *)

Lemma shard_by_positions (R r : nat) (padded : list nat) :
  shard R r padded = pick padded <$> shard_positions R r (length padded).
Proof.
  unfold shard, shard_positions. rewrite <- strided_fmap. f_equal.
  apply list_eq. intros i. rewrite list_lookup_fmap.
  destruct (decide (i < length padded)%nat) as [Hlt|Hge].
  - rewrite lookup_seq_lt by done. simpl. unfold pick.
    destruct (lookup_lt_is_Some_2 padded i Hlt) as [a Ha]. by rewrite Ha.
  - rewrite lookup_seq_ge by lia. simpl. apply lookup_ge_None. lia.
Qed.

Lemma shard_positions_mod (R r n q : nat) :
  (r < R)%nat → q ∈ shard_positions R r n → (q < n)%nat ∧ (q mod R = r)%nat.
Proof.
  intros Hr Hq. unfold shard_positions in Hq.
  apply list_elem_of_lookup in Hq as [j Hj].
  rewrite strided_lookup in Hj. apply lookup_seq in Hj as [-> Hlt].
  replace (S (R - 1)) with R in * by lia. split; [simpl; lia |].
  simpl. rewrite Nat.Div0.mod_add. by apply Nat.mod_small.
Qed.

(** ** Comprehensions that may raise *)

Lemma mapM_ok {A B} (f : A → result B) (g : A → B) (l : list A) :
  (∀ a, a ∈ l → f a = Ok (g a)) → mapM f l = Ok (g <$> l).
Proof.
  induction l as [|a l IH]; intros H; [done |].
  cbn [mapM]. rewrite (H a) by left. cbn [bind].
  rewrite IH; [done |]. intros a' Ha'. apply H. by right.
Qed.

Lemma mapM_elem {A B} (f : A → result B) (l : list A) : ∀ l' b,
  mapM f l = Ok l' → b ∈ l' → ∃ a, a ∈ l ∧ f a = Ok b.
Proof.
  induction l as [|a l IH]; intros l' b Hm Hb.
  - inversion Hm; subst. by apply elem_of_nil in Hb.
  - cbn [mapM] in Hm. destruct (f a) as [b0|] eqn:Hfa; [| done].
    cbn [bind] in Hm. destruct (mapM f l) as [bs|] eqn:Hl; [| done].
    inversion Hm; subst. apply elem_of_cons in Hb as [->|Hb].
    + exists a. split; [left | done].
    + destruct (IH bs b eq_refl Hb) as (a' & Ha' & Hf).
      exists a'. split; [by right | done].
Qed.

Lemma getpos_pick (bucket : list nat) idx :
  (idx < length bucket)%nat → getpos bucket idx = Ok (pick bucket idx).
Proof.
  intros H. unfold getpos, pick.
  destruct (lookup_lt_is_Some_2 bucket idx H) as [a Ha]. by rewrite Ha.
Qed.

Lemma getpos_elem_of {A} (l : list A) i a : getpos l i = Ok a → a ∈ l.
Proof.
  unfold getpos. destruct (l !! i) as [a'|] eqn:H; [| done].
  intros Heq. inversion Heq; subst. apply list_elem_of_lookup. eauto.
Qed.

Lemma pick_elem_of (bucket : list nat) idx :
  (idx < length bucket)%nat → pick bucket idx ∈ bucket.
Proof.
  intros H. unfold pick.
  destruct (lookup_lt_is_Some_2 bucket idx H) as [a Ha]. rewrite Ha.
  apply list_elem_of_lookup. eauto.
Qed.

Lemma perm_seq_lt (p : list nat) L a : p ≡ₚ seq 0 L → a ∈ p → (a < L)%nat.
Proof. intros Hp Ha. rewrite Hp in Ha. apply elem_of_seq in Ha. lia. Qed.

Lemma perm_seq_length (p : list nat) L : p ≡ₚ seq 0 L → length p = L.
Proof. intros Hp. by rewrite Hp, length_seq. Qed.

(** A permutation of [0 .. len(l) - 1] used as an index list reorders [l]. *)
Lemma mapM_getpos_perm {A} (l : list A) (ids : list nat) :
  ids ≡ₚ seq 0 (length l) →
  ∃ l', mapM (getpos l) ids = Ok l' ∧ l' ≡ₚ l.
Proof.
  intros Hp. destruct l as [|d l0] eqn:Hl.
  - apply Permutation_nil_r in Hp. subst ids. by exists [].
  - rewrite <- Hl in *. clear Hl l0.
    set (g := λ i, default d (l !! i)).
    exists (g <$> ids). split.
    + apply mapM_ok. intros i Hi. rewrite Hp in Hi. apply elem_of_seq in Hi.
      unfold getpos, g.
      destruct (lookup_lt_is_Some_2 l i) as [a Ha]; [lia |]. by rewrite Ha.
    + rewrite Hp. replace (g <$> seq 0 (length l)) with l; [done |].
      apply list_eq. intros i. rewrite list_lookup_fmap.
      destruct (decide (i < length l)%nat) as [Hlt|Hge].
      * rewrite lookup_seq_lt by done. simpl. unfold g.
        destruct (lookup_lt_is_Some_2 l i Hlt) as [a Ha]. by rewrite Ha.
      * rewrite lookup_seq_ge by lia. simpl. apply lookup_ge_None. lia.
Qed.

(** ** One bucket *)

Lemma pad_ids_elem_of (p : list nat) L nsb a : a ∈ pad_ids p L nsb → a ∈ p.
Proof.
  unfold pad_ids, repeat_list. rewrite !elem_of_app.
  intros [H | [H | H]]; [done | |].
  - apply elem_of_concat in H as (c & Hc & Ha).
    apply elem_of_replicate in Hc as [-> _]. done.
  - by apply subseteq_take in H.
Qed.

Lemma pad_count_spec T n :
  T ≠ 0%nat → ∃ c, pad_count T n = (c * T)%nat.
Proof.
  intros HT. pose proof (pad_count_multiple T n HT) as Hm.
  exists (pad_count T n / T)%nat.
  pose proof (Nat.div_mod_eq (pad_count T n) T). lia.
Qed.

(** For a non-empty bucket whose drawn positions are a permutation of its
    positions the loop body raises nothing and yields [plan_bucket]. *)
Lemma bucket_batches_spec R rank B (b p : list nat) :
  R ≠ 0%nat → B ≠ 0%nat → p ≡ₚ seq 0 (length b) →
  bucket_batches R rank B b p (pad_count (R * B) (length b))
  = Ok (plan_bucket R rank B b p).
Proof.
  intros HR HB Hp. unfold bucket_batches, plan_bucket, padded_ids, shard.
  destruct R as [|k]; [done |]. cbn [slice_step bind].
  replace (S k - 1)%nat with k by lia.
  set (ids := strided k rank (pad_ids p (length b) (pad_count (S k * B) (length b)))).
  unfold py_div. destruct (Nat.eqb_spec B 0); [done |]. cbn [bind].
  unfold chunks. rewrite <- list_fmap_compose.
  apply mapM_ok. intros j _. unfold make_batch, compose.
  apply mapM_ok. intros idx Hidx. apply getpos_pick.
  apply (perm_seq_lt p); [done |].
  unfold slice in Hidx. apply subseteq_take, subseteq_drop in Hidx.
  apply strided_elem_of in Hidx. by apply pad_ids_elem_of in Hidx.
Qed.

Lemma plan_bucket_nil R rank B p : p ≡ₚ seq 0 0 → plan_bucket R rank B [] p = [].
Proof.
  intros Hp. apply Permutation_nil_r in Hp. subst p.
  unfold plan_bucket, padded_ids, pad_ids, repeat_list.
  assert (Hc : ∀ n, concat (replicate n ([] : list nat)) = [])
    by (induction n; done).
  rewrite Hc, take_nil. simpl. unfold shard. cbn [strided].
  unfold chunks. simpl. by rewrite Nat.Div0.div_0_l.
Qed.

(** The shard of a padded list of [c * R * B] entries has [c * B]. *)
Lemma shard_length R rank B (b p : list nat) c :
  (rank < R)%nat → b ≠ [] → length p = length b →
  pad_count (R * B) (length b) = (c * (R * B))%nat →
  length (shard R rank (padded_ids R B b p)) = (c * B)%nat.
Proof.
  intros Hr Hb Hp Hc. unfold shard, padded_ids.
  destruct R as [|k]; [lia |]. replace (S k - 1)%nat with k by lia.
  apply strided_length; [| lia].
  assert (HL : length b ≠ 0%nat) by (by destruct b).
  destruct (pad_ids_spec p (length b) (pad_count (S k * B) (length b)))
    as [Hlen _]; [done | done | apply pad_count_ge |].
  rewrite Hlen, Hc. lia.
Qed.

Lemma plan_bucket_length R rank B (b p : list nat) c :
  (rank < R)%nat → B ≠ 0%nat → p ≡ₚ seq 0 (length b) →
  pad_count (R * B) (length b) = (c * (R * B))%nat →
  length (plan_bucket R rank B b p) = c.
Proof.
  intros Hr HB Hp Hc. destruct (decide (b = [])) as [->|Hb].
  - rewrite plan_bucket_nil by done. simpl length in Hc.
    rewrite pad_count_0 in Hc. simpl.
    symmetry in Hc. apply Nat.eq_mul_0 in Hc as [Hc | Hc]; [done |].
    apply Nat.eq_mul_0 in Hc. lia.
  - unfold plan_bucket. rewrite length_fmap.
    apply chunks_length; [| done].
    apply shard_length; [done | done | by apply perm_seq_length | done].
Qed.

(** Every batch of a bucket has [B] entries, all of them samples of the
    bucket. *)
Lemma plan_bucket_batch R rank B (b p batch : list nat) :
  p ≡ₚ seq 0 (length b) → batch ∈ plan_bucket R rank B b p →
  length batch = B ∧ ∀ n, n ∈ batch → n ∈ b.
Proof.
  intros Hp Hin. unfold plan_bucket in Hin.
  apply list_elem_of_fmap in Hin as (c & -> & Hc). split.
  - rewrite length_fmap. by apply chunks_elem_length in Hc.
  - intros n Hn. apply list_elem_of_fmap in Hn as (idx & -> & Hidx).
    apply pick_elem_of, (perm_seq_lt p); [done |].
    eapply chunks_elem_sub in Hidx; [| exact Hc].
    apply strided_elem_of in Hidx. by apply pad_ids_elem_of in Hidx.
Qed.

(** The batches of a bucket, laid end to end, are the samples at the
    shard's positions. *)
Lemma plan_bucket_concat R rank B (b p : list nat) :
  (rank < R)%nat → B ≠ 0%nat → p ≡ₚ seq 0 (length b) →
  concat (plan_bucket R rank B b p)
  = pick b <$> shard R rank (padded_ids R B b p).
Proof.
  intros Hr HB Hp. destruct (decide (b = [])) as [->|Hb].
  - rewrite plan_bucket_nil by done.
    apply Permutation_nil_r in Hp. subst p.
    unfold padded_ids, pad_ids, repeat_list, shard.
    assert (Hc : ∀ n, concat (replicate n ([] : list nat)) = [])
      by (induction n; done).
    by rewrite Hc, take_nil.
  - destruct (pad_count_spec (R * B) (length b)) as [c Hc]; [nia |].
    unfold plan_bucket.
    assert (Hcat : ∀ (l : list (list nat)),
      concat ((λ c : list nat, pick b <$> c) <$> l) = pick b <$> concat l).
    { induction l as [|x l IH]; [done |].
      rewrite fmap_cons. simpl. by rewrite fmap_app, IH. }
    rewrite Hcat. f_equal. apply (chunks_concat _ _ c); [| done].
    apply shard_length; [done | done | by apply perm_seq_length | done].
Qed.

(** ** All buckets *)

Lemma plan_cons R rank B b bs p ps :
  plan R rank B (b :: bs) (p :: ps)
  = plan_bucket R rank B b p ++ plan R rank B bs ps.
Proof. done. Qed.

Lemma plan_length R rank B buckets indices :
  valid_indices buckets indices → (rank < R)%nat → B ≠ 0%nat →
  (length (plan R rank B buckets indices) * (R * B))%nat
  = sum_counts ((λ b, pad_count (R * B) (length b)) <$> buckets).
Proof.
  intros Hv Hr HB. induction Hv as [|b p bs ps Hp _ IH]; [done |].
  rewrite plan_cons, length_app, fmap_cons. cbn [sum_counts foldr].
  fold (sum_counts ((λ b, pad_count (R * B) (length b)) <$> bs)).
  rewrite <- IH. destruct (pad_count_spec (R * B) (length b)) as [c Hc]; [nia |].
  rewrite (plan_bucket_length R rank B b p c) by done. lia.
Qed.

Lemma plan_batch R rank B buckets indices batch :
  valid_indices buckets indices → batch ∈ plan R rank B buckets indices →
  length batch = B ∧ ∃ b, b ∈ buckets ∧ ∀ n, n ∈ batch → n ∈ b.
Proof.
  intros Hv. induction Hv as [|b p bs ps Hp _ IH]; intros Hin.
  - by apply elem_of_nil in Hin.
  - rewrite plan_cons in Hin. apply elem_of_app in Hin as [Hin|Hin].
    + destruct (plan_bucket_batch R rank B b p batch Hp Hin) as [Hl Hsub].
      split; [done |]. exists b. split; [left | done].
    + destruct (IH Hin) as (Hl & b' & Hb' & Hsub).
      split; [done |]. exists b'. split; [by right | done].
Qed.

Lemma plan_concat R rank B buckets indices :
  valid_indices buckets indices → (rank < R)%nat → B ≠ 0%nat →
  concat (plan R rank B buckets indices)
  = concat (zip_with (λ b p, pick b <$> shard R rank (padded_ids R B b p))
              buckets indices).
Proof.
  intros Hv Hr HB. induction Hv as [|b p bs ps Hp _ IH]; [done |].
  rewrite plan_cons, concat_app, IH. simpl.
  by rewrite plan_bucket_concat.
Qed.

Lemma range_indices_valid buckets : valid_indices buckets (range_indices buckets).
Proof.
  unfold valid_indices, range_indices.
  induction buckets as [|b bs IH]; [constructor |].
  rewrite fmap_cons. by constructor.
Qed.

(** The bucket loop of [__iter__] raises nothing on a consistent sampler
    and collects the plan of the buckets it visits. *)
Lemma build_spec (s : Sampler) (indices : list (list nat)) :
  consistent s → valid_indices (buckets s) indices →
  ∀ n i0 acc, (i0 + n = length (buckets s))%nat →
    build s indices (seq i0 n) acc
    = Ok (acc ++ plan (num_replicas s) (rank s) (batch_size s)
                   (drop i0 (buckets s)) (drop i0 indices)).
Proof.
  intros [Hcounts _ _ HR HB] Hv. induction n as [|n IH]; intros i0 acc Hi.
  - simpl. rewrite drop_ge by lia. by rewrite app_nil_r.
  - cbn [seq build]. unfold getpos at 1.
    destruct (lookup_lt_is_Some_2 (buckets s) i0) as [b Hb]; [lia |].
    rewrite Hb. cbn [bind].
    destruct (Forall2_lookup_l _ _ _ _ _ Hv Hb) as (p & Hp & Hperm).
    rewrite (drop_S _ _ _ Hb), (drop_S _ _ _ Hp), plan_cons.
    destruct (Nat.eqb_spec (length b) 0) as [Hz|Hnz].
    + apply nil_length_inv in Hz. subst b.
      rewrite plan_bucket_nil by done. rewrite IH by lia. done.
    + unfold getpos. rewrite Hp. cbn [bind].
      rewrite Hcounts, list_lookup_fmap, Hb. cbn [fmap option_fmap option_map bind].
      assert (HB' : batch_size s ≠ 0%nat).
      { destruct HB as [|Hnil]; [done |]. rewrite Hnil in Hb.
        by rewrite lookup_nil in Hb. }
      rewrite bucket_batches_spec by done. cbn [bind].
      rewrite IH by lia. by rewrite app_assoc.
Qed.

Lemma consistent_num_samples_plan (s : Sampler) (indices : list (list nat)) :
  consistent s → valid_indices (buckets s) indices →
  (rank s < num_replicas s)%nat →
  (length (plan (num_replicas s) (rank s) (batch_size s) (buckets s) indices)
     * batch_size s)%nat = num_samples s.
Proof.
  intros [Hcounts Htot Hnum HR HB] Hv Hr. rewrite Hnum, Htot, Hcounts.
  destruct HB as [HB|Hnil].
  - rewrite <- (plan_length _ (rank s) _ _ indices) by done.
    set (n := length _).
    replace (n * (num_replicas s * batch_size s))%nat
      with ((n * batch_size s) * num_replicas s)%nat by lia.
    by rewrite Nat.div_mul.
  - rewrite Hnil in *. inversion Hv; subst. simpl.
    by rewrite Nat.Div0.div_0_l.
Qed.

Lemma consistent_set_epoch e s : consistent s → consistent (set_epoch e s).
Proof. intros [? ? ? ? ?]. by constructor. Qed.

Lemma consistent_set_batches b s : consistent s → consistent (set_batches b s).
Proof. intros [? ? ? ? ?]. by constructor. Qed.

Lemma constructed_consistent' ls B l R rk sh buckets' s :
  constructed ls B l R rk sh buckets' s → consistent s.
Proof. by intros []. Qed.

(** ** [__iter__] *)

Lemma bucket_batches_elem R rank B (b ids : list nat) nsb new batch n :
  bucket_batches R rank B b ids nsb = Ok new →
  batch ∈ new → n ∈ batch → n ∈ b.
Proof.
  unfold bucket_batches. intros H Hbatch Hn.
  destruct (slice_step _ rank R) as [sh|]; [| done]. cbn [bind] in H.
  destruct (py_div (length sh) B) as [m|]; [| done]. cbn [bind] in H.
  destruct (mapM_elem _ _ _ _ H Hbatch) as (j & _ & Hj).
  unfold make_batch in Hj.
  destruct (mapM_elem _ _ _ _ Hj Hn) as (idx & _ & Hidx).
  by apply getpos_elem_of in Hidx.
Qed.

(** Whatever the generator draws, a sample of an emitted batch is a
    sample of some bucket. *)
Lemma build_elem (s : Sampler) (indices : list (list nat)) : ∀ ps acc out,
  build s indices ps acc = Ok out →
  ∀ batch, batch ∈ out →
    batch ∈ acc ∨ ∃ b, b ∈ buckets s ∧ ∀ n, n ∈ batch → n ∈ b.
Proof.
  induction ps as [|i ps IH]; intros acc out H batch Hb.
  - inversion H; subst. by left.
  - cbn [build] in H.
    destruct (getpos (buckets s) i) as [b|] eqn:Hgb; [| done].
    cbn [bind] in H. destruct (length b =? 0)%nat; [by eapply IH |].
    destruct (getpos indices i) as [ids|]; [| done]. cbn [bind] in H.
    destruct (getpos (num_samples_per_bucket s) i) as [nsb|]; [| done].
    cbn [bind] in H.
    destruct (bucket_batches _ _ _ b ids nsb) as [new|] eqn:Hnew; [| done].
    cbn [bind] in H. destruct (IH _ _ H batch Hb) as [Hacc | Hex]; [| by right].
    apply elem_of_app in Hacc as [Hacc | Hin]; [by left |].
    right. exists b. split; [by apply getpos_elem_of in Hgb |].
    intros n Hn. eapply bucket_batches_elem; eauto.
Qed.

Lemma build_ext (s1 s2 : Sampler) (indices : list (list nat)) :
  buckets s1 = buckets s2 →
  num_samples_per_bucket s1 = num_samples_per_bucket s2 →
  num_replicas s1 = num_replicas s2 → rank s1 = rank s2 →
  batch_size s1 = batch_size s2 →
  ∀ ps acc, build s1 indices ps acc = build s2 indices ps acc.
Proof.
  intros Hb Hn HR Hr HB. induction ps as [|i ps IH]; intros acc; [done |].
  cbn [build]. rewrite Hb, Hn, HR, Hr, HB.
  destruct (getpos (buckets s2) i) as [b|]; [| done]. cbn [bind].
  destruct (length b =? 0)%nat; [apply IH |].
  destruct (getpos indices i) as [ids|]; [| done]. cbn [bind].
  destruct (getpos (num_samples_per_bucket s2) i) as [nsb|]; [| done].
  cbn [bind]. destruct (bucket_batches _ _ _ b ids nsb); [| done].
  cbn [bind]. apply IH.
Qed.

(** Construction reads the arguments and the contents of the boundary
    list only: the rank is stored, and neither the reference nor the rest
    of the store matters. *)
Lemma init_same_contents h1 h2 ls B l1 l2 R rk1 rk2 sh s1 h1' :
  deref h1 l1 = deref h2 l2 → (rk2 < R)%nat →
  __init__ h1 ls B l1 R rk1 sh = (Ok s1, h1') →
  ∃ s2 bs', __init__ h2 ls B l2 R rk2 sh = (Ok s2, <[l2 := bs']> h2) ∧
    h1' = <[l1 := bs']> h1 ∧
    buckets s2 = buckets s1 ∧
    num_samples_per_bucket s2 = num_samples_per_bucket s1 ∧
    num_samples s2 = num_samples s1 ∧ total_size s2 = total_size s1 ∧
    batch_size s2 = batch_size s1 ∧ num_replicas s2 = num_replicas s1 ∧
    shuffle s2 = shuffle s1 ∧ epoch s2 = epoch s1 ∧
    rank s1 = rk1 ∧ rank s2 = rk2.
Proof.
  intros Hd Hrk2. unfold __init__. rewrite Hd, (base_init_ok R rk2) by done.
  destruct (base_init R rk1) as [[]|]; [| done].
  destruct (_create_buckets (deref h2 l2) ls R B) as [[[bk counts]|e] bs'];
    [| done].
  destruct (py_div (sum_counts counts) R) as [ns|]; [| done].
  intros Heq. inversion Heq; subst. eexists _, bs'. by split_and!.
Qed.

Section EpochProperties.

Variable Generator : Type.
Variable manual_seed : Z → Generator.
Variable randperm : nat → Generator → list nat * Generator.

Local Abbreviation iter := (__iter__ Generator manual_seed randperm).
Local Abbreviation drawn := (drawn_indices Generator manual_seed randperm).

Local Abbreviation epoch_b := (epoch_batches Generator manual_seed randperm).

(** [__iter__] reads neither [self.batches] nor any generator state
    left by an earlier call. *)
Lemma epoch_batches_set_batches b s : epoch_b (set_batches b s) = epoch_b s.
Proof.
  unfold epoch_batches. cbn [epoch shuffle buckets set_batches].
  destruct (if shuffle s then _ else _) as [indices g].
  by rewrite (build_ext (set_batches b s) s).
Qed.

Lemma iter_set_batches b s : (iter (set_batches b s)).1 = (iter s).1.
Proof.
  unfold __iter__. rewrite epoch_batches_set_batches.
  destruct (epoch_b s) as [out|]; [| done].
  cbn [num_samples batch_size set_batches]. by destruct (_ =? _)%nat.
Qed.

Lemma iter_idempotent s : iter (iter s).2 = iter s.
Proof.
  unfold __iter__ at 2 3. destruct (epoch_b s) as [out|e] eqn:He.
  - assert (Hs : iter (set_batches out s) = iter s).
    { unfold __iter__. rewrite epoch_batches_set_batches, He.
      cbn [num_samples batch_size set_batches]. done. }
    unfold __iter__ at 2 in Hs. rewrite He in Hs.
    by destruct (_ =? _)%nat.
  - cbn [snd]. unfold __iter__. by rewrite He.
Qed.

Lemma iter_ext s1 s2 :
  epoch s1 = epoch s2 → shuffle s1 = shuffle s2 → buckets s1 = buckets s2 →
  num_samples_per_bucket s1 = num_samples_per_bucket s2 →
  num_replicas s1 = num_replicas s2 → rank s1 = rank s2 →
  batch_size s1 = batch_size s2 → num_samples s1 = num_samples s2 →
  (iter s1).1 = (iter s2).1.
Proof.
  intros He Hsh Hb Hn HR Hr HB Hns. unfold __iter__, epoch_batches.
  rewrite He, Hsh, Hb. destruct (if shuffle s2 then _ else _) as [indices g].
  rewrite (build_ext s1 s2) by done.
  destruct (build s2 indices _ []) as [out|]; [| done]. cbn [bind].
  destruct (if shuffle s2 then _ else _) as [out'|]; [| done].
  cbn [num_samples batch_size set_batches]. rewrite HB, Hns.
  by destruct (_ =? _)%nat.
Qed.

Lemma drawn_ext s1 s2 :
  epoch s1 = epoch s2 → shuffle s1 = shuffle s2 → buckets s1 = buckets s2 →
  drawn s1 = drawn s2.
Proof. intros He Hsh Hb. unfold drawn_indices. by rewrite He, Hsh, Hb. Qed.

Lemma iter_snd_cases s :
  (iter s).2 = s ∨ ∃ out, (iter s).2 = set_batches out s.
Proof.
  unfold __iter__. destruct (epoch_b s) as [out|]; [| by left].
  right. exists out. by destruct (_ =? _)%nat.
Qed.

Lemma iter_elem s out batch n :
  (iter s).1 = Ok out → batch ∈ out → n ∈ batch →
  ∃ b, b ∈ buckets s ∧ n ∈ b.
Proof.
  unfold __iter__. destruct (epoch_b s) as [out1|] eqn:He; [| done].
  destruct (_ =? _)%nat; [| done]. cbn [fst]. intros H Hbatch Hn.
  inversion H; subst out1. clear H. unfold epoch_batches in He.
  destruct (if shuffle s then _ else _) as [indices g].
  destruct (build s indices _ []) as [out0|] eqn:Hbuild; [| done].
  cbn [bind] in He.
  assert (Hin0 : batch ∈ out0).
  { destruct (shuffle s).
    - destruct (mapM_elem _ _ _ _ He Hbatch) as (i & _ & Hi).
      by apply getpos_elem_of in Hi.
    - by inversion He; subst. }
  destruct (build_elem _ _ _ _ _ Hbuild batch Hin0) as [Hnil | (b & Hb & Hsub)].
  - by apply elem_of_nil in Hnil.
  - exists b. split; [done | by apply Hsub].
Qed.

Hypothesis randperm_perm : ∀ n g, (randperm n g).1 ≡ₚ seq 0 n.

Lemma shuffled_indices_valid buckets : ∀ g,
  valid_indices buckets (shuffled_indices Generator randperm g buckets).1.
Proof.
  unfold valid_indices. induction buckets as [|b bs IH]; intros g.
  - constructor.
  - cbn [shuffled_indices]. specialize (randperm_perm (length b) g).
    destruct (randperm (length b) g) as [p g']. specialize (IH g').
    destruct (shuffled_indices _ _ g' bs) as [ps g'']. by constructor.
Qed.

Lemma drawn_valid s : valid_indices (buckets s) (drawn s).
Proof.
  unfold drawn_indices. destruct (shuffle s).
  - apply shuffled_indices_valid.
  - apply range_indices_valid.
Qed.

(** On a consistent sampler whose rank is a replica, [__iter__] raises
    nothing, passes its assertion, and hands out the plan of the drawn
    positions, in a permuted batch order when shuffling. *)
Lemma iter_spec s :
  consistent s → (rank s < num_replicas s)%nat →
  ∃ out, iter s = (Ok out, set_batches out s) ∧
    out ≡ₚ plan (num_replicas s) (rank s) (batch_size s) (buckets s) (drawn s).
Proof.
  intros Hc Hr. pose proof (drawn_valid s) as Hv.
  pose proof (consistent_num_samples_plan s _ Hc Hv Hr) as Hnum.
  unfold __iter__, epoch_batches, drawn_indices in *.
  cbn [num_samples batch_size set_batches].
  destruct (shuffle s).
  - destruct (shuffled_indices _ _ _ (buckets s)) as [indices g].
    cbn [fst] in *.
    rewrite (build_spec s indices Hc Hv (length (buckets s)) 0 []) by done.
    rewrite !drop_0, app_nil_l. cbn [bind].
    set (pl := plan _ _ _ _ _) in *.
    destruct (mapM_getpos_perm pl (randperm (length pl) g).1)
      as (out & Hm & Hperm); [apply randperm_perm |].
    rewrite Hm. exists out. split; [| done].
    rewrite (Permutation_length Hperm), Hnum, Nat.eqb_refl. done.
  - rewrite (build_spec s _ Hc Hv (length (buckets s)) 0 []) by done.
    rewrite !drop_0, app_nil_l. cbn [bind].
    set (pl := plan _ _ _ _ _) in *.
    exists pl. split; [| done]. by rewrite Hnum, Nat.eqb_refl.
Qed.

End EpochProperties.

(** ** Buckets and intervals after pruning *)

(** Deleting an empty bucket at a position [i >= 1] together with the
    boundary at [i + 1] keeps every sample in the bucket of its interval. *)
Lemma placed_delete ls buckets bs i :
  strictly_increasing bs = true →
  buckets !! i = Some [] →
  placed_by_interval ls buckets bs →
  placed_by_interval ls (delete i buckets) (delete (i + 1)%nat bs).
Proof.
  intros Hs Hemp HJ n len Hn j. specialize (HJ n len Hn).
  unfold in_interval. destruct (lt_eq_lt_dec j i) as [[Hlt | ->] | Hgt].
  - rewrite list_lookup_delete_lt by done.
    rewrite !list_lookup_delete_lt by lia. apply HJ.
  - rewrite list_lookup_delete_ge by done.
    rewrite list_lookup_delete_lt by lia.
    rewrite list_lookup_delete_ge by lia.
    rewrite (HJ (S i)). unfold in_interval. split.
    + intros (a & b & Ha & Hb & Hab).
      destruct (lookup_lt_is_Some_2 bs i) as [c Hc];
        [apply lookup_lt_Some in Ha; lia |].
      exists c, b. split_and!; try done; [|lia].
      assert (c < a)
        by (apply (strictly_increasing_lookup bs i (S i) c a); auto; lia).
      lia.
    + intros (c & b & Hc & Hb & Hcb).
      destruct (lookup_lt_is_Some_2 bs (S i)) as [a Ha];
        [apply lookup_lt_Some in Hb; lia |].
      exists a, b. split_and!; try done; [|lia].
      destruct (Z_lt_dec a len) as [|Hge]; [done |]. exfalso.
      assert (Hin : in_interval bs i len)
        by (exists c, a; split_and!; try done; lia).
      apply HJ in Hin as (b' & Hb' & Hmem). rewrite Hemp in Hb'.
      inversion Hb'; subst. by apply elem_of_nil in Hmem.
  - rewrite list_lookup_delete_ge by lia.
    rewrite !list_lookup_delete_ge by lia. apply HJ.
Qed.

Lemma prune_placed ls : ∀ m buckets bs buckets' bs',
  (m < length buckets)%nat →
  strictly_increasing bs = true →
  placed_by_interval ls buckets bs →
  prune (range_down m) buckets bs = (Ok buckets', bs') →
  placed_by_interval ls buckets' bs' ∧ strictly_increasing bs' = true.
Proof.
  induction m as [|m IH]; intros buckets bs buckets' bs' Hm Hs HJ Hp.
  - cbn in Hp. by inversion Hp; subst.
  - rewrite range_down_S in Hp. cbn [prune] in Hp. unfold getpos in Hp.
    destruct (lookup_lt_is_Some_2 buckets (S m) Hm) as [bucket Hb].
    rewrite Hb in Hp.
    destruct (Nat.eqb_spec (length bucket) 0) as [Hemp|Hnemp].
    + apply nil_length_inv in Hemp. subst bucket.
      destruct (pop buckets (S m)) as [b1|] eqn:Hp1; [| by inversion Hp].
      destruct (pop bs (S m + 1)) as [bs1|] eqn:Hp2; [| by inversion Hp].
      unfold pop in Hp1, Hp2.
      destruct (_ <? _)%nat; [| done]. inversion Hp1; subst b1.
      destruct (_ <? _)%nat; [| done]. inversion Hp2; subst bs1.
      apply (IH _ _ _ _) in Hp; [done | | |].
      * rewrite length_delete by eauto. lia.
      * by apply strictly_increasing_delete.
      * by apply placed_delete.
    + by apply (IH _ _ _ _) in Hp; [| lia | |].
Qed.

(** Over strictly increasing boundaries the classified buckets, and the
    buckets and boundaries that pruning leaves, place every sample by its
    interval. *)
Lemma created_placed bs ls buckets0 buckets' bs' :
  strictly_increasing bs = true →
  created bs ls buckets0 buckets' bs' →
  placed_by_interval ls buckets0 bs ∧
  placed_by_interval ls buckets' bs' ∧ strictly_increasing bs' = true.
Proof.
  intros Hs Hcr.
  assert (H0 : placed_by_interval ls buckets0 bs).
  { intros n len Hn i. rewrite <- bisect_default_interval by done. split.
    - intros (b & Hb & Hmem).
      apply (created_member _ _ _ _ _ Hcr i b Hb) in Hmem as (len' & Hn' & Hbis).
      by rewrite Hn in Hn'; inversion Hn'; subst.
    - intros Hbis.
      assert (Hi : (i < length buckets0)%nat).
      { rewrite (created_length0 _ _ _ _ _ Hcr).
        apply bisect_default_interval in Hbis as (a & b & _ & Hb & _); [| done].
        apply lookup_lt_Some in Hb. lia. }
      destruct (lookup_lt_is_Some_2 _ _ Hi) as [b Hb]. exists b.
      split; [done |]. apply (created_member _ _ _ _ _ Hcr i b Hb). eauto. }
  split; [done |]. pose proof (created_prune _ _ _ _ _ Hcr) as Hp.
  destruct (decide (length buckets0 = 0)%nat) as [Hz|Hnz].
  - rewrite Hz in Hp. cbn in Hp. by inversion Hp; subst.
  - eapply prune_placed; eauto. lia.
Qed.

(** In a strictly increasing list every entry lies between the first and
    the last. *)
Lemma strictly_increasing_bounds bs i a b0 bk :
  strictly_increasing bs = true →
  bs !! i = Some a → bs !! 0%nat = Some b0 → last bs = Some bk →
  b0 ≤ a ≤ bk.
Proof.
  intros Hs Ha H0 Hk. rewrite last_lookup in Hk.
  pose proof (lookup_lt_Some _ _ _ Ha). split.
  - apply (strictly_increasing_le bs 0 i); auto. lia.
  - apply (strictly_increasing_le bs i (pred (length bs))); auto. lia.
Qed.

(** ** The concrete generator draws permutations *)

Lemma lcg_randperm_perm n g : (lcg_randperm n g).1 ≡ₚ seq 0 n.
Proof.
  unfold lcg_randperm, rotate. cbn [fst].
  rewrite Permutation_app_comm. by rewrite take_drop.
Qed.

(** ** Worked examples *)

(** Boundaries [32, 300, 1000] and lengths [10, 50, 500, 1500] with one
    replica and batches of one: samples 0 and 3 are discarded, the buckets
    are [[1], [2]], and an epoch has two batches of one sample. *)
Example two_buckets_of_one :
  let h : heap := {[ 1%positive := [32; 300; 1000] ]} in
  ∃ s h', __init__ h [10; 50; 500; 1500] 1 1%positive 1 0 true = (Ok s, h') ∧
    buckets s = [[1]; [2]]%nat ∧ num_samples_per_bucket s = [1; 1]%nat ∧
    num_samples s = 2%nat ∧
    (__iter__ Z lcg_seed lcg_randperm (set_epoch 1 s)).1 = Ok [[1]; [2]]%nat.
Proof.
  intros h. eexists _, _. split; [vm_compute; reflexivity |].
  split_and!; vm_compute; reflexivity.
Qed.

(** Two replicas and batches of two: a bucket of three samples is padded
    to four entries, one sample repeating, and each rank takes two. *)
Example three_padded_to_four :
  let h : heap := {[ 1%positive := [32; 300] ]} in
  padded_ids 2 2 [0; 1; 2]%nat [0; 1; 2]%nat = [0; 1; 2; 0]%nat ∧
  rank_batches Z lcg_seed lcg_randperm h [50; 60; 70] 2 1%positive 2 false 0 0
  = [[0; 2]]%nat ∧
  rank_batches Z lcg_seed lcg_randperm h [50; 60; 70] 2 1%positive 2 false 0 1
  = [[1; 0]]%nat.
Proof. intros h. split_and!; vm_compute; reflexivity. Qed.

(** What the pruning loop does achieve: no bucket from position 1 on is
    empty, and a non-empty boundary list stays one longer than the bucket
    list. *)
Lemma construction_prunes_tail (h : heap) (ls : list Z) (B : nat) (l : loc)
    (R rk : nat) (sh : bool) (s : Sampler) (h' : heap) :
  __init__ h ls B l R rk sh = (Ok s, h') →
  Forall nonempty (drop 1 (buckets s)) ∧
  (deref h l ≠ [] → length (deref h' l) = S (length (buckets s))).
Proof.
  intros Hinit.
  destruct (init_inv _ _ _ _ _ _ _ _ _ Hinit) as (b0 & b' & bs' & Hcr & Hc & ->).
  rewrite (constructed_buckets _ _ _ _ _ _ _ _ Hc). split.
  - apply (created_nonempty _ _ _ _ _ Hcr).
  - intros Hne. unfold deref at 1. rewrite lookup_insert_eq. simpl.
    apply (created_length _ _ _ _ _ Hcr). by destruct (deref h l).
Qed.

(** * The claims *)

(** C10: Termination of the recursive binary search: for every [x] and
    every window with [0 <= lo <= hi <= len(boundaries) - 1], the width
    [hi - lo] strictly decreases at both recursive calls, and
    [_bisect(x, lo, hi)] returns (raising nothing) either -1 or a bucket
    position [mid] with [lo <= mid < hi]. *)
Theorem bisect_terminates_in_window (bs : list Z) (x lo hi : Z) :
  0 ≤ lo → lo ≤ hi → hi ≤ Z.of_nat (length bs) - 1 →
  (lo < hi →
     (Z.to_nat ((hi + lo) / 2 - lo) < Z.to_nat (hi - lo))%nat ∧
     (Z.to_nat (hi - ((hi + lo) / 2 + 1)) < Z.to_nat (hi - lo))%nat) ∧
  ∃ r, _bisect bs x lo hi = Ok r ∧ (r = -1 ∨ lo ≤ r < hi).
Proof.
  intros Hlo Hle Hhi. split.
  - intros Hlt. pose proof (bisect_mid lo hi Hlt). lia.
  - destruct (bisect_sound bs x _ lo hi eq_refl Hlo Hle Hhi) as (r & Hr & Hc).
    exists r. split; [done |]. destruct Hc as [|[? _]]; [by left | by right].
Qed.

Lemma bisect_terminates_in_window_witness :
  0 ≤ 0 ∧ 0 ≤ 2 ∧ 2 ≤ Z.of_nat (length [32; 300; 1000]) - 1 ∧
  ((0 < 2 →
     (Z.to_nat ((2 + 0) / 2 - 0) < Z.to_nat (2 - 0))%nat ∧
     (Z.to_nat (2 - ((2 + 0) / 2 + 1)) < Z.to_nat (2 - 0))%nat) ∧
   ∃ r, _bisect [32; 300; 1000] 500 0 2 = Ok r ∧ (r = -1 ∨ 0 ≤ r < 2)).
Proof.
  split; [lia |]. split; [lia |]. split; [simpl; lia |].
  apply (bisect_terminates_in_window [32; 300; 1000] 500 0 2); simpl; lia.
Defined.

(** C4: Padded-count formula: for every bucket [i] of a constructed
    sampler, [num_samples_per_bucket[i]] equals
    [len(buckets[i]) + ((T - len(buckets[i]) % T) % T)] with
    [T = num_replicas * batch_size], and is a multiple of [T]. *)
Theorem padded_count_formula (h : heap) (ls : list Z) (B : nat) (l : loc)
    (R rk : nat) (sh : bool) (s : Sampler) (h' : heap) :
  __init__ h ls B l R rk sh = (Ok s, h') →
  length (num_samples_per_bucket s) = length (buckets s) ∧
  ∀ i b, buckets s !! i = Some b →
    num_samples_per_bucket s !! i
      = Some (length b + (R * B - length b mod (R * B)) mod (R * B))%nat ∧
    ((length b + (R * B - length b mod (R * B)) mod (R * B)) mod (R * B) = 0)%nat.
Proof.
  intros Hinit.
  destruct (init_inv _ _ _ _ _ _ _ _ _ Hinit) as (b0 & b' & bs' & _ & Hc & _).
  destruct Hc as [_ HB _ HR _ _ Hbk [Hcounts _ _ HR0 HB0]]. subst.
  rewrite Hcounts, length_fmap. split; [done |]. intros i b Hb.
  rewrite list_lookup_fmap, Hb. split; [done |].
  apply pad_count_multiple. destruct HB0 as [HB0|Hnil]; [nia |].
  rewrite Hnil in Hb. by rewrite lookup_nil in Hb.
Qed.

Lemma padded_count_formula_witness :
  let h : heap := {[ 1%positive := [32; 300; 1000] ]} in
  ∃ s h', __init__ h [50; 60; 70; 500] 2 1%positive 2 0 true = (Ok s, h') ∧
    length (num_samples_per_bucket s) = length (buckets s) ∧
    ∀ i b, buckets s !! i = Some b →
      num_samples_per_bucket s !! i
        = Some (length b + (2 * 2 - length b mod (2 * 2)) mod (2 * 2))%nat ∧
      ((length b + (2 * 2 - length b mod (2 * 2)) mod (2 * 2)) mod (2 * 2) = 0)%nat.
Proof.
  intros h. eexists _, _. split; [vm_compute; reflexivity |].
  eapply (padded_count_formula h [50; 60; 70; 500] 2 1%positive 2 0 true).
  vm_compute. reflexivity.
Defined.

(** C7: Empty-bucket pruning: evaluated on boundaries [32, 300, 1000]
    and the single sample length 500.  The pruning loop stops before
    position 0, so the empty first bucket and its boundary stay. *)
Theorem prune_keeps_empty_first_bucket :
  let h : heap := {[ 1%positive := [32; 300; 1000] ]} in
  ∃ s h', __init__ h [500] 1 1%positive 1 0 true = (Ok s, h') ∧
    buckets s = [[]; [0%nat]] ∧
    h' !! 1%positive = Some [32; 300; 1000].
Proof.
  intros h. eexists _, _. split; [vm_compute; reflexivity |].
  split; vm_compute; reflexivity.
Qed.

(** C8, as the code has it: construction checks the boundaries not at
    all and knows no configuration error.  The one check is the base
    class's, on the rank: whenever [rank < num_replicas] and
    [batch_size >= 1], construction returns a sampler for every boundary
    list (also one with fewer than two entries, one that is not strictly
    increasing, or one that leaves every bucket empty) and every list of
    sample lengths; the sampler has at most [max(len(boundaries) - 1, 0)]
    buckets. *)
Theorem construction_never_rejects_boundaries (h : heap) (ls : list Z)
    (B : nat) (l : loc) (R rk : nat) (sh : bool) :
  (rk < R)%nat → (B ≠ 0)%nat →
  ∃ s h', __init__ h ls B l R rk sh = (Ok s, h') ∧
    Z.of_nat (length (buckets s))
    ≤ Z.max (Z.of_nat (length (deref h l)) - 1) 0.
Proof.
  intros Hrk HB.
  destruct (init_ok h ls B l R rk sh Hrk HB) as (s & h' & Hinit).
  exists s, h'. split; [done |].
  destruct (init_inv _ _ _ _ _ _ _ _ _ Hinit) as (b0 & b' & bs' & Hcr & Hc & _).
  rewrite (constructed_buckets _ _ _ _ _ _ _ _ Hc).
  pose proof (created_length0 _ _ _ _ _ Hcr) as Hl0.
  pose proof (sublist_length _ _ (created_sub _ _ _ _ _ Hcr)) as Hsub.
  lia.
Qed.

Lemma construction_never_rejects_boundaries_witness :
  let h : heap := {[ 1%positive := [] ]} in
  (0 < 1)%nat ∧ (1 ≠ 0)%nat ∧
  ∃ s h', __init__ h [10] 1 1%positive 1 0 true = (Ok s, h') ∧
    Z.of_nat (length (buckets s))
    ≤ Z.max (Z.of_nat (length (deref h 1%positive)) - 1) 0.
Proof.
  intros h. split; [lia |]. split; [lia |].
  apply (construction_never_rejects_boundaries h [10] 1 1%positive 1 0 true);
    lia.
Defined.

(** C8, as stated, fails: construction returns a sampler, and raises
    nothing, for a boundary list of one entry, for one that is not
    strictly increasing, and when every sample is discarded. *)
Lemma construction_accepts_invalid_boundaries :
  (∃ s h', __init__ {[ 1%positive := [5] ]} [10] 1 1%positive 1 0 true
           = (Ok s, h') ∧ buckets s = []) ∧
  (∃ s h', __init__ {[ 1%positive := [300; 32; 300] ]} [50] 1 1%positive 1 0 true
           = (Ok s, h') ∧ strictly_increasing [300; 32; 300] = false) ∧
  (∃ s h', __init__ {[ 1%positive := [32; 300] ]} [10; 5000] 1 1%positive 1 0 true
           = (Ok s, h') ∧ buckets s = [[]]).
Proof.
  split_and!; eexists _, _; (split; [vm_compute; reflexivity |]);
    vm_compute; reflexivity.
Qed.

(** C9: Boundary-list mutation: the sampler keeps the caller's
    reference; construction changes the store at that reference only,
    leaving there the boundary list with one entry removed for every
    bucket pruned; a second construction from the same reference starts
    from the shortened list. *)
Theorem boundaries_mutated_in_place (h : heap) (ls : list Z) (B : nat) (l : loc)
    (R rk : nat) (sh : bool) (s : Sampler) (h' : heap) :
  __init__ h ls B l R rk sh = (Ok s, h') →
  boundaries s = l ∧
  (∀ l', l' ≠ l → h' !! l' = h !! l') ∧
  ∃ buckets0 bs',
    classify (deref h l) ls 0 (replicate (length (deref h l) - 1)%nat []) = Ok buckets0 ∧
    h' !! l = Some bs' ∧
    sublist bs' (deref h l) ∧
    (length bs' + (length buckets0 - length (buckets s)) = length (deref h l))%nat ∧
    ∀ ls2 B2 R2 rk2 sh2 s2 h'',
      __init__ h' ls2 B2 l R2 rk2 sh2 = (Ok s2, h'') →
      boundaries s2 = l ∧ (length (buckets s2) ≤ length bs' - 1)%nat.
Proof.
  intros Hinit.
  destruct (init_inv _ _ _ _ _ _ _ _ _ Hinit) as (b0 & b' & bs' & Hcr & Hc & ->).
  split; [apply (constructed_boundaries _ _ _ _ _ _ _ _ Hc) |].
  split; [intros l' Hne; by rewrite lookup_insert_ne |].
  exists b0, bs'. rewrite (constructed_buckets _ _ _ _ _ _ _ _ Hc).
  split; [apply (created_classify _ _ _ _ _ Hcr) |].
  split; [apply lookup_insert_eq |].
  split; [apply (created_sub_bs _ _ _ _ _ Hcr) |]. split.
  - pose proof (created_length0 _ _ _ _ _ Hcr) as Hl0.
    pose proof (sublist_length _ _ (created_sub _ _ _ _ _ Hcr)) as Hle.
    destruct (decide (length (deref h l) = 0%nat)) as [Hz|Hnz].
    + destruct (created_nil _ _ _ _ _ Hcr Hz) as [-> ->]. simpl. lia.
    + pose proof (created_length _ _ _ _ _ Hcr Hnz). lia.
  - intros ls2 B2 R2 rk2 sh2 s2 h'' Hinit2.
    destruct (init_inv _ _ _ _ _ _ _ _ _ Hinit2)
      as (c0 & c' & cs' & Hcr2 & Hc2 & _).
    split; [apply (constructed_boundaries _ _ _ _ _ _ _ _ Hc2) |].
    rewrite (constructed_buckets _ _ _ _ _ _ _ _ Hc2).
    pose proof (created_length0 _ _ _ _ _ Hcr2) as Hl0.
    pose proof (sublist_length _ _ (created_sub _ _ _ _ _ Hcr2)) as Hle.
    unfold deref in Hl0. rewrite lookup_insert_eq in Hl0. simpl in Hl0. lia.
Qed.

Lemma boundaries_mutated_in_place_witness :
  let h : heap := {[ 1%positive := [32; 300; 1000] ]} in
  ∃ s h', __init__ h [50] 1 1%positive 1 0 true = (Ok s, h') ∧
    h' !! 1%positive = Some [32; 300] ∧
    (∃ s2 h'', __init__ h' [500] 1 1%positive 1 0 true = (Ok s2, h'') ∧
               buckets s2 = [[]]) ∧
    boundaries s = 1%positive ∧
    (∀ l', l' ≠ 1%positive → h' !! l' = h !! l') ∧
    ∃ buckets0 bs',
      classify (deref h 1%positive) [50] 0
        (replicate (length (deref h 1%positive) - 1)%nat []) = Ok buckets0 ∧
      h' !! 1%positive = Some bs' ∧
      sublist bs' (deref h 1%positive) ∧
      (length bs' + (length buckets0 - length (buckets s))
       = length (deref h 1%positive))%nat ∧
      ∀ ls2 B2 R2 rk2 sh2 s2 h'',
        __init__ h' ls2 B2 1%positive R2 rk2 sh2 = (Ok s2, h'') →
        boundaries s2 = 1%positive ∧ (length (buckets s2) ≤ length bs' - 1)%nat.
Proof.
  intros h. eexists _, _. split; [vm_compute; reflexivity |].
  split; [vm_compute; reflexivity |].
  split; [eexists _, _; split; vm_compute; reflexivity |].
  eapply (boundaries_mutated_in_place h [50] 1 1%positive 1 0 true).
  vm_compute. reflexivity.
Defined.

Section ClaimsEpoch.

Variable Generator : Type.
Variable manual_seed : Z → Generator.
Variable randperm : nat → Generator → list nat * Generator.

Local Abbreviation iter := (__iter__ Generator manual_seed randperm).
Local Abbreviation drawn := (drawn_indices Generator manual_seed randperm).

(** C6: Discard and tie-break rule: over strictly increasing
    boundaries a sample is placed in bucket [i] exactly when
    [boundaries[i] < length <= boundaries[i + 1]], at classification and
    again for the buckets and boundaries that pruning leaves; a sample
    as long as the first boundary is in no bucket, one as long as the
    last boundary is in the last bucket, one longer than the last
    boundary is in no bucket; and the length of every sample of every
    emitted batch lies in [(b0, bk]]. *)
Theorem samples_placed_by_interval (h : heap) (ls : list Z) (B : nat)
    (l : loc) (R rk : nat) (sh : bool) (s : Sampler) (h' : heap) :
  __init__ h ls B l R rk sh = (Ok s, h') →
  strictly_increasing (deref h l) = true →
  ∃ buckets0 bs',
    classify (deref h l) ls 0 (replicate (length (deref h l) - 1)%nat [])
      = Ok buckets0 ∧
    h' !! l = Some bs' ∧
    placed_by_interval ls buckets0 (deref h l) ∧
    placed_by_interval ls (buckets s) bs' ∧
    (∀ n b0, ls !! n = Some b0 → deref h l !! 0%nat = Some b0 →
       ∀ b, b ∈ buckets0 → n ∉ b) ∧
    (∀ n bk, ls !! n = Some bk → last (deref h l) = Some bk →
       (2 ≤ length (deref h l))%nat →
       ∃ b, last buckets0 = Some b ∧ n ∈ b) ∧
    (∀ n len bk, ls !! n = Some len → last (deref h l) = Some bk → bk < len →
       ∀ b, b ∈ buckets0 → n ∉ b) ∧
    (∀ e out batch n,
       (iter (set_epoch e s)).1 = Ok out → batch ∈ out → n ∈ batch →
       ∃ len b0 bk, ls !! n = Some len ∧ deref h l !! 0%nat = Some b0 ∧
                    last (deref h l) = Some bk ∧ b0 < len ≤ bk).
Proof.
  intros Hinit Hs.
  destruct (init_inv _ _ _ _ _ _ _ _ _ Hinit) as (b0 & b' & bs' & Hcr & Hc & ->).
  destruct (created_placed _ _ _ _ _ Hs Hcr) as (HJ0 & HJ' & Hs').
  pose proof (constructed_buckets _ _ _ _ _ _ _ _ Hc) as Hbk.
  set (bs := deref h l) in *.
  exists b0, bs'. rewrite Hbk.
  split; [apply (created_classify _ _ _ _ _ Hcr) |].
  split; [apply lookup_insert_eq |]. split; [done |]. split; [done |].
  assert (Hbounds : ∀ n len i, ls !! n = Some len → in_interval bs i len →
            ∃ c0 ck, bs !! 0%nat = Some c0 ∧ last bs = Some ck ∧ c0 < len ≤ ck).
  { intros n len i Hn (a & b & Ha & Hb & Hab).
    destruct (lookup_lt_is_Some_2 bs 0) as [c0 H0];
      [apply lookup_lt_Some in Ha; lia |].
    destruct (lookup_lt_is_Some_2 bs (pred (length bs))) as [ck Hk];
      [apply lookup_lt_Some in Ha; lia |].
    rewrite <- last_lookup in Hk. exists c0, ck. split_and!; try done.
    - destruct (strictly_increasing_bounds bs i a c0 ck); auto. lia.
    - destruct (strictly_increasing_bounds bs (S i) b c0 ck); auto. lia. }
  split_and!.
  - intros n c0 Hn H0 b Hb Hmem.
    apply list_elem_of_lookup in Hb as [i Hb].
    assert (Hin : in_interval bs i c0) by (apply (HJ0 n c0 Hn i); eauto).
    destruct (Hbounds n c0 i Hn Hin) as (c0' & ck & H0' & _ & Hlt).
    rewrite H0 in H0'. inversion H0'. lia.
  - intros n bk Hn Hk Hlen.
    destruct (lookup_lt_is_Some_2 bs (length bs - 2)) as [a Ha]; [lia |].
    pose proof Hk as Hk'. rewrite last_lookup in Hk'.
    assert (Hin : in_interval bs (length bs - 2) bk).
    { exists a, bk. replace (S (length bs - 2)) with (pred (length bs)) by lia.
      split; [done |]. split; [done |]. split; [| lia].
      apply (strictly_increasing_lookup bs (length bs - 2) (pred (length bs)));
        auto. lia. }
    apply (HJ0 n bk Hn) in Hin as (b & Hb & Hmem). exists b. split; [| done].
    rewrite last_lookup, (created_length0 _ _ _ _ _ Hcr).
    by replace (pred (length bs - 1)) with (length bs - 2)%nat by lia.
  - intros n len bk Hn Hk Hlt b Hb Hmem.
    apply list_elem_of_lookup in Hb as [i Hb].
    assert (Hin : in_interval bs i len) by (apply (HJ0 n len Hn i); eauto).
    destruct (Hbounds n len i Hn Hin) as (c0 & ck & _ & Hk' & Hle).
    rewrite Hk in Hk'. inversion Hk'. lia.
  - intros e out batch n Hout Hbatch Hn.
    destruct (iter_elem _ _ _ _ _ _ _ Hout Hbatch Hn) as (b & Hb & Hmem).
    cbn [buckets set_epoch] in Hb. rewrite Hbk in Hb.
    apply (sublist_subseteq _ _ (created_sub _ _ _ _ _ Hcr)) in Hb.
    apply list_elem_of_lookup in Hb as [i Hb].
    apply (created_member _ _ _ _ _ Hcr i b Hb) in Hmem as (len & Hlen & Hbis).
    apply bisect_default_interval in Hbis; [| done].
    destruct (Hbounds n len i Hlen Hbis) as (c0 & ck & H0 & Hk & Hle).
    exists len, c0, ck. split_and!; try done; lia.
Qed.

(** C1: Determinism: two samplers built from the same lengths,
    boundary contents, batch size, replica count and rank hand out the
    same batches at the same epoch; iterating a second time yields the
    same result and state as the first, and the batches of an epoch do
    not depend on the epochs iterated before: the generator is seeded
    from the epoch at the start of every iteration. *)
Theorem iteration_deterministic (h1 h2 : heap) (ls : list Z) (B : nat)
    (l1 l2 : loc) (R rk : nat) (sh : bool) (s1 s2 : Sampler)
    (h1' h2' : heap) (e e' : Z) :
  deref h1 l1 = deref h2 l2 →
  __init__ h1 ls B l1 R rk sh = (Ok s1, h1') →
  __init__ h2 ls B l2 R rk sh = (Ok s2, h2') →
  (iter (set_epoch e s1)).1 = (iter (set_epoch e s2)).1 ∧
  iter (iter (set_epoch e s1)).2 = iter (set_epoch e s1) ∧
  (iter (set_epoch e (iter (set_epoch e' s1)).2)).1 = (iter (set_epoch e s1)).1.
Proof.
  intros Hd H1 H2.
  destruct (init_same_contents h1 h2 ls B l1 l2 R rk rk sh s1 h1' Hd
              (init_rank _ _ _ _ _ _ _ _ _ H1) H1)
    as (s2' & bs' & H2' & _ & Hb & Hn & Hns & _ & HB & HR & Hsh & _ & Hr1 & Hr2).
  rewrite H2 in H2'. inversion H2'; subst s2'. split_and!.
  - apply iter_ext; cbn [epoch shuffle buckets num_samples_per_bucket
      num_replicas rank batch_size num_samples set_epoch]; congruence.
  - apply iter_idempotent.
  - destruct (iter_snd_cases Generator manual_seed randperm (set_epoch e' s1))
      as [-> | [out ->]].
    + by apply iter_ext.
    + by apply iter_ext.
Qed.

(** C3: Shard content: for a non-empty bucket [i] and a position list
    [p] of its length [L], the padded list has exactly
    [num_samples_per_bucket[i]] entries, entry [q] being [p[q mod L]];
    the shard of rank [r] holds the entries at [r], [r + num_replicas],
    [r + 2 * num_replicas], ... and has
    [num_samples_per_bucket[i] / num_replicas] of them; these are the
    lists the bucket loop batches. *)
Theorem shard_content (h : heap) (ls : list Z) (B : nat) (l : loc)
    (R rk : nat) (sh : bool) (s : Sampler) (h' : heap)
    (i : nat) (bucket p : list nat) (nsb : nat) :
  __init__ h ls B l R rk sh = (Ok s, h') → (rk < R)%nat →
  buckets s !! i = Some bucket → bucket ≠ [] →
  num_samples_per_bucket s !! i = Some nsb →
  length p = length bucket →
  length (pad_ids p (length bucket) nsb) = nsb ∧
  (∀ q, (q < nsb)%nat →
     pad_ids p (length bucket) nsb !! q = p !! (q mod length bucket)%nat) ∧
  ∃ ids, slice_step (pad_ids p (length bucket) nsb) rk R = Ok ids ∧
    (∀ j, ids !! j = pad_ids p (length bucket) nsb !! (rk + j * R)%nat) ∧
    length ids = (nsb / R)%nat ∧ (nsb mod R = 0)%nat ∧
    bucket_batches R rk B bucket p nsb
    = (n <- py_div (length ids) B ;; mapM (make_batch bucket ids B) (seq 0 n)).
Proof.
  intros Hinit Hr Hb Hne Hnsb Hp.
  destruct (init_inv _ _ _ _ _ _ _ _ _ Hinit) as (b0 & b' & bs' & _ & Hc & _).
  destruct Hc as [_ HB _ HR _ _ _ [Hcounts _ _ _ HB0']].
  assert (HB0 : B ≠ 0%nat).
  { destruct HB0' as [HB0'|Hnil]; [by rewrite <- HB |].
    rewrite Hnil in Hb. by rewrite lookup_nil in Hb. }
  rewrite Hcounts, list_lookup_fmap, Hb, HB, HR in Hnsb.
  simpl in Hnsb. inversion Hnsb as [Hnsb']. clear Hnsb.
  assert (HL : length bucket ≠ 0%nat) by (by destruct bucket).
  destruct (pad_ids_spec p (length bucket) (pad_count (R * B) (length bucket)))
    as [Hlen Hlook]; [done | done | apply pad_count_ge |].
  split; [done |]. split; [done |].
  destruct R as [|k]; [lia |]. cbn [slice_step]. eexists. split; [done |].
  destruct (pad_count_spec (S k * B) (length bucket)) as [c Hc]; [lia |].
  split; [intros j; apply strided_lookup |]. split_and!.
  - rewrite (strided_length _ k rk (c * B)); [| rewrite Hlen, Hc; lia | lia].
    rewrite Hc. replace (c * (S k * B))%nat with (c * B * S k)%nat by lia.
    by rewrite Nat.div_mul.
  - rewrite Hc. replace (c * (S k * B))%nat with (c * B * S k)%nat by lia.
    apply Nat.Div0.mod_mul.
  - unfold bucket_batches. cbn [slice_step bind]. done.
Qed.

Hypothesis randperm_perm : ∀ n g, (randperm n g).1 ≡ₚ seq 0 n.



End ClaimsEpoch.

(** ** The claims on a concrete data set

    Boundaries [32, 300, 1000], four samples, two replicas, batches of
    two, and the concrete generator. *)

Lemma iteration_deterministic_witness :
  let h1 : heap := {[ 1%positive := [32; 300; 1000] ]} in
  let h2 : heap := <[ 2%positive := [32; 300; 1000] ]> {[ 1%positive := [7] ]} in
  ∃ s1 s2 h1' h2',
    deref h1 1%positive = deref h2 2%positive ∧
    __init__ h1 [50; 60; 70; 500] 2 1%positive 2 0 true = (Ok s1, h1') ∧
    __init__ h2 [50; 60; 70; 500] 2 2%positive 2 0 true = (Ok s2, h2') ∧
    (__iter__ Z lcg_seed lcg_randperm (set_epoch 3 s1)).1
    = (__iter__ Z lcg_seed lcg_randperm (set_epoch 3 s2)).1 ∧
    __iter__ Z lcg_seed lcg_randperm
      (__iter__ Z lcg_seed lcg_randperm (set_epoch 3 s1)).2
    = __iter__ Z lcg_seed lcg_randperm (set_epoch 3 s1) ∧
    (__iter__ Z lcg_seed lcg_randperm
       (set_epoch 3 (__iter__ Z lcg_seed lcg_randperm (set_epoch 8 s1)).2)).1
    = (__iter__ Z lcg_seed lcg_randperm (set_epoch 3 s1)).1.
Proof.
  intros h1 h2. eexists _, _, _, _.
  split; [vm_compute; reflexivity |].
  split; [vm_compute; reflexivity |].
  split; [vm_compute; reflexivity |].
  eapply (iteration_deterministic Z lcg_seed lcg_randperm h1 h2
            [50; 60; 70; 500] 2 1%positive 2%positive 2 0 true);
    vm_compute; reflexivity.
Defined.

Lemma shard_content_witness :
  let h : heap := {[ 1%positive := [32; 300; 1000] ]} in
  ∃ s h',
    __init__ h [50; 60; 70; 500] 2 1%positive 2 1 true = (Ok s, h') ∧
    (1 < 2)%nat ∧
    buckets s !! 0%nat = Some [0; 1; 2]%nat ∧ [0; 1; 2]%nat ≠ [] ∧
    num_samples_per_bucket s !! 0%nat = Some 4%nat ∧
    length [2; 0; 1]%nat = length [0; 1; 2]%nat ∧
    length (pad_ids [2; 0; 1]%nat 3 4) = 4%nat ∧
    (∀ q, (q < 4)%nat →
       pad_ids [2; 0; 1]%nat 3 4 !! q = [2; 0; 1]%nat !! (q mod 3)%nat) ∧
    ∃ ids, slice_step (pad_ids [2; 0; 1]%nat 3 4) 1 2 = Ok ids ∧
      (∀ j, ids !! j = pad_ids [2; 0; 1]%nat 3 4 !! (1 + j * 2)%nat) ∧
      length ids = (4 / 2)%nat ∧ (4 mod 2 = 0)%nat ∧
      bucket_batches 2 1 2 [0; 1; 2]%nat [2; 0; 1]%nat 4
      = (n <- py_div (length ids) 2 ;;
         mapM (make_batch [0; 1; 2]%nat ids 2) (seq 0 n)).
Proof.
  intros h. eexists _, _.
  split; [vm_compute; reflexivity |]. split; [lia |].
  split; [vm_compute; reflexivity |]. split; [done |].
  split; [vm_compute; reflexivity |]. split; [reflexivity |].
  eapply (shard_content h [50; 60; 70; 500] 2 1%positive 2 1 true _ _
            0 [0; 1; 2]%nat [2; 0; 1]%nat 4);
    first [vm_compute; reflexivity | lia | done].
Defined.



Lemma samples_placed_by_interval_witness :
  let h : heap := {[ 1%positive := [32; 300; 1000] ]} in
  let ls := [50; 32; 1000; 1001] in
  ∃ s h',
    __init__ h ls 1 1%positive 1 0 true = (Ok s, h') ∧
    strictly_increasing (deref h 1%positive) = true ∧
    ∃ buckets0 bs',
      classify (deref h 1%positive) ls 0
        (replicate (length (deref h 1%positive) - 1)%nat []) = Ok buckets0 ∧
      h' !! 1%positive = Some bs' ∧
      placed_by_interval ls buckets0 (deref h 1%positive) ∧
      placed_by_interval ls (buckets s) bs' ∧
      (∀ n b0, ls !! n = Some b0 → deref h 1%positive !! 0%nat = Some b0 →
         ∀ b, b ∈ buckets0 → n ∉ b) ∧
      (∀ n bk, ls !! n = Some bk → last (deref h 1%positive) = Some bk →
         (2 ≤ length (deref h 1%positive))%nat →
         ∃ b, last buckets0 = Some b ∧ n ∈ b) ∧
      (∀ n len bk, ls !! n = Some len → last (deref h 1%positive) = Some bk →
         bk < len → ∀ b, b ∈ buckets0 → n ∉ b) ∧
      (∀ e out batch n,
         (__iter__ Z lcg_seed lcg_randperm (set_epoch e s)).1 = Ok out →
         batch ∈ out → n ∈ batch →
         ∃ len b0 bk, ls !! n = Some len ∧
                      deref h 1%positive !! 0%nat = Some b0 ∧
                      last (deref h 1%positive) = Some bk ∧ b0 < len ≤ bk).
Proof.
  intros h ls. eexists _, _.
  split; [vm_compute; reflexivity |]. split; [vm_compute; reflexivity |].
  eapply (samples_placed_by_interval Z lcg_seed lcg_randperm
            h ls 1 1%positive 1 0 true);
    vm_compute; reflexivity.
Defined.

(** * Further properties of the sampler *)

(** X1: [_bisect(x)] with its default bounds raises nothing on any
    boundary list, sorted or not, empty or not; an answer other than -1 is
    a bucket position whose interval holds [x]; with fewer than two
    boundaries the answer is always -1. *)
Theorem bisect_any_boundaries (bs : list Z) (x : Z) :
  ∃ r, bisect_default bs x = Ok r ∧
    (r = -1 ∨
     (0 ≤ r < Z.of_nat (length bs) - 1 ∧ in_interval bs (Z.to_nat r) x)) ∧
    ((length bs < 2)%nat → r = -1).
Proof.
  destruct (bisect_default_ok bs x) as (r & Hr & Hc).
  exists r. split; [done |]. split; [done |].
  intros Hlen. destruct Hc as [|[Hrange _]]; [done | lia].
Qed.

(** X2: the padded count of a bucket is the least multiple of
    [num_replicas * batch_size] that is not below the bucket's size: it
    adds fewer than [num_replicas * batch_size] entries, and none when
    the size is already a multiple. *)
Theorem padded_count_least_multiple (h : heap) (ls : list Z) (B : nat)
    (l : loc) (R rk : nat) (sh : bool) (s : Sampler) (h' : heap)
    (i : nat) (b : list nat) (nsb : nat) :
  __init__ h ls B l R rk sh = (Ok s, h') →
  buckets s !! i = Some b →
  num_samples_per_bucket s !! i = Some nsb →
  (length b ≤ nsb < length b + R * B)%nat ∧
  (nsb mod (R * B) = 0)%nat ∧
  (∀ m, (length b ≤ m)%nat → (m mod (R * B) = 0)%nat → (nsb ≤ m)%nat) ∧
  ((length b mod (R * B) = 0)%nat → nsb = length b).
Proof.
  intros Hinit Hb Hnsb.
  destruct (init_inv _ _ _ _ _ _ _ _ _ Hinit) as (b0 & b' & bs' & _ & Hc & _).
  destruct Hc as [_ HB _ HR _ _ _ [Hcounts _ _ HR0 HB0]].
  assert (HT : (R * B ≠ 0)%nat).
  { destruct HB0 as [HB0|Hnil]; [nia |].
    rewrite Hnil in Hb. by rewrite lookup_nil in Hb. }
  rewrite Hcounts, list_lookup_fmap, Hb, HB, HR in Hnsb.
  simpl in Hnsb. inversion Hnsb as [Hn]. clear Hnsb.
  set (T := (R * B)%nat) in *. set (n := length b) in *.
  pose proof (Nat.mod_upper_bound n T HT) as Hlt.
  pose proof (Nat.div_mod_eq n T) as Hdm.
  pose proof (pad_count_multiple T n HT) as Hmul.
  unfold pad_count in *.
  destruct (decide (n mod T = 0)%nat) as [Hz|Hnz].
  - rewrite Hz, Nat.sub_0_r, Nat.Div0.mod_same, Nat.add_0_r in *.
    split_and!; [lia | lia | done | intros; lia | done].
  - rewrite (Nat.mod_small (T - n mod T) T) in * by lia.
    split_and!; [lia | lia | done | | intros; lia].
    intros m Hm Hmm.
    pose proof (Nat.div_mod_eq m T) as Hdm'. rewrite Hmm in Hdm'.
    assert (n / T < m / T)%nat by nia. nia.
Qed.

Lemma padded_count_least_multiple_witness :
  let h : heap := {[ 1%positive := [32; 300; 1000] ]} in
  ∃ s h',
    __init__ h [50; 60; 70; 500] 2 1%positive 2 0 true = (Ok s, h') ∧
    buckets s !! 0%nat = Some [0; 1; 2]%nat ∧
    num_samples_per_bucket s !! 0%nat = Some 4%nat ∧
    (length [0; 1; 2]%nat ≤ 4 < length [0; 1; 2]%nat + 2 * 2)%nat ∧
    (4 mod (2 * 2) = 0)%nat ∧
    (∀ m, (length [0; 1; 2]%nat ≤ m)%nat → (m mod (2 * 2) = 0)%nat → (4 ≤ m)%nat) ∧
    ((length [0; 1; 2]%nat mod (2 * 2) = 0)%nat → 4%nat = length [0; 1; 2]%nat).
Proof.
  intros h. eexists _, _.
  split; [vm_compute; reflexivity |].
  split; [vm_compute; reflexivity |].
  split; [vm_compute; reflexivity |].
  eapply (padded_count_least_multiple h [50; 60; 70; 500] 2 1%positive 2 0 true
            _ _ 0 [0; 1; 2]%nat 4);
    vm_compute; reflexivity.
Defined.

Lemma sum_pad_counts_bounds T (bs : list (list nat)) :
  T ≠ 0%nat →
  (∃ c, sum_counts ((λ b, pad_count T (length b)) <$> bs) = (c * T)%nat) ∧
  (length (concat bs) ≤ sum_counts ((λ b, pad_count T (length b)) <$> bs))%nat ∧
  (sum_counts ((λ b, pad_count T (length b)) <$> bs)
   ≤ length (concat bs) + length bs * (T - 1))%nat.
Proof.
  intros HT. induction bs as [|b bs (IH1 & IH2 & IH3)].
  - split_and!; [by exists 0%nat | done | done].
  - rewrite fmap_cons. cbn [sum_counts foldr concat length].
    fold (sum_counts ((λ b, pad_count T (length b)) <$> bs)).
    rewrite length_app. destruct IH1 as [c Hc].
    destruct (pad_count_spec T (length b) HT) as [c' Hc'].
    pose proof (pad_count_ge T (length b)).
    assert (pad_count T (length b) ≤ length b + (T - 1))%nat.
    { unfold pad_count.
      pose proof (Nat.mod_upper_bound (T - length b mod T) T HT). lia. }
    split_and!; [exists (c' + c)%nat; lia | lia | lia].
Qed.

(** X3: the replicas' shares are exact: [total_size] is
    [num_replicas * num_samples] with nothing lost to the integer
    division; it counts every kept sample and exceeds their number by
    less than [num_replicas * batch_size] per bucket. *)
Theorem replica_share_exact (h : heap) (ls : list Z) (B : nat) (l : loc)
    (R rk : nat) (sh : bool) (s : Sampler) (h' : heap) :
  __init__ h ls B l R rk sh = (Ok s, h') →
  total_size s = (R * num_samples s)%nat ∧
  (num_samples s mod B = 0)%nat ∧
  (length (concat (buckets s)) ≤ total_size s)%nat ∧
  (total_size s
   ≤ length (concat (buckets s)) + length (buckets s) * (R * B - 1))%nat.
Proof.
  intros Hinit.
  destruct (init_inv _ _ _ _ _ _ _ _ _ Hinit) as (b0 & b' & bs' & _ & Hc & _).
  destruct Hc as [_ HB _ HR _ _ _ [Hcounts Htot Hnum HR0 HB0]].
  rewrite HB, HR in *. rewrite Hnum, Htot, Hcounts.
  destruct HB0 as [HB0|Hnil].
  - destruct (sum_pad_counts_bounds (R * B) (buckets s)) as ([c Hc] & H2 & H3);
      [nia |].
    rewrite Hc. replace (c * (R * B))%nat with (c * B * R)%nat by lia.
    rewrite Nat.div_mul by done. split_and!; [lia | | lia | lia].
    apply Nat.Div0.mod_mul.
  - rewrite Hnil. simpl. rewrite Nat.Div0.div_0_l, Nat.Div0.mod_0_l.
    split_and!; lia.
Qed.

Lemma replica_share_exact_witness :
  let h : heap := {[ 1%positive := [32; 300; 1000] ]} in
  ∃ s h',
    __init__ h [50; 60; 70; 500] 2 1%positive 2 0 true = (Ok s, h') ∧
    total_size s = (2 * num_samples s)%nat ∧
    (num_samples s mod 2 = 0)%nat ∧
    (length (concat (buckets s)) ≤ total_size s)%nat ∧
    (total_size s
     ≤ length (concat (buckets s)) + length (buckets s) * (2 * 2 - 1))%nat.
Proof.
  intros h. eexists _, _.
  split; [vm_compute; reflexivity |].
  eapply (replica_share_exact h [50; 60; 70; 500] 2 1%positive 2 0 true).
  vm_compute; reflexivity.
Defined.

(** X4: without shuffling, at an epoch the generator accepts as a seed
    ([__iter__] seeds the generator from the epoch also when it does not
    shuffle), [__iter__] raises nothing and hands out the plan of the
    buckets in bucket order, each bucket's samples in data-set order: the
    batches are the same at every such epoch and for every generator. *)
Theorem unshuffled_epochs_agree (Generator : Type) (manual_seed : Z → Generator)
    (randperm : nat → Generator → list nat * Generator)
    (h : heap) (ls : list Z) (B : nat) (l : loc) (R rk : nat)
    (s : Sampler) (h' : heap) (e : Z) :
  __init__ h ls B l R rk false = (Ok s, h') → (rk < R)%nat →
  seed_accepted e = true →
  (__iter__ Generator manual_seed randperm (set_epoch e s)).1
  = Ok (plan R rk B (buckets s) ((λ b, seq 0 (length b)) <$> buckets s)).
Proof.
  intros Hinit Hr _.
  destruct (init_inv _ _ _ _ _ _ _ _ _ Hinit) as (b0 & b' & bs' & _ & Hc & _).
  destruct Hc as [_ HB _ HR Hrk Hsh _ Hcons].
  pose proof (consistent_set_epoch e s Hcons) as Hcons'.
  pose proof (range_indices_valid (buckets s)) as Hv.
  assert (Hr' : (rank (set_epoch e s) < num_replicas (set_epoch e s))%nat)
    by (cbn [rank num_replicas set_epoch]; lia).
  pose proof (consistent_num_samples_plan (set_epoch e s) _ Hcons' Hv Hr') as Hnum.
  unfold __iter__, epoch_batches.
  cbn [shuffle epoch buckets set_epoch] in *. rewrite Hsh.
  rewrite (build_spec (set_epoch e s) _ Hcons' Hv (length (buckets s)) 0 [])
    by done.
  rewrite !drop_0, app_nil_l. cbn [bind].
  cbn [num_samples batch_size num_replicas rank buckets set_batches set_epoch] in *.
  rewrite Hnum, Nat.eqb_refl. cbn [fst]. by rewrite HR, Hrk, HB.
Qed.

Lemma unshuffled_epochs_agree_witness :
  let h : heap := {[ 1%positive := [32; 300; 1000] ]} in
  ∃ s h',
    __init__ h [50; 60; 70; 500] 2 1%positive 2 1 false = (Ok s, h') ∧
    (1 < 2)%nat ∧ seed_accepted 5 = true ∧
    (__iter__ Z lcg_seed lcg_randperm (set_epoch 5 s)).1
    = Ok (plan 2 1 2 (buckets s) ((λ b, seq 0 (length b)) <$> buckets s)).
Proof.
  intros h. eexists _, _.
  split; [vm_compute; reflexivity |]. split; [lia |].
  split; [reflexivity |].
  eapply (unshuffled_epochs_agree Z lcg_seed lcg_randperm
            h [50; 60; 70; 500] 2 1%positive 2 1);
    first [vm_compute; reflexivity | lia].
Defined.

(** ** Buckets hold each sample once, in data-set order *)

Lemma increasing_snoc (b : list nat) (n : nat) :
  increasing b → (∀ x, x ∈ b → (x < n)%nat) → increasing (b ++ [n]).
Proof.
  intros Hb Hlt i j x y Hij Hi Hj.
  pose proof (lookup_lt_Some _ _ _ Hj) as Hjl. rewrite length_app in Hjl.
  simpl in Hjl. assert (Hil : (i < length b)%nat) by lia.
  rewrite lookup_app_l in Hi by done.
  destruct (decide (j < length b)%nat) as [Hjb|Hjb].
  - rewrite lookup_app_l in Hj by done. eauto.
  - rewrite lookup_app_r in Hj by lia.
    replace (j - length b)%nat with 0%nat in Hj by lia.
    inversion Hj; subst. apply Hlt, list_elem_of_lookup. eauto.
Qed.

Lemma increasing_NoDup (b : list nat) : increasing b → NoDup b.
Proof.
  intros Hb. apply NoDup_alt. intros i j x Hi Hj.
  destruct (lt_eq_lt_dec i j) as [[Hlt|Heq]|Hgt]; [| done |].
  - pose proof (Hb i j x x Hlt Hi Hj). lia.
  - pose proof (Hb j i x x Hgt Hj Hi). lia.
Qed.

Lemma classify_increasing bs : ∀ rest i buckets buckets',
  Forall (λ b, increasing b ∧ ∀ n, n ∈ b → (n < i)%nat) buckets →
  classify bs rest i buckets = Ok buckets' →
  Forall (λ b, increasing b ∧ ∀ n, n ∈ b → (n < i + length rest)%nat) buckets'.
Proof.
  induction rest as [|len rest IH]; intros i buckets buckets' Hinv Hcl.
  - inversion Hcl; subst. eapply Forall_impl; [exact Hinv |].
    intros b [Hb Hlt]. split; [done |]. intros n Hn. simpl.
    specialize (Hlt n Hn). lia.
  - cbn [classify] in Hcl.
    destruct (bisect_default bs len) as [r|]; [| done]. cbn [bind] in Hcl.
    assert (Hweak : Forall (λ b, increasing b ∧ ∀ n, n ∈ b → (n < S i)%nat) buckets).
    { eapply Forall_impl; [exact Hinv |]. intros b [Hb Hlt].
      split; [done |]. intros n Hn. specialize (Hlt n Hn). lia. }
    destruct (r =? -1).
    + apply (IH (S i)) in Hcl; [| done].
      eapply Forall_impl; [exact Hcl |]. intros b [Hb Hlt].
      split; [done |]. intros n Hn. specialize (Hlt n Hn). simpl. lia.
    + unfold append_at in Hcl.
      destruct (norm_index (length buckets) r) as [j|]; [| done].
      cbn [bind] in Hcl. apply (IH (S i)) in Hcl.
      * eapply Forall_impl; [exact Hcl |]. intros b [Hb Hlt].
        split; [done |]. intros n Hn. specialize (Hlt n Hn). simpl. lia.
      * apply Forall_alter.
        -- eapply Forall_impl; [exact Hinv |]. intros b [Hb Hlt].
           split; [done |]. intros n Hn. specialize (Hlt n Hn). lia.
        -- intros b Hbj _.
           destruct (proj1 (Forall_lookup _ _) Hinv j b Hbj) as [Hb Hlt]. split.
           ++ apply increasing_snoc; [done |]. intros x Hx.
              specialize (Hlt x Hx). lia.
           ++ intros n Hn. apply elem_of_app in Hn as [Hn|Hn].
              ** specialize (Hlt n Hn). lia.
              ** apply list_elem_of_singleton in Hn. lia.
Qed.

Lemma NoDup_concat_by_position {A} (l : list (list A)) :
  (∀ b, b ∈ l → NoDup b) →
  (∀ i j bi bj x, l !! i = Some bi → l !! j = Some bj →
     x ∈ bi → x ∈ bj → i = j) →
  NoDup (concat l).
Proof.
  induction l as [|b l IH]; intros Hnd Hdisj; [constructor |].
  simpl. apply NoDup_app. split_and!.
  - apply Hnd. left.
  - intros x Hx Hin. apply elem_of_concat in Hin as (c & Hc & Hxc).
    apply list_elem_of_lookup in Hc as [j Hj].
    pose proof (Hdisj 0%nat (S j) b c x eq_refl Hj Hx Hxc). lia.
  - apply IH.
    + intros c Hc. apply Hnd. by right.
    + intros i j bi bj x Hi Hj Hxi Hxj.
      pose proof (Hdisj (S i) (S j) bi bj x Hi Hj Hxi Hxj). lia.
Qed.

Lemma sublist_concat {A} (l1 l2 : list (list A)) :
  l1 `sublist_of` l2 → concat l1 `sublist_of` concat l2.
Proof.
  induction 1 as [|x l1 l2 _ IH|x l1 l2 _ IH]; simpl.
  - done.
  - by apply sublist_app.
  - by apply sublist_inserts_l.
Qed.

(** X5: whatever the boundaries are, construction puts every sample in
    at most one bucket and at most once, only samples of the data set,
    and each bucket lists its samples in data-set order. *)
Theorem buckets_hold_each_sample_once (h : heap) (ls : list Z) (B : nat)
    (l : loc) (R rk : nat) (sh : bool) (s : Sampler) (h' : heap) :
  __init__ h ls B l R rk sh = (Ok s, h') →
  NoDup (concat (buckets s)) ∧
  ∀ b, b ∈ buckets s → increasing b ∧ ∀ n, n ∈ b → (n < length ls)%nat.
Proof.
  intros Hinit.
  destruct (init_inv _ _ _ _ _ _ _ _ _ Hinit) as (b0 & b' & bs' & Hcr & Hc & _).
  rewrite (constructed_buckets _ _ _ _ _ _ _ _ Hc).
  pose proof (created_classify _ _ _ _ _ Hcr) as Hcl.
  apply classify_increasing in Hcl.
  2:{ apply Forall_forall. intros b Hb. apply elem_of_replicate in Hb as [-> _].
      split; [intros i j x y _ Hi; by rewrite lookup_nil in Hi |].
      intros n Hn. by apply elem_of_nil in Hn. }
  rewrite Forall_forall in Hcl. simpl in Hcl.
  pose proof (created_sub _ _ _ _ _ Hcr) as Hsub. split.
  - apply (sublist_NoDup _ (concat b0)); [| by apply sublist_concat].
    apply NoDup_concat_by_position.
    + intros b Hb. apply increasing_NoDup, Hcl, Hb.
    + intros i j bi bj x Hi Hj Hxi Hxj.
      apply (created_member _ _ _ _ _ Hcr i bi Hi) in Hxi as (len & Hl & Hbi).
      apply (created_member _ _ _ _ _ Hcr j bj Hj) in Hxj as (len' & Hl' & Hbj).
      rewrite Hl in Hl'. inversion Hl'; subst len'.
      rewrite Hbi in Hbj. inversion Hbj. lia.
  - intros b Hb. apply Hcl, (sublist_subseteq _ _ Hsub), Hb.
Qed.

Lemma buckets_hold_each_sample_once_witness :
  let h : heap := {[ 1%positive := [300; 32; 300] ]} in
  ∃ s h',
    __init__ h [50; 200; 10; 60] 1 1%positive 1 0 true = (Ok s, h') ∧
    NoDup (concat (buckets s)) ∧
    ∀ b, b ∈ buckets s →
      increasing b ∧ ∀ n, n ∈ b → (n < length [50; 200; 10; 60])%nat.
Proof.
  intros h. eexists _, _.
  split; [vm_compute; reflexivity |].
  eapply (buckets_hold_each_sample_once h [50; 200; 10; 60] 1 1%positive 1 0 true).
  vm_compute; reflexivity.
Defined.

(** ** What pruning leaves, exactly *)

Lemma take_drop_delete_above {A} (l : list A) i k m :
  (k + m ≤ i)%nat → take m (drop k (delete i l)) = take m (drop k l).
Proof.
  intros H. rewrite !take_drop_commute. f_equal.
  apply take_delete_above. lia.
Qed.

Lemma prune_exact : ∀ m buckets bs,
  (m < length buckets)%nat →
  length bs = S (length buckets) →
  prune (range_down m) buckets bs =
    (Ok (take 1 buckets
           ++ filter (λ b, b ≠ []) (take m (drop 1 buckets))
           ++ drop (S m) buckets),
     take 2 bs
       ++ (snd <$> filter (λ p : list nat * Z, p.1 ≠ [])
                     (zip (take m (drop 1 buckets)) (take m (drop 2 bs))))
       ++ drop (S (S m)) bs).
Proof.
  induction m as [|m IH]; intros buckets bs Hm Hlen.
  - cbn [range_down seq rev prune]. rewrite !take_0. simpl zip_with.
    rewrite !filter_nil. simpl. by rewrite !take_drop.
  - rewrite range_down_S. cbn [prune]. unfold getpos.
    destruct (lookup_lt_is_Some_2 buckets (S m) Hm) as [b Hb]. rewrite Hb.
    destruct (lookup_lt_is_Some_2 bs (S (S m))) as [c Hc]; [lia |].
    assert (Hb1 : drop 1 buckets !! m = Some b)
      by (rewrite lookup_drop; exact Hb).
    assert (Hc2 : drop 2 bs !! m = Some c)
      by (rewrite lookup_drop; exact Hc).
    rewrite (take_S_r _ _ _ Hb1), (take_S_r _ _ _ Hc2).
    rewrite zip_with_app
      by (rewrite !length_take, !length_drop; lia).
    rewrite !filter_app, fmap_app.
    destruct (Nat.eqb_spec (length b) 0) as [Hemp|Hnemp].
    + apply nil_length_inv in Hemp. subst b. unfold pop.
      destruct (Nat.ltb_spec (S m) (length buckets)) as [_|]; [| lia].
      destruct (Nat.ltb_spec (S m + 1) (length bs)) as [_|]; [| lia].
      rewrite IH.
      2:{ rewrite length_delete by eauto. lia. }
      2:{ rewrite !length_delete; eauto.
          - lia.
          - replace (S m + 1)%nat with (S (S m)) by lia. eauto. }
      replace (S m + 1)%nat with (S (S m)) by lia.
      rewrite !take_delete_above by lia.
      rewrite !take_drop_delete_above by lia.
      rewrite !drop_delete_here.
      simpl zip_with. rewrite !filter_cons_False by (simpl; auto).
      rewrite !filter_nil. simpl. by rewrite !app_nil_r.
    + rewrite IH by lia.
      assert (Hne : b ≠ []) by (intros ->; by apply Hnemp).
      rewrite (drop_S _ _ _ Hb), (drop_S _ _ _ Hc).
      simpl zip_with. rewrite !filter_cons_True by done.
      rewrite !filter_nil. simpl. by rewrite <- !app_assoc.
Qed.

(** X6: pruning removes exactly the empty buckets from position 1 on and,
    with each, the boundary that closes its interval; bucket 0, empty or
    not, the first two boundaries, and every non-empty bucket with its
    closing boundary stay, in their order. *)
Theorem pruning_result (h : heap) (ls : list Z) (B : nat) (l : loc)
    (R rk : nat) (sh : bool) (s : Sampler) (h' : heap) :
  __init__ h ls B l R rk sh = (Ok s, h') →
  ∃ buckets0,
    classify (deref h l) ls 0 (replicate (length (deref h l) - 1)%nat [])
      = Ok buckets0 ∧
    buckets s
      = take 1 buckets0 ++ filter (λ b, b ≠ []) (drop 1 buckets0) ∧
    deref h' l
      = take 2 (deref h l)
        ++ (snd <$> filter (λ p : list nat * Z, p.1 ≠ [])
                      (zip (drop 1 buckets0) (drop 2 (deref h l)))).
Proof.
  intros Hinit.
  destruct (init_inv _ _ _ _ _ _ _ _ _ Hinit) as (b0 & b' & bs' & Hcr & Hc & ->).
  rewrite (constructed_buckets _ _ _ _ _ _ _ _ Hc).
  exists b0. split; [apply (created_classify _ _ _ _ _ Hcr) |].
  unfold deref at 1. rewrite lookup_insert_eq. simpl.
  pose proof (created_prune _ _ _ _ _ Hcr) as Hp.
  pose proof (created_length0 _ _ _ _ _ Hcr) as Hl0.
  destruct (decide (length b0 = 0)%nat) as [Hz|Hnz].
  - apply nil_length_inv in Hz. subst b0. cbn in Hp. inversion Hp; subst.
    simpl. rewrite filter_nil. simpl. split; [done |].
    rewrite app_nil_r. symmetry. apply take_ge. simpl in Hl0. lia.
  - rewrite prune_exact in Hp by lia. inversion Hp as [[Hb Hbs]].
    replace (S (length b0 - 1)) with (length b0) by lia.
    rewrite !(take_ge (drop 1 b0)) by (rewrite length_drop; lia).
    rewrite !(take_ge (drop 2 (deref h l))) by (rewrite length_drop; lia).
    rewrite (drop_ge b0 (length b0)) by lia.
    rewrite (drop_ge (deref h l) (S (length b0))) by lia.
    by rewrite !app_nil_r.
Qed.

Lemma pruning_result_witness :
  let h : heap := {[ 1%positive := [32; 300; 400; 500; 1000] ]} in
  ∃ s h',
    __init__ h [450; 2000] 1 1%positive 1 0 true = (Ok s, h') ∧
    buckets s = [[]; [0%nat]] ∧ deref h' 1%positive = [32; 300; 500] ∧
    ∃ buckets0,
      classify (deref h 1%positive) [450; 2000] 0
        (replicate (length (deref h 1%positive) - 1)%nat []) = Ok buckets0 ∧
      buckets s
        = take 1 buckets0 ++ filter (λ b, b ≠ []) (drop 1 buckets0) ∧
      deref h' 1%positive
        = take 2 (deref h 1%positive)
          ++ (snd <$> filter (λ p : list nat * Z, p.1 ≠ [])
                        (zip (drop 1 buckets0) (drop 2 (deref h 1%positive)))).
Proof.
  intros h. eexists _, _.
  split; [vm_compute; reflexivity |].
  split; [vm_compute; reflexivity |].
  split; [vm_compute; reflexivity |].
  eapply (pruning_result h [450; 2000] 1 1%positive 1 0 true).
  vm_compute; reflexivity.
Defined.

(** ** When construction raises *)

Lemma create_buckets_boundaries bs ls R B R' B' :
  (_create_buckets bs ls R B).2 = (_create_buckets bs ls R' B').2.
Proof.
  unfold _create_buckets.
  destruct (classify bs ls 0 _) as [buckets0|]; [| done].
  by destruct (prune _ buckets0 bs) as [[buckets'|] bs'].
Qed.

Lemma init_refused h ls B l R rk sh :
  (R ≤ rk)%nat → __init__ h ls B l R rk sh = (Raise ValueError, h).
Proof. intros H. unfold __init__. by rewrite base_init_raise. Qed.

Lemma init_store h ls B l R rk sh :
  (rk < R)%nat →
  (__init__ h ls B l R rk sh).2
  = <[l := (_create_buckets (deref h l) ls R B).2]> h.
Proof.
  intros Hrk. unfold __init__. rewrite base_init_ok by done.
  destruct (_create_buckets (deref h l) ls R B) as [[[bk counts]|e] bs'];
    [| done].
  by destruct (py_div (sum_counts counts) R).
Qed.

(** X7: construction raises in exactly two cases.  When
    [rank >= num_replicas] (so always when [num_replicas] is 0) the
    base-class constructor raises [ValueError] and the caller's boundary
    list is untouched.  When [rank < num_replicas], [batch_size] is 0 and
    there are at least two boundaries, [_create_buckets] raises
    [ZeroDivisionError], after the boundary list has been pruned.  For
    ranks the base class accepts, the store after the call is the same
    whatever [batch_size], [num_replicas], [rank] and [shuffle] are,
    raising or not. *)
Theorem construction_failure (h : heap) (ls : list Z) (B : nat) (l : loc)
    (R rk : nat) (sh : bool) :
  (∀ e, (__init__ h ls B l R rk sh).1 = Raise e ↔
        (e = ValueError ∧ (R ≤ rk)%nat) ∨
        (e = ZeroDivisionError ∧ (rk < R)%nat ∧ B = 0%nat ∧
         (2 ≤ length (deref h l))%nat)) ∧
  ((R ≤ rk)%nat → (__init__ h ls B l R rk sh).2 = h) ∧
  ((rk < R)%nat → ∀ B' R' rk' sh', (rk' < R')%nat →
     (__init__ h ls B l R rk sh).2 = (__init__ h ls B' l R' rk' sh').2).
Proof.
  split; [| split].
  - intros e. destruct (decide (rk < R)%nat) as [Hrk|Hrk].
    2:{ rewrite init_refused by lia. cbn [fst]. split.
        - intros [= <-]. left. split; [done | lia].
        - intros [[-> _] | (_ & ? & _)]; [done | lia]. }
    unfold __init__. rewrite base_init_ok by done.
    destruct (create_buckets_spec (deref h l) ls R B)
      as (b0 & b' & bs' & Hcr & ->).
    assert (Hnil : b' = [] ↔ (length (deref h l) < 2)%nat).
    { pose proof (created_first _ _ _ _ _ Hcr) as Hf.
      pose proof (created_length0 _ _ _ _ _ Hcr) as Hl0. split.
      - intros ->. destruct b0; simpl in *; [lia | done].
      - intros Hlt. assert (b0 = []) as -> by (apply nil_length_inv; lia).
        by destruct b'. }
    destruct (decide (R * B = 0)%nat) as [HT|HT].
    + assert (HB : B = 0%nat) by nia.
      destruct (decide (b' = [])) as [Hb|Hb].
      * subst b'. cbn [pad_counts bind sum_counts foldr]. unfold py_div.
        destruct (Nat.eqb_spec R 0) as [HR|HR]; [lia |]. cbn [fst].
        split; [done |]. intros [[_ ?] | (_ & _ & _ & Hlen)]; [lia |].
        pose proof (proj1 Hnil eq_refl). lia.
      * rewrite pad_counts_zero by done. cbn [bind fst]. split.
        -- intros Heq. inversion Heq. right. split; [done |].
           split; [done |]. split; [done |].
           destruct (decide (2 ≤ length (deref h l))%nat); [done |].
           exfalso. apply Hb, Hnil. lia.
        -- intros [[_ ?] | [-> _]]; [lia | done].
    + rewrite pad_counts_spec by done. cbn [bind]. unfold py_div.
      destruct (Nat.eqb_spec R 0) as [HR|HR]; [nia |]. cbn [fst].
      split; [done |]. intros [[_ ?] | (_ & _ & ? & _)]; [lia | nia].
  - intros Hle. by rewrite init_refused.
  - intros Hrk B' R' rk' sh' Hrk'. rewrite !init_store by done.
    by rewrite (create_buckets_boundaries _ _ R B R' B').
Qed.

(** ** Every kept sample is served *)

Section Coverage.

Variable Generator : Type.
Variable manual_seed : Z → Generator.
Variable randperm : nat → Generator → list nat * Generator.
Hypothesis randperm_perm : ∀ n g, (randperm n g).1 ≡ₚ seq 0 n.

Local Abbreviation drawn := (drawn_indices Generator manual_seed randperm).
Local Abbreviation batches_of :=
  (rank_batches Generator manual_seed randperm).

(** The samples a rank is handed are those at the positions of its shards. *)
Lemma rank_batches_shards h ls B l R rk sh s h' e r :
  __init__ h ls B l R rk sh = (Ok s, h') → (r < R)%nat →
  concat (batches_of h ls B l R sh e r)
  ≡ₚ concat (zip_with (λ b p, pick b <$> shard R r (padded_ids R B b p))
               (buckets s) (drawn (set_epoch e s))).
Proof.
  intros Hinit Hr.
  destruct (init_same_contents h h ls B l l R rk r sh s h' eq_refl Hr Hinit)
    as (s_r & bs' & Hinit_r & -> & Hb & _ & _ & _ & _ & _ & Hsh & Hep & _ & Hrr).
  destruct (init_inv _ _ _ _ _ _ _ _ _ Hinit_r) as (b0 & b' & bs'' & _ & Hc & _).
  destruct Hc as [_ HB _ HR _ _ _ Hcons].
  pose proof (consistent_set_epoch e s_r Hcons) as Hcons'.
  destruct (iter_spec Generator manual_seed randperm randperm_perm
              (set_epoch e s_r) Hcons') as (out & Hiter & Hperm).
  { cbn [rank num_replicas set_epoch]. lia. }
  assert (Hdr : drawn (set_epoch e s_r) = drawn (set_epoch e s))
    by (by apply drawn_ext).
  unfold rank_batches. rewrite Hinit_r, Hiter. cbn [fst].
  cbn [rank num_replicas batch_size buckets set_epoch] in Hperm.
  rewrite (concat_perm _ _ Hperm), Hrr, HR, HB, Hdr, Hb.
  pose proof (drawn_valid Generator manual_seed randperm randperm_perm
                (set_epoch e s)) as Hv.
  cbn [buckets set_epoch] in Hv.
  destruct (consistent_batch _ Hcons) as [HB0 | Hnil].
  - rewrite plan_concat; [done | done | done | lia].
  - rewrite Hb in Hnil. by rewrite Hnil.
Qed.

Lemma elem_of_concat_zip_with {A} (f : list nat → list nat → list A)
    (bs ps : list (list nat)) i b p x :
  bs !! i = Some b → ps !! i = Some p → x ∈ f b p →
  x ∈ concat (zip_with f bs ps).
Proof.
  intros Hb Hp Hx. apply elem_of_concat. exists (f b p). split; [| done].
  apply list_elem_of_lookup. exists i. rewrite lookup_zip_with, Hb. simpl.
  by rewrite Hp.
Qed.


End Coverage.


(** ** How often padding repeats a sample *)

Lemma occurrences_app k l1 l2 :
  occurrences k (l1 ++ l2) = (occurrences k l1 + occurrences k l2)%nat.
Proof. unfold occurrences. by rewrite filter_app, length_app. Qed.

Lemma occurrences_repeat k l c :
  occurrences k (repeat_list l c) = (c * occurrences k l)%nat.
Proof.
  unfold repeat_list. induction c as [|c IH]; [done |].
  simpl. rewrite occurrences_app, IH. done.
Qed.

Lemma occurrences_not_in k l : k ∉ l → occurrences k l = 0%nat.
Proof.
  unfold occurrences. induction l as [|a l IH]; intros Hk; [done |].
  rewrite filter_cons_False.
  - apply IH. intros H. apply Hk. by right.
  - intros ->. apply Hk. left.
Qed.

Lemma occurrences_NoDup k l :
  NoDup l → occurrences k l = if decide (k ∈ l) then 1%nat else 0%nat.
Proof.
  induction 1 as [|a l Ha Hnd IH].
  - destruct (decide (k ∈ [])) as [H|]; [by apply elem_of_nil in H | done].
  - unfold occurrences in *. destruct (decide (a = k)) as [->|Hne].
    + rewrite filter_cons_True by done. simpl.
      fold (occurrences k l). rewrite (occurrences_not_in k l Ha).
      destruct (decide (k ∈ k :: l)) as [|Hn]; [done |].
      exfalso. apply Hn. left.
    + rewrite filter_cons_False by done. rewrite IH.
      destruct (decide (k ∈ l)) as [Hin|Hin];
        destruct (decide (k ∈ a :: l)) as [Hin'|Hin']; try done.
      * exfalso. apply Hin'. by right.
      * exfalso. apply elem_of_cons in Hin' as [->|]; done.
Qed.

Lemma pad_ids_nat (p : list nat) L nsb :
  (L ≤ nsb)%nat →
  pad_ids p L nsb
  = p ++ repeat_list p ((nsb - L) / L) ++ take ((nsb - L) mod L) p.
Proof.
  intros Hle. unfold pad_ids.
  replace (Z.of_nat nsb - Z.of_nat L) with (Z.of_nat (nsb - L)) by lia.
  by rewrite <- Nat2Z.inj_div, <- Nat2Z.inj_mod, !Nat2Z.id.
Qed.

(** X9: padding repeats the samples of a bucket evenly: in the padded
    list of a non-empty bucket of [L] samples with padded count [nsb],
    every drawn position occurs [nsb // L] times, and the first
    [nsb % L] drawn positions once more; so every sample is used at
    least once and no sample more than one time more than another. *)
Theorem padding_repeats_evenly (h : heap) (ls : list Z) (B : nat) (l : loc)
    (R rk : nat) (sh : bool) (s : Sampler) (h' : heap)
    (i : nat) (b p : list nat) (nsb k : nat) :
  __init__ h ls B l R rk sh = (Ok s, h') →
  buckets s !! i = Some b → b ≠ [] →
  num_samples_per_bucket s !! i = Some nsb →
  p ≡ₚ seq 0 (length b) → (k < length b)%nat →
  occurrences k (pad_ids p (length b) nsb)
  = (nsb / length b
     + if decide (k ∈ take (nsb mod length b) p) then 1 else 0)%nat ∧
  (1 ≤ nsb / length b)%nat.
Proof.
  intros Hinit Hb Hne Hnsb Hp Hk.
  destruct (init_inv _ _ _ _ _ _ _ _ _ Hinit) as (b0 & b' & bs' & _ & Hc & _).
  destruct Hc as [_ HB _ HR _ _ _ [Hcounts _ _ _ _]].
  rewrite Hcounts, list_lookup_fmap, Hb in Hnsb. simpl in Hnsb.
  injection Hnsb as Hn.
  set (L := length b) in *.
  assert (HL : L ≠ 0%nat) by (subst L; by destruct b).
  assert (Hle : (L ≤ nsb)%nat) by (rewrite <- Hn; apply pad_count_ge).
  assert (Hnd : NoDup p) by (rewrite Hp; apply NoDup_seq).
  assert (Hin : k ∈ p) by (rewrite Hp; apply elem_of_seq; lia).
  assert (Hdiv : ((nsb - L) / L = nsb / L - 1)%nat ∧
                 ((nsb - L) mod L = nsb mod L)%nat ∧ (1 ≤ nsb / L)%nat).
  { assert (E : nsb = ((nsb - L) + 1 * L)%nat) by lia.
    assert (E1 : (nsb / L = (nsb - L) / L + 1)%nat)
      by (rewrite E at 1; by apply Nat.div_add).
    assert (E2 : (nsb mod L = (nsb - L) mod L)%nat)
      by (rewrite E at 1; apply Nat.Div0.mod_add).
    lia. }
  destruct Hdiv as (Hd & Hm & Hq). split; [| done].
  rewrite pad_ids_nat by done.
  rewrite !occurrences_app, occurrences_repeat, Hd, Hm.
  rewrite (occurrences_NoDup k p Hnd).
  rewrite (occurrences_NoDup k (take (nsb mod L) p))
    by (eapply sublist_NoDup; [exact Hnd | apply sublist_take]).
  destruct (decide (k ∈ p)); [| done]. lia.
Qed.

Lemma padding_repeats_evenly_witness :
  let h : heap := {[ 1%positive := [32; 300; 1000] ]} in
  ∃ s h',
    __init__ h [50; 60; 70; 500] 2 1%positive 2 0 true = (Ok s, h') ∧
    buckets s !! 0%nat = Some [0; 1; 2]%nat ∧ [0; 1; 2]%nat ≠ [] ∧
    num_samples_per_bucket s !! 0%nat = Some 4%nat ∧
    [2; 0; 1]%nat ≡ₚ seq 0 (length [0; 1; 2]%nat) ∧
    (2 < length [0; 1; 2]%nat)%nat ∧
    occurrences 2 (pad_ids [2; 0; 1]%nat (length [0; 1; 2]%nat) 4)
    = (4 / length [0; 1; 2]%nat
       + if decide (2%nat ∈ take (4 mod length [0; 1; 2]%nat) [2; 0; 1]%nat)
         then 1 else 0)%nat ∧
    (1 ≤ 4 / length [0; 1; 2]%nat)%nat.
Proof.
  intros h. eexists _, _.
  split; [vm_compute; reflexivity |].
  split; [vm_compute; reflexivity |]. split; [done |].
  split; [vm_compute; reflexivity |].
  assert (Hperm : [2; 0; 1]%nat ≡ₚ seq 0 (length [0; 1; 2]%nat)).
  { simpl. etrans; [apply Permutation_swap |]. constructor.
    apply Permutation_swap. }
  split; [exact Hperm |]. split; [simpl; lia |].
  eapply (padding_repeats_evenly h [50; 60; 70; 500] 2 1%positive 2 0 true
            _ _ 0 [0; 1; 2]%nat [2; 0; 1]%nat 4 2);
    first [vm_compute; reflexivity | done | exact Hperm | simpl; lia].
Defined.

(** * Properties of the data sets *)

(** ** [_filter] *)

Lemma filter_loop_spec (World Scalar : Type)
    (getsize : string → World → io_result Z)
    (audiopath_of : list string → io_result string)
    (hp : HParams Scalar) (w : World) : ∀ rows acc ls,
  filter_loop World Scalar getsize audiopath_of hp rows w acc = IoOk ls →
  ∃ ls', ls = acc ++ ls' ∧ length ls' = length rows ∧
    ∀ i row, rows !! i = Some row →
      ∃ a size, audiopath_of row = IoOk a ∧ getsize a w = IoOk size ∧
        hop_length Scalar hp ≠ 0 ∧
        ls' !! i = Some (size / (2 * hop_length Scalar hp)).
Proof.
  induction rows as [|row rows IH]; intros acc ls H.
  - cbn in H. inversion H; subst. exists []. rewrite app_nil_r.
    split; [done |]. split; [done |]. intros i row Hi.
    by rewrite lookup_nil in Hi.
  - cbn [filter_loop] in H.
    destruct (audiopath_of row) as [a|] eqn:Ha; [| done]. cbn [io_bind] in H.
    destruct (getsize a w) as [size|] eqn:Hs; [| done]. cbn [io_bind] in H.
    unfold py_floordiv in H.
    destruct (Z.eqb_spec (2 * hop_length Scalar hp) 0) as [|Hhop]; [done |].
    cbn [io_bind] in H.
    destruct (IH _ _ H) as (ls' & -> & Hlen & Hrows).
    exists (size / (2 * hop_length Scalar hp) :: ls').
    split; [by rewrite <- app_assoc |]. split; [simpl; lia |].
    intros [|i] r Hi; simpl in Hi.
    + inversion Hi; subst r. exists a, size. split_and!; try done. lia.
    + by apply Hrows.
Qed.

(** X10: when [TextAudioSpeakerLoader._filter] returns, [self.lengths]
    has one entry per row, in row order: every row has exactly five
    fields, its audio file has a size, [hop_length] is not 0 (when there
    is a row), and the entry is [size // (2 * hop_length)]; the rows are
    unchanged. *)
Theorem speaker_filter_lengths (World Scalar : Type)
    (getsize : string → World → io_result Z)
    (self self' : TextAudioSpeakerLoader.t Scalar) (w : World) :
  TextAudioSpeakerLoader._filter World Scalar getsize self w = IoOk self' →
  TextAudioSpeakerLoader.audiopaths_sid_text Scalar self'
  = TextAudioSpeakerLoader.audiopaths_sid_text Scalar self ∧
  length (TextAudioSpeakerLoader.lengths Scalar self')
  = TextAudioSpeakerLoader.__len__ Scalar self' ∧
  ∀ i row,
    TextAudioSpeakerLoader.audiopaths_sid_text Scalar self !! i = Some row →
    ∃ audiopath sid text pitch last size,
      row = [audiopath; sid; text; pitch; last] ∧
      getsize audiopath w = IoOk size ∧
      hop_length Scalar (TextAudioSpeakerLoader.hparams Scalar self) ≠ 0 ∧
      TextAudioSpeakerLoader.lengths Scalar self' !! i
      = Some (size / (2 * hop_length Scalar
                             (TextAudioSpeakerLoader.hparams Scalar self))).
Proof.
  unfold TextAudioSpeakerLoader._filter. intros H.
  destruct (filter_loop _ _ _ _ _ _ _ _) as [ls|] eqn:Hloop; [| done].
  cbn [io_bind] in H. inversion H; subst self'. clear H.
  destruct (filter_loop_spec _ _ _ _ _ _ _ _ _ Hloop) as (ls' & -> & Hlen & Hrows).
  cbn. split; [done |]. split; [done |]. intros i row Hi.
  destruct (Hrows i row Hi) as (a & size & Ha & Hs & Hhop & Hl).
  unfold TextAudioSpeakerLoader.unpack in Ha.
  destruct row as [|f0 [|f1 [|f2 [|f3 [|f4 [|f5 row]]]]]]; try done.
  inversion Ha; subst a. exists f0, f1, f2, f3, f4, size. by split_and!.
Qed.

(** X11: the same for [TextAudioLoader._filter], whose rows have exactly
    three fields. *)
Theorem plain_filter_lengths (World Scalar : Type)
    (getsize : string → World → io_result Z)
    (self self' : TextAudioLoader.t Scalar) (w : World) :
  TextAudioLoader._filter World Scalar getsize self w = IoOk self' →
  TextAudioLoader.audiopaths_and_text Scalar self'
  = TextAudioLoader.audiopaths_and_text Scalar self ∧
  length (TextAudioLoader.lengths Scalar self')
  = TextAudioLoader.__len__ Scalar self' ∧
  ∀ i row,
    TextAudioLoader.audiopaths_and_text Scalar self !! i = Some row →
    ∃ audiopath text pitch size,
      row = [audiopath; text; pitch] ∧
      getsize audiopath w = IoOk size ∧
      hop_length Scalar (TextAudioLoader.hparams Scalar self) ≠ 0 ∧
      TextAudioLoader.lengths Scalar self' !! i
      = Some (size / (2 * hop_length Scalar
                             (TextAudioLoader.hparams Scalar self))).
Proof.
  unfold TextAudioLoader._filter. intros H.
  destruct (filter_loop _ _ _ _ _ _ _ _) as [ls|] eqn:Hloop; [| done].
  cbn [io_bind] in H. inversion H; subst self'. clear H.
  destruct (filter_loop_spec _ _ _ _ _ _ _ _ _ Hloop) as (ls' & -> & Hlen & Hrows).
  cbn. split; [done |]. split; [done |]. intros i row Hi.
  destruct (Hrows i row Hi) as (a & size & Ha & Hs & Hhop & Hl).
  unfold TextAudioLoader.unpack in Ha.
  destruct row as [|f0 [|f1 [|f2 [|f3 row]]]]; try done.
  inversion Ha; subst a. exists f0, f1, f2, size. by split_and!.
Qed.

Lemma speaker_filter_lengths_witness :
  let w : gmap string file :=
    {[ "a.wav" := AudioFile [1; 2; 3; 4; 5; 6; 7; 8] 44100 ]} in
  let self :=
    TextAudioSpeakerLoader.mk Z [["a.wav"; "0"; "a.soft.pt"; "a.f0.pt"; "x"]]
      (mkHParams Z 32768 44100 1280 2 1280) [] in
  ∃ self',
    TextAudioSpeakerLoader._filter (gmap string file) Z toy_getsize self w
    = IoOk self' ∧
    TextAudioSpeakerLoader.lengths Z self' = [4] ∧
    TextAudioSpeakerLoader.audiopaths_sid_text Z self'
    = TextAudioSpeakerLoader.audiopaths_sid_text Z self ∧
    length (TextAudioSpeakerLoader.lengths Z self')
    = TextAudioSpeakerLoader.__len__ Z self' ∧
    ∀ i row,
      TextAudioSpeakerLoader.audiopaths_sid_text Z self !! i = Some row →
      ∃ audiopath sid text pitch last size,
        row = [audiopath; sid; text; pitch; last] ∧
        toy_getsize audiopath w = IoOk size ∧
        hop_length Z (TextAudioSpeakerLoader.hparams Z self) ≠ 0 ∧
        TextAudioSpeakerLoader.lengths Z self' !! i
        = Some (size / (2 * hop_length Z (TextAudioSpeakerLoader.hparams Z self))).
Proof.
  intros w self. eexists.
  split; [vm_compute; reflexivity |].
  split; [vm_compute; reflexivity |].
  eapply (speaker_filter_lengths (gmap string file) Z toy_getsize self _ w).
  vm_compute; reflexivity.
Defined.

Lemma plain_filter_lengths_witness :
  let w : gmap string file :=
    {[ "a.wav" := AudioFile [1; 2; 3; 4; 5; 6; 7; 8] 44100 ]} in
  let self :=
    TextAudioLoader.mk Z [["a.wav"; "a.soft.npy"; "a.f0.pt"]]
      (mkHParams Z 32768 44100 1280 2 1280) [] in
  ∃ self',
    TextAudioLoader._filter (gmap string file) Z toy_getsize self w
    = IoOk self' ∧
    TextAudioLoader.lengths Z self' = [4] ∧
    TextAudioLoader.audiopaths_and_text Z self'
    = TextAudioLoader.audiopaths_and_text Z self ∧
    length (TextAudioLoader.lengths Z self')
    = TextAudioLoader.__len__ Z self' ∧
    ∀ i row,
      TextAudioLoader.audiopaths_and_text Z self !! i = Some row →
      ∃ audiopath text pitch size,
        row = [audiopath; text; pitch] ∧
        toy_getsize audiopath w = IoOk size ∧
        hop_length Z (TextAudioLoader.hparams Z self) ≠ 0 ∧
        TextAudioLoader.lengths Z self' !! i
        = Some (size / (2 * hop_length Z (TextAudioLoader.hparams Z self))).
Proof.
  intros w self. eexists.
  split; [vm_compute; reflexivity |].
  split; [vm_compute; reflexivity |].
  eapply (plain_filter_lengths (gmap string file) Z toy_getsize self _ w).
  vm_compute; reflexivity.
Defined.

(** ** The sampler over a data set *)

Section SamplerOverDataset.

Variable Generator : Type.
Variable manual_seed : Z → Generator.
Variable randperm : nat → Generator → list nat * Generator.

Variable World : Type.
Variable Tensor : Type.
Variable Scalar : Type.
Variable getsize : string → World → io_result Z.
Variable path_exists : string → World → bool.
Variable torch_load : string → World → io_result Tensor.
Variable torch_save : Tensor → string → World → option io_exn * World.
Variable load_wav_to_torch : string → bool → World → io_result (Tensor * Z).
Variable spectrogram_torch :
  Tensor → Z → Z → Z → Z → bool → io_result Tensor.
Variable tensor_div : Tensor → Scalar → Tensor.
Variable unsqueeze : Tensor → Z → Tensor.
Variable squeeze : Tensor → Z → Tensor.
Variable int_of_str : string → io_result Z.
Variable LongTensor : list Z → Tensor.

Local Abbreviation getitem_speaker :=
  (TextAudioSpeakerLoader.__getitem__ World Tensor Scalar path_exists
     torch_load torch_save load_wav_to_torch spectrogram_torch tensor_div
     unsqueeze squeeze int_of_str LongTensor).
Local Abbreviation pair_speaker :=
  (TextAudioSpeakerLoader.get_audio_text_speaker_pair World Tensor Scalar
     path_exists torch_load torch_save load_wav_to_torch spectrogram_torch
     tensor_div unsqueeze squeeze int_of_str LongTensor).

(** Whatever the generator draws, an index handed out by [__iter__] is an
    index of the list of lengths the sampler was built from. *)
Lemma batch_index_in_range h ls B l R rk sh s h' e out batch n :
  __init__ h ls B l R rk sh = (Ok s, h') →
  (__iter__ Generator manual_seed randperm (set_epoch e s)).1 = Ok out →
  batch ∈ out → n ∈ batch → (n < length ls)%nat.
Proof.
  intros Hinit Hout Hbatch Hn.
  destruct (init_inv _ _ _ _ _ _ _ _ _ Hinit) as (b0 & b' & bs' & Hcr & Hc & _).
  destruct (iter_elem _ _ _ _ _ _ _ Hout Hbatch Hn) as (b & Hb & Hmem).
  cbn [buckets set_epoch] in Hb.
  rewrite (constructed_buckets _ _ _ _ _ _ _ _ Hc) in Hb.
  apply (sublist_subseteq _ _ (created_sub _ _ _ _ _ Hcr)) in Hb.
  apply list_elem_of_lookup in Hb as [i Hb].
  apply (created_member _ _ _ _ _ Hcr i b Hb) in Hmem as (len & Hlen & _).
  by apply lookup_lt_Some in Hlen.
Qed.

(** X12: a sampler built from the lengths that [_filter] stored hands
    out only indices of the data set: for every index of every batch,
    [__getitem__] finds the row, the row has the four fields
    [get_audio_text_speaker_pair] reads (and a fifth), so neither the row
    nor a field is out of range. *)
Theorem sampler_indices_are_rows
    (self data : TextAudioSpeakerLoader.t Scalar) (w : World)
    (h : heap) (B : nat) (l : loc) (R rk : nat) (sh : bool)
    (s : Sampler) (h' : heap) (e : Z)
    (out : list (list nat)) (batch : list nat) (n : nat) :
  TextAudioSpeakerLoader._filter World Scalar getsize self w = IoOk data →
  __init__ h (TextAudioSpeakerLoader.lengths Scalar data) B l R rk sh
  = (Ok s, h') →
  (__iter__ Generator manual_seed randperm (set_epoch e s)).1 = Ok out →
  batch ∈ out → n ∈ batch →
  (n < TextAudioSpeakerLoader.__len__ Scalar data)%nat ∧
  ∃ audiopath sid text pitch last,
    TextAudioSpeakerLoader.audiopaths_sid_text Scalar data !! n
    = Some [audiopath; sid; text; pitch; last] ∧
    ∀ w', getitem_speaker data n w'
          = pair_speaker data [audiopath; sid; text; pitch; last] w'.
Proof.
  intros Hfilter Hinit Hout Hbatch Hn.
  pose proof (batch_index_in_range _ _ _ _ _ _ _ _ _ _ _ _ _
                Hinit Hout Hbatch Hn) as Hlt.
  unfold TextAudioSpeakerLoader._filter in Hfilter.
  destruct (filter_loop _ _ _ _ _ _ _ _) as [ls|] eqn:Hloop; [| done].
  cbn [io_bind] in Hfilter. inversion Hfilter; subst data. clear Hfilter.
  destruct (filter_loop_spec _ _ _ _ _ _ _ _ _ Hloop) as (ls' & -> & Hlen & Hrows).
  cbn in *. split; [lia |].
  destruct (lookup_lt_is_Some_2
              (TextAudioSpeakerLoader.audiopaths_sid_text Scalar self) n)
    as [row Hrow]; [lia |].
  destruct (Hrows n row Hrow) as (a & size & Ha & _).
  unfold TextAudioSpeakerLoader.unpack in Ha.
  destruct row as [|f0 [|f1 [|f2 [|f3 [|f4 [|f5 row]]]]]]; try done.
  exists f0, f1, f2, f3, f4. split; [done |]. intros w'.
  unfold TextAudioSpeakerLoader.__getitem__. cbn. by rewrite Hrow.
Qed.

End SamplerOverDataset.

Lemma sampler_indices_are_rows_witness :
  let w : gmap string file :=
    {[ "a.wav" := AudioFile (replicate 400 0) 44100 ]} in
  let self :=
    TextAudioSpeakerLoader.mk Z [["a.wav"; "0"; "a.soft.pt"; "a.f0.pt"; "x"]]
      (mkHParams Z 32768 44100 1280 2 1280) [] in
  let h : heap := {[ 1%positive := [32; 300; 1000] ]} in
  ∃ data s h',
    TextAudioSpeakerLoader._filter (gmap string file) Z toy_getsize self w
    = IoOk data ∧
    __init__ h (TextAudioSpeakerLoader.lengths Z data) 1 1%positive 1 0 false
    = (Ok s, h') ∧
    (__iter__ Z lcg_seed lcg_randperm (set_epoch 0 s)).1 = Ok [[0%nat]] ∧
    [0%nat] ∈ [[0%nat]] ∧ 0%nat ∈ [0%nat] ∧
    (0 < TextAudioSpeakerLoader.__len__ Z data)%nat ∧
    ∃ audiopath sid text pitch last,
      TextAudioSpeakerLoader.audiopaths_sid_text Z data !! 0%nat
      = Some [audiopath; sid; text; pitch; last] ∧
      ∀ w',
        TextAudioSpeakerLoader.__getitem__ (gmap string file) (list Z) Z
          toy_exists toy_load toy_save toy_load_wav toy_spectrogram toy_div
          toy_reshape toy_reshape toy_int toy_long data 0 w'
        = TextAudioSpeakerLoader.get_audio_text_speaker_pair
            (gmap string file) (list Z) Z
            toy_exists toy_load toy_save toy_load_wav toy_spectrogram toy_div
            toy_reshape toy_reshape toy_int toy_long data
            [audiopath; sid; text; pitch; last] w'.
Proof.
  intros w self h. eexists _, _, _.
  split; [vm_compute; reflexivity |].
  split; [vm_compute; reflexivity |].
  split; [vm_compute; reflexivity |].
  split; [left |]. split; [left |].
  eapply (sampler_indices_are_rows Z lcg_seed lcg_randperm
            (gmap string file) (list Z) Z toy_getsize
            toy_exists toy_load toy_save toy_load_wav toy_spectrogram toy_div
            toy_reshape toy_reshape toy_int toy_long
            self _ w h 1 1%positive 1 0 false _ _ 0 [[0%nat]] [0%nat] 0);
    first [vm_compute; reflexivity | left].
Defined.

(** ** [get_audio] *)

Lemma prefix_app (a s : string) :
  String.prefix a s = true → ∃ r, s = a +:+ r.
Proof.
  revert s. induction a as [|c a IH]; intros s H.
  - by exists s.
  - destruct s as [|d s]; [done |]. simpl in H.
    destruct (ascii_dec c d) as [->|]; [| done].
    destruct (IH s H) as [r ->]. by exists r.
Qed.

Lemma occurs_cons c pat s : occurs pat s → occurs pat (String c s).
Proof. intros (a & b & ->). by exists (String c a), b. Qed.

Lemma replace_from_absent (old new : string) (s : string) :
  ¬ occurs old s → replace_from old new 0 s = s.
Proof.
  induction s as [|c s IH]; intros H; [done |].
  cbn [replace_from].
  destruct (String.prefix old (String c s)) eqn:Hp.
  - exfalso. apply H. apply prefix_app in Hp as [r ->].
    by exists EmptyString, r.
  - f_equal. apply IH. intros Ho. by apply H, occurs_cons.
Qed.

Lemma replace_wav_suffix (stem : string) :
  ¬ occurs ".wav" stem →
  str_replace (stem +:+ ".wav") ".wav" ".spec.pt" = stem +:+ ".spec.pt".
Proof.
  unfold str_replace. induction stem as [|c stem IH]; intros H; [done |].
  change (String c stem +:+ ".wav") with (String c (stem +:+ ".wav")).
  change (String c stem +:+ ".spec.pt") with (String c (stem +:+ ".spec.pt")).
  cbn [replace_from].
  destruct (String.prefix ".wav" (String c (stem +:+ ".wav"))) eqn:Hp.
  - exfalso. apply prefix_app in Hp as [r Hr]. simpl in Hr.
    injection Hr as -> Hr.
    destruct stem as [|c1 stem]; [done |]. simpl in Hr. injection Hr as -> Hr.
    destruct stem as [|c2 stem]; [done |]. simpl in Hr. injection Hr as -> Hr.
    destruct stem as [|c3 stem]; [done |]. simpl in Hr. injection Hr as -> Hr.
    apply H. by exists EmptyString, stem.
  - f_equal. apply IH. intros Ho. by apply H, occurs_cons.
Qed.

Section GetAudio.

Variable World : Type.
Variable Tensor : Type.
Variable Scalar : Type.
Variable path_exists : string → World → bool.
Variable torch_load : string → World → io_result Tensor.
Variable torch_save : Tensor → string → World → option io_exn * World.
Variable load_wav_to_torch : string → bool → World → io_result (Tensor * Z).
Variable spectrogram_torch :
  Tensor → Z → Z → Z → Z → bool → io_result Tensor.
Variable tensor_div : Tensor → Scalar → Tensor.
Variable unsqueeze : Tensor → Z → Tensor.
Variable squeeze : Tensor → Z → Tensor.

Local Abbreviation get_audio_plain :=
  (TextAudioLoader.get_audio World Tensor Scalar path_exists torch_load
     torch_save load_wav_to_torch spectrogram_torch tensor_div unsqueeze
     squeeze).
Local Abbreviation get_audio_speaker :=
  (TextAudioSpeakerLoader.get_audio World Tensor Scalar path_exists torch_load
     torch_save load_wav_to_torch spectrogram_torch tensor_div unsqueeze
     squeeze).

(** X13: when the sampling rate of the file is not the configured one,
    [TextAudioSpeakerLoader.get_audio] raises [ValueError], but
    [TextAudioLoader.get_audio] raises [IndexError]: its message has three
    fields and two arguments, so building it fails first.  Neither touches
    the file system. *)
Theorem sampling_rate_mismatch
    (plain : TextAudioLoader.t Scalar)
    (speaker : TextAudioSpeakerLoader.t Scalar)
    (filename : string) (w : World) (audio : Tensor) (rate : Z) :
  load_wav_to_torch filename false w = IoOk (audio, rate) →
  rate ≠ sampling_rate Scalar (TextAudioLoader.hparams Scalar plain) →
  rate ≠ sampling_rate Scalar (TextAudioSpeakerLoader.hparams Scalar speaker) →
  get_audio_plain plain filename w = (IoRaise (Py IndexError), w) ∧
  get_audio_speaker speaker filename w = (IoRaise (Py ValueError), w).
Proof.
  intros Hload Hp Hs.
  unfold TextAudioLoader.get_audio, TextAudioSpeakerLoader.get_audio.
  rewrite Hload. split.
  - destruct (Z.eqb_spec rate
                (sampling_rate Scalar (TextAudioLoader.hparams Scalar plain)));
      [done |]. reflexivity.
  - destruct (Z.eqb_spec rate
                (sampling_rate Scalar
                   (TextAudioSpeakerLoader.hparams Scalar speaker)));
      [done |]. reflexivity.
Qed.

(** X14: the cached spectrogram is looked for under the file name with
    every [".wav"] replaced by [".spec.pt"].  For a file name without
    [".wav"] that is the audio file itself: when it exists, [get_audio]
    computes and saves nothing and reads the audio file as if it were a
    stored spectrogram. *)
Theorem spec_path_without_wav
    (speaker : TextAudioSpeakerLoader.t Scalar)
    (filename : string) (w : World) (audio : Tensor) :
  ¬ occurs ".wav" filename →
  load_wav_to_torch filename false w
  = IoOk (audio, sampling_rate Scalar
                   (TextAudioSpeakerLoader.hparams Scalar speaker)) →
  path_exists filename w = true →
  str_replace filename ".wav" ".spec.pt" = filename ∧
  get_audio_speaker speaker filename w
  = (match torch_load filename w with
     | IoOk spec =>
       IoOk (spec,
             unsqueeze
               (tensor_div audio
                  (max_wav_value Scalar
                     (TextAudioSpeakerLoader.hparams Scalar speaker))) 0)
     | IoRaise e => IoRaise e
     end, w).
Proof.
  intros Habs Hload Hex.
  assert (Hname : str_replace filename ".wav" ".spec.pt" = filename)
    by (by apply replace_from_absent).
  split; [done |].
  unfold TextAudioSpeakerLoader.get_audio. rewrite Hload, Z.eqb_refl.
  cbn [negb]. unfold load_or_make_spec. rewrite Hname, Hex.
  by destruct (torch_load filename w).
Qed.

(** What the file system is assumed to do: a stored tensor exists and
    loads back, and storing leaves other audio files alone. *)
Hypothesis save_exists : ∀ t p w w',
  torch_save t p w = (None, w') → path_exists p w' = true.
Hypothesis save_load : ∀ t p w w',
  torch_save t p w = (None, w') → torch_load p w' = IoOk t.
Hypothesis save_frame : ∀ t p w w' q b,
  torch_save t p w = (None, w') → q ≠ p →
  load_wav_to_torch q b w' = load_wav_to_torch q b w.

(** X15: the spectrogram cache: after [get_audio] has returned for a
    file whose cache path differs from the file itself, the cache file
    exists and holds the returned spectrogram, and calling [get_audio]
    again returns the same pair and leaves the file system as it is; for
    [stem + ".wav"] with no other [".wav"] the cache file is
    [stem + ".spec.pt"]. *)
Theorem spectrogram_cache_round_trip
    (speaker : TextAudioSpeakerLoader.t Scalar)
    (filename : string) (w w' : World) (spec wav : Tensor) :
  get_audio_speaker speaker filename w = (IoOk (spec, wav), w') →
  str_replace filename ".wav" ".spec.pt" ≠ filename →
  path_exists (str_replace filename ".wav" ".spec.pt") w' = true ∧
  torch_load (str_replace filename ".wav" ".spec.pt") w' = IoOk spec ∧
  get_audio_speaker speaker filename w' = (IoOk (spec, wav), w') ∧
  (∀ stem, filename = stem +:+ ".wav" → ¬ occurs ".wav" stem →
     str_replace filename ".wav" ".spec.pt" = stem +:+ ".spec.pt").
Proof.
  intros Hget Hne.
  split_and!; [| | | intros stem -> Hs; by apply replace_wav_suffix].
  all: unfold TextAudioSpeakerLoader.get_audio in *.
  all: destruct (load_wav_to_torch filename false w) as [[audio rate]|] eqn:Hload;
    [| done].
  all: destruct (Z.eqb_spec rate
         (sampling_rate Scalar (TextAudioSpeakerLoader.hparams Scalar speaker)))
    as [Hrate|Hrate]; cbn [negb] in Hget;
    [| unfold raise_value_error in Hget;
       by destruct (format _ _) in Hget].
  all: unfold load_or_make_spec in *.
  all: set (sf := str_replace filename ".wav" ".spec.pt") in *.
  all: destruct (path_exists sf w) eqn:Hex.
  - destruct (torch_load sf w) eqn:Hl; [| done].
    by inversion Hget; subst.
  - destruct (spectrogram_torch _ _ _ _ _ _) as [sp|]; [| done].
    destruct (torch_save (squeeze sp 0) sf w) as [[e|] w1] eqn:Hsave; [done |].
    inversion Hget; subst. eapply save_exists; eauto.
  - destruct (torch_load sf w) eqn:Hl; [| done].
    by inversion Hget; subst.
  - destruct (spectrogram_torch _ _ _ _ _ _) as [sp|]; [| done].
    destruct (torch_save (squeeze sp 0) sf w) as [[e|] w1] eqn:Hsave; [done |].
    inversion Hget; subst. eapply save_load; eauto.
  - destruct (torch_load sf w) eqn:Hl; [| done].
    inversion Hget; subst. rewrite Hload, Z.eqb_refl. cbn [negb].
    by rewrite Hex, Hl.
  - destruct (spectrogram_torch _ _ _ _ _ _) as [sp|]; [| done].
    destruct (torch_save (squeeze sp 0) sf w) as [[e|] w1] eqn:Hsave; [done |].
    inversion Hget; subst.
    rewrite (save_frame _ _ _ _ filename false Hsave) by done.
    rewrite Hload, Z.eqb_refl. cbn [negb].
    rewrite (save_exists _ _ _ _ Hsave), (save_load _ _ _ _ Hsave). done.
Qed.

End GetAudio.

Lemma sampling_rate_mismatch_witness :
  let w : gmap string file :=
    {[ "a.wav" := AudioFile [1; 2; 3; 4] 22050 ]} in
  let hp := mkHParams Z 32768 44100 1280 2 1280 in
  let plain := TextAudioLoader.mk Z [["a.wav"; "a.soft.npy"; "a.f0.pt"]] hp [] in
  let speaker :=
    TextAudioSpeakerLoader.mk Z [["a.wav"; "0"; "a.soft.pt"; "a.f0.pt"; "x"]]
      hp [] in
  toy_load_wav "a.wav" false w = IoOk ([1; 2; 3; 4], 22050) ∧
  TextAudioLoader.get_audio (gmap string file) (list Z) Z toy_exists toy_load
    toy_save toy_load_wav toy_spectrogram toy_div toy_reshape toy_reshape
    plain "a.wav" w
  = (IoRaise (Py IndexError), w) ∧
  TextAudioSpeakerLoader.get_audio (gmap string file) (list Z) Z toy_exists
    toy_load toy_save toy_load_wav toy_spectrogram toy_div toy_reshape
    toy_reshape speaker "a.wav" w
  = (IoRaise (Py ValueError), w).
Proof.
  intros w hp plain speaker. split; [vm_compute; reflexivity |].
  apply (sampling_rate_mismatch (gmap string file) (list Z) Z toy_exists
           toy_load toy_save toy_load_wav toy_spectrogram toy_div toy_reshape
           toy_reshape plain speaker "a.wav" w [1; 2; 3; 4] 22050);
    [vm_compute; reflexivity | vm_compute; discriminate
    | vm_compute; discriminate].
Defined.

Lemma spec_path_without_wav_witness :
  let w : gmap string file :=
    {[ "a.flac" := AudioFile [32768; 65536] 44100 ]} in
  let speaker :=
    TextAudioSpeakerLoader.mk Z [["a.flac"; "0"; "a.soft.pt"; "a.f0.pt"; "x"]]
      (mkHParams Z 32768 44100 1280 2 1280) [] in
  str_replace "a.flac" ".wav" ".spec.pt" = "a.flac" ∧
  TextAudioSpeakerLoader.get_audio (gmap string file) (list Z) Z toy_exists
    toy_load toy_save toy_load_wav toy_spectrogram toy_div toy_reshape
    toy_reshape speaker "a.flac" w
  = (IoRaise OSError, w).
Proof.
  intros w speaker.
  apply (spec_path_without_wav (gmap string file) (list Z) Z toy_exists
           toy_load toy_save toy_load_wav toy_spectrogram toy_div toy_reshape
           toy_reshape speaker "a.flac" w [32768; 65536]).
  - intros (a & b & H).
    do 7 (destruct a as [|? a]; [simpl in H; discriminate H |]).
    simpl in H. discriminate H.
  - vm_compute; reflexivity.
  - vm_compute; reflexivity.
Defined.

Lemma toy_save_exists (t : list Z) (p : string) (w w' : gmap string file) :
  toy_save t p w = (None, w') → toy_exists p w' = true.
Proof.
  unfold toy_save, toy_exists. intros [= <-].
  apply bool_decide_eq_true. rewrite lookup_insert_eq. by eexists.
Qed.

Lemma toy_save_load (t : list Z) (p : string) (w w' : gmap string file) :
  toy_save t p w = (None, w') → toy_load p w' = IoOk t.
Proof.
  unfold toy_save, toy_load. intros [= <-]. by rewrite lookup_insert_eq.
Qed.

Lemma toy_save_frame (t : list Z) (p : string) (w w' : gmap string file)
    (q : string) (b : bool) :
  toy_save t p w = (None, w') → q ≠ p →
  toy_load_wav q b w' = toy_load_wav q b w.
Proof.
  unfold toy_save, toy_load_wav. intros [= <-] Hq.
  by rewrite lookup_insert_ne.
Qed.

Lemma spectrogram_cache_round_trip_witness :
  let w : gmap string file :=
    {[ "a.wav" := AudioFile [32768; 65536; 0; 32768] 44100 ]} in
  let w' : gmap string file := <["a.spec.pt" := TensorFile [1; 2]]> w in
  let speaker :=
    TextAudioSpeakerLoader.mk Z [["a.wav"; "0"; "a.soft.pt"; "a.f0.pt"; "x"]]
      (mkHParams Z 32768 44100 1280 2 1280) [] in
  TextAudioSpeakerLoader.get_audio (gmap string file) (list Z) Z toy_exists
    toy_load toy_save toy_load_wav toy_spectrogram toy_div toy_reshape
    toy_reshape speaker "a.wav" w
  = (IoOk ([1; 2], [1; 2; 0; 1]), w') ∧
  str_replace "a.wav" ".wav" ".spec.pt" = "a.spec.pt" ∧
  toy_exists (str_replace "a.wav" ".wav" ".spec.pt") w' = true ∧
  toy_load (str_replace "a.wav" ".wav" ".spec.pt") w' = IoOk [1; 2] ∧
  TextAudioSpeakerLoader.get_audio (gmap string file) (list Z) Z toy_exists
    toy_load toy_save toy_load_wav toy_spectrogram toy_div toy_reshape
    toy_reshape speaker "a.wav" w'
  = (IoOk ([1; 2], [1; 2; 0; 1]), w') ∧
  (∀ stem, "a.wav" = stem +:+ ".wav" → ¬ occurs ".wav" stem →
     str_replace "a.wav" ".wav" ".spec.pt" = stem +:+ ".spec.pt").
Proof.
  intros w w' speaker.
  split; [vm_compute; reflexivity |]. split; [vm_compute; reflexivity |].
  apply (spectrogram_cache_round_trip (gmap string file) (list Z) Z toy_exists
           toy_load toy_save toy_load_wav toy_spectrogram toy_div toy_reshape
           toy_reshape toy_save_exists toy_save_load toy_save_frame
           speaker "a.wav" w w' [1; 2] [1; 2; 0; 1]);
    [vm_compute; reflexivity | vm_compute; discriminate].
Defined.

(** ** [__getitem__] *)

Section GetItem.

Variable World : Type.
Variable Tensor : Type.
Variable Scalar : Type.
Variable path_exists : string → World → bool.
Variable torch_load : string → World → io_result Tensor.
Variable torch_save : Tensor → string → World → option io_exn * World.
Variable load_wav_to_torch : string → bool → World → io_result (Tensor * Z).
Variable spectrogram_torch :
  Tensor → Z → Z → Z → Z → bool → io_result Tensor.
Variable tensor_div : Tensor → Scalar → Tensor.
Variable unsqueeze : Tensor → Z → Tensor.
Variable squeeze : Tensor → Z → Tensor.
Variable int_of_str : string → io_result Z.
Variable LongTensor : list Z → Tensor.

Local Abbreviation get_audio_speaker :=
  (TextAudioSpeakerLoader.get_audio World Tensor Scalar path_exists torch_load
     torch_save load_wav_to_torch spectrogram_torch tensor_div unsqueeze
     squeeze).
Local Abbreviation getitem_speaker :=
  (TextAudioSpeakerLoader.__getitem__ World Tensor Scalar path_exists
     torch_load torch_save load_wav_to_torch spectrogram_torch tensor_div
     unsqueeze squeeze int_of_str LongTensor).

(** What the file system is assumed to do: a stored tensor exists and
    loads back, and storing leaves the other files alone. *)
Hypothesis save_exists : ∀ t p w w',
  torch_save t p w = (None, w') → path_exists p w' = true.
Hypothesis save_load : ∀ t p w w',
  torch_save t p w = (None, w') → torch_load p w' = IoOk t.
Hypothesis save_frame_wav : ∀ t p w w' q b,
  torch_save t p w = (None, w') → q ≠ p →
  load_wav_to_torch q b w' = load_wav_to_torch q b w.
Hypothesis save_frame_load : ∀ t p w w' q,
  torch_save t p w = (None, w') → q ≠ p →
  torch_load q w' = torch_load q w.

(** A successful [get_audio] either leaves the file system alone or
    stores one tensor at the cache path, and can be repeated. *)
Lemma get_audio_again (speaker : TextAudioSpeakerLoader.t Scalar)
    (filename : string) (w w' : World) (spec wav : Tensor) :
  get_audio_speaker speaker filename w = (IoOk (spec, wav), w') →
  str_replace filename ".wav" ".spec.pt" ≠ filename →
  get_audio_speaker speaker filename w' = (IoOk (spec, wav), w') ∧
  (w' = w ∨
   ∃ t, torch_save t (str_replace filename ".wav" ".spec.pt") w = (None, w')).
Proof.
  intros Hget Hne.
  unfold TextAudioSpeakerLoader.get_audio in *.
  destruct (load_wav_to_torch filename false w) as [[audio rate]|] eqn:Hload;
    [| done].
  destruct (Z.eqb_spec rate
         (sampling_rate Scalar (TextAudioSpeakerLoader.hparams Scalar speaker)))
    as [Hrate|Hrate]; cbn [negb] in Hget;
    [| unfold raise_value_error in Hget;
       by destruct (format _ _) in Hget].
  unfold load_or_make_spec in *.
  set (sf := str_replace filename ".wav" ".spec.pt") in *.
  destruct (path_exists sf w) eqn:Hex.
  - destruct (torch_load sf w) eqn:Hl; [| done].
    inversion Hget; subst. split; [| by left].
    rewrite Hload, Z.eqb_refl. cbn [negb]. by rewrite Hex, Hl.
  - destruct (spectrogram_torch _ _ _ _ _ _) as [sp|]; [| done].
    destruct (torch_save (squeeze sp 0) sf w) as [[e|] w1] eqn:Hsave; [done |].
    inversion Hget; subst. split; [| right; by eexists].
    rewrite (save_frame_wav _ _ _ _ filename false Hsave) by done.
    rewrite Hload, Z.eqb_refl. cbn [negb].
    by rewrite (save_exists _ _ _ _ Hsave), (save_load _ _ _ _ Hsave).
Qed.

(** X16: [__getitem__] can be repeated: when it has returned an item for
    a row whose content and pitch files are not the cache file of its
    audio file, a second call returns the same item and changes nothing
    in the file system (the spectrogram now comes from the cache). *)
Theorem getitem_repeatable (data : TextAudioSpeakerLoader.t Scalar)
    (index : nat) (audiopath sid text pitch : string) (rest : list string)
    (w w' : World) (item : Tensor * Tensor * Tensor * Tensor * Tensor) :
  TextAudioSpeakerLoader.audiopaths_sid_text Scalar data !! index
  = Some (audiopath :: sid :: text :: pitch :: rest) →
  str_replace audiopath ".wav" ".spec.pt" ≠ audiopath →
  text ≠ str_replace audiopath ".wav" ".spec.pt" →
  pitch ≠ str_replace audiopath ".wav" ".spec.pt" →
  getitem_speaker data index w = (IoOk item, w') →
  getitem_speaker data index w' = (IoOk item, w').
Proof.
  intros Hrow Hne Htext Hpitch.
  unfold TextAudioSpeakerLoader.__getitem__. rewrite Hrow.
  unfold TextAudioSpeakerLoader.get_audio_text_speaker_pair, field.
  cbn [lookup list_lookup].
  unfold TextAudioSpeakerLoader.get_text, TextAudioSpeakerLoader.get_pitch.
  intros Hget.
  destruct (torch_load text w) as [t|] eqn:Ht; [| done].
  destruct (get_audio_speaker data audiopath w) as [[[spec wav]|] w1]
    eqn:Ha; [| done].
  destruct (TextAudioSpeakerLoader.get_sid _ _ _ _) as [s|] eqn:Hs; [| done].
  destruct (torch_load pitch w1) as [p|] eqn:Hp; [| done].
  injection Hget as <- <-.
  destruct (get_audio_again _ _ _ _ _ _ Ha Hne) as [Hagain Hw].
  assert (Ht1 : torch_load text w1 = IoOk t).
  { destruct Hw as [->|[t0 Hsave]]; [done |].
    by rewrite (save_frame_load _ _ _ _ text Hsave). }
  by rewrite Ht1, Hagain, Hp.
Qed.

End GetItem.

Lemma toy_save_frame_load (t : list Z) (p : string) (w w' : gmap string file)
    (q : string) :
  toy_save t p w = (None, w') → q ≠ p → toy_load q w' = toy_load q w.
Proof.
  unfold toy_save, toy_load. intros [= <-] Hq. by rewrite lookup_insert_ne.
Qed.

Lemma getitem_repeatable_witness :
  let w : gmap string file :=
    {[ "a.wav" := AudioFile [32768; 65536; 0; 32768] 44100;
       "a.soft.pt" := TensorFile [7; 8];
       "a.f0.pt" := TensorFile [9] ]} in
  let w' : gmap string file := <["a.spec.pt" := TensorFile [1; 2]]> w in
  let data :=
    TextAudioSpeakerLoader.mk Z [["a.wav"; "0"; "a.soft.pt"; "a.f0.pt"; "x"]]
      (mkHParams Z 32768 44100 1280 2 1280) [] in
  let item : list Z * list Z * list Z * list Z * list Z :=
    ([7; 8], [1; 2], [1; 2; 0; 1], [9], [1]) in
  TextAudioSpeakerLoader.__getitem__ (gmap string file) (list Z) Z
    toy_exists toy_load toy_save toy_load_wav toy_spectrogram toy_div
    toy_reshape toy_reshape toy_int toy_long data 0 w
  = (IoOk item, w') ∧
  TextAudioSpeakerLoader.__getitem__ (gmap string file) (list Z) Z
    toy_exists toy_load toy_save toy_load_wav toy_spectrogram toy_div
    toy_reshape toy_reshape toy_int toy_long data 0 w'
  = (IoOk item, w').
Proof.
  intros w w' data item.
  assert (H : TextAudioSpeakerLoader.__getitem__ (gmap string file) (list Z) Z
                toy_exists toy_load toy_save toy_load_wav toy_spectrogram
                toy_div toy_reshape toy_reshape toy_int toy_long data 0 w
              = (IoOk item, w')) by (vm_compute; reflexivity).
  split; [exact H |].
  apply (getitem_repeatable (gmap string file) (list Z) Z toy_exists toy_load
           toy_save toy_load_wav toy_spectrogram toy_div toy_reshape
           toy_reshape toy_int toy_long toy_save_exists toy_save_load
           toy_save_frame toy_save_frame_load data 0
           "a.wav" "0" "a.soft.pt" "a.f0.pt" ["x"] w w' item);
    [reflexivity | vm_compute; discriminate | vm_compute; discriminate
    | vm_compute; discriminate | exact H].
Defined.
